(** * Bulk spreadsheet import of the church management system

    A shallow embedding of [backend/src/services/excelImport.ts]
    (class [ExcelImportService]) and of the [POST /excel] handler of
    [backend/src/routes/users.ts], followed by the properties of the
    import pipeline.

    Conventions of the embedding.
    - A JavaScript string is a [string]; its characters stand for the
      UTF-16 code units 0..255, on which [trim], [toLowerCase] and the
      regular-expression classes [\s] and [\d] are written out.
    - [undefined] and [null] are [None]; a value used as a condition goes
      through [truthy] / [truthyOpt].
    - The storage service (the Supabase client) is an in-memory set of
      tables; every call consumes one entry of a fault schedule that says
      whether the call is applied, answers with an error object, or
      rejects. *)

From Stdlib Require Import String Ascii List Bool Arith Lia DecimalString.
From Stdlib Require Import DecimalNat Sorted.
From stdpp Require Import base option list strings gmap.

Import ListNotations.
Local Open Scope string_scope.
Local Open Scope list_scope.

(** ** JavaScript strings *)

Module Js.

(** A string used as a condition: only the empty string is falsy. *)
Definition truthy (s : string) : bool :=
  match s with
  | EmptyString => false
  | String _ _ => true
  end.

(** An optional string used as a condition ([undefined] is falsy). *)
Definition truthyOpt (o : option string) : bool :=
  match o with
  | None => false
  | Some s => truthy s
  end.

(** [x || undefined] and [x || null] on an optional string. *)
Definition orNull (o : option string) : option string :=
  match o with
  | Some s => if truthy s then Some s else None
  | None => None
  end.

(** [x || ''] on an optional string. *)
Definition orEmpty (o : option string) : string :=
  match o with
  | Some s => s
  | None => ""
  end.

Definition inRange (lo hi : nat) (c : ascii) : bool :=
  Nat.leb lo (nat_of_ascii c) && Nat.leb (nat_of_ascii c) hi.

(** White space and line terminators: TAB, LF, VT, FF, CR, SP, NBSP.
    This is both the class [\s] and the set removed by [trim]. *)
Definition isWhiteSpace (c : ascii) : bool :=
  inRange 9 13 c || Nat.eqb (nat_of_ascii c) 32 || Nat.eqb (nat_of_ascii c) 160.

(** The class [\d]. *)
Definition isDigit (c : ascii) : bool := inRange 48 57 c.

(** [toLowerCase] on one code unit: A-Z, and the Latin-1 capitals
    U+00C0..U+00DE except the multiplication sign U+00D7. *)
Definition lowerChar (c : ascii) : ascii :=
  if inRange 65 90 c
     || (inRange 192 222 c && negb (Nat.eqb (nat_of_ascii c) 215))
  then ascii_of_nat (nat_of_ascii c + 32)
  else c.

Fixpoint toLowerCase (s : string) : string :=
  match s with
  | EmptyString => EmptyString
  | String c s' => String (lowerChar c) (toLowerCase s')
  end.

Fixpoint trimStart (s : string) : string :=
  match s with
  | EmptyString => EmptyString
  | String c s' => if isWhiteSpace c then trimStart s' else s
  end.

Fixpoint trimEnd (s : string) : string :=
  match s with
  | EmptyString => EmptyString
  | String c s' =>
      match trimEnd s' with
      | EmptyString => if isWhiteSpace c then EmptyString else String c EmptyString
      | t => String c t
      end
  end.

Definition trim (s : string) : string := trimEnd (trimStart s).

(** [s.split(',')]: the empty string splits into one empty piece. *)
Fixpoint split_comma (s : string) : list string :=
  match s with
  | EmptyString => [EmptyString]
  | String c s' =>
      if Ascii.eqb c ","%char then EmptyString :: split_comma s'
      else match split_comma s' with
           | h :: t => String c h :: t
           | [] => [String c EmptyString]
           end
  end.

(** [list.includes(s)] on an array of strings. *)
Definition includes (l : list string) (s : string) : bool :=
  existsb (String.eqb s) l.

(** *** Regular expressions, matched by derivatives *)

Inductive regex : Type :=
| Void : regex
| Eps : regex
| Class : (ascii -> bool) -> regex
| Cat : regex -> regex -> regex
| Alt : regex -> regex -> regex
| Star : regex -> regex.

Definition Opt (r : regex) : regex := Alt Eps r.
Definition Plus (r : regex) : regex := Cat r (Star r).

(** [r{n,}] *)
Fixpoint AtLeast (n : nat) (r : regex) : regex :=
  match n with
  | O => Star r
  | S k => Cat r (AtLeast k r)
  end.

Fixpoint nullable (r : regex) : bool :=
  match r with
  | Void => false
  | Eps => true
  | Class _ => false
  | Cat a b => nullable a && nullable b
  | Alt a b => nullable a || nullable b
  | Star _ => true
  end.

Fixpoint deriv (c : ascii) (r : regex) : regex :=
  match r with
  | Void => Void
  | Eps => Void
  | Class p => if p c then Eps else Void
  | Cat a b =>
      if nullable a then Alt (Cat (deriv c a) b) (deriv c b)
      else Cat (deriv c a) b
  | Alt a b => Alt (deriv c a) (deriv c b)
  | Star a => Cat (deriv c a) (Star a)
  end.

(** [/^r$/.test(s)]: the whole string is in the language of [r]. *)
Fixpoint test (r : regex) (s : string) : bool :=
  match s with
  | EmptyString => nullable r
  | String c s' => test (deriv c r) s'
  end.

End Js.

Import Js.

(** ** Row records and error entries (excelImport.ts, lines 5-27) *)

Inductive Role : Type := member | group_leader.

Record ExcelRow : Type := {
  firstName : string;
  lastName : string;
  email : string;
  phone : string;
  dateOfBirth : option string;
  gender : option string;
  bloodGroup : option string;
  address : option string;
  emergencyContactName : option string;
  emergencyContactPhone : option string;
  familyName : string;
  headOfFamily : bool;
  groupMemberships : option string;
  role : option Role;
  notes : option string
}.

(** The [data] payload of an error entry: the row itself in
    [processImport], [{}] or [{ totalRows }] in the upload handler. *)
Inductive ErrorData : Type :=
| DataRow : ExcelRow -> ErrorData
| DataEmpty : ErrorData
| DataTotalRows : nat -> ErrorData.

Record ImportError : Type := {
  row : nat;
  error : string;
  data : ErrorData
}.

(** ** The validators (excelImport.ts, lines 30-51 and 98-142) *)

Section Validation.

(** [dateParses s] stands for [!isNaN(new Date(s).getTime())]; which
    strings the engine's date parser accepts is left open. *)
Variable dateParses : string -> bool.

(** [[^\s@]] *)
Definition notSpaceAt (c : ascii) : bool :=
  negb (isWhiteSpace c || Ascii.eqb c "@"%char).

(** [/^[^\s@]+@[^\s@]+\.[^\s@]+$/] *)
Definition emailRegex : regex :=
  Cat (Plus (Class notSpaceAt))
    (Cat (Class (Ascii.eqb "@"%char))
       (Cat (Plus (Class notSpaceAt))
          (Cat (Class (Ascii.eqb "."%char))
             (Plus (Class notSpaceAt))))).

Definition validateEmail (e : string) : bool := test emailRegex e.

(** [[\d\s\-\(\)]] *)
Definition phoneChar (c : ascii) : bool :=
  isDigit c || isWhiteSpace c || Ascii.eqb c "-"%char
  || Ascii.eqb c "("%char || Ascii.eqb c ")"%char.

(** [/^[\+]?[\d\s\-\(\)]{10,}$/] *)
Definition phoneRegex : regex :=
  Cat (Opt (Class (Ascii.eqb "+"%char))) (AtLeast 10 (Class phoneChar)).

Definition validatePhone (p : string) : bool := test phoneRegex p.

Definition validGroups : list string :=
  ["A+"; "B+"; "AB+"; "O+"; "A-"; "B-"; "AB-"; "O-"].

Definition validateBloodGroup (bg : option string) : bool :=
  if negb (truthyOpt bg) then true
  else includes validGroups (orEmpty bg).

Definition validateDate (dateStr : option string) : bool :=
  if negb (truthyOpt dateStr) then true
  else dateParses (orEmpty dateStr).

Definition validGenders : list string := ["Male"; "Female"; "Other"].

Definition mkError (rowNumber : nat) (msg : string) (r : ExcelRow) : ImportError :=
  {| row := rowNumber; error := msg; data := DataRow r |}.

Definition validateRow (r : ExcelRow) (rowNumber : nat) : option ImportError :=
  if negb (truthy (firstName r)) then
    Some (mkError rowNumber "First name is required" r)
  else if negb (truthy (lastName r)) then
    Some (mkError rowNumber "Last name is required" r)
  else if negb (truthy (email r)) then
    Some (mkError rowNumber "Email is required" r)
  else if negb (truthy (phone r)) then
    Some (mkError rowNumber "Phone is required" r)
  else if negb (truthy (familyName r)) then
    Some (mkError rowNumber "Family name is required" r)
  else if negb (validateEmail (email r)) then
    Some (mkError rowNumber "Invalid email format" r)
  else if negb (validatePhone (phone r)) then
    Some (mkError rowNumber "Invalid phone number format" r)
  else if negb (validateBloodGroup (bloodGroup r)) then
    Some (mkError rowNumber "Invalid blood group" r)
  else if negb (validateDate (dateOfBirth r)) then
    Some (mkError rowNumber "Invalid date of birth format" r)
  else if truthyOpt (gender r)
          && negb (includes validGenders (orEmpty (gender r))) then
    Some (mkError rowNumber "Invalid gender. Must be Male, Female, or Other" r)
  else None.

End Validation.

(** ** Reading the worksheet (excelImport.ts, lines 53-96) *)

(** [row.values]: an array indexed from 1 whose holes are [None].  A cell
    is kept as the string its [toString()] returns. *)
Definition Cells : Type := list (option string).

(** What [worksheet.eachRow] hands to its callback, in order: the rows of
    the sheet that hold a value, each with its row number in the sheet. *)
Definition Worksheet : Type := list (nat * Cells).

(** What [workbook.xlsx.readFile] finds at the path: a file that cannot
    be read as a workbook, or a workbook with or without a first
    worksheet. *)
Inductive FileContent : Type :=
| Unreadable : string -> FileContent
| Workbook : option Worksheet -> FileContent.

(** [cells[k]], [undefined] past the end of the array. *)
Definition cell (cells : Cells) (k : nat) : option string :=
  match nth_error cells k with
  | Some (Some s) => Some s
  | _ => None
  end.

(** [cells[k]?.toString().trim()] *)
Definition cellTrim (cells : Cells) (k : nat) : option string :=
  match cell cells k with
  | Some s => Some (trim s)
  | None => None
  end.

(** The array of line 83. *)
Definition headOfFamilyWords : list string := ["yes"; "y"; "true"; "1"].

(** The object literal of lines 71-87. *)
Definition mapRow (cells : Cells) : ExcelRow :=
  {| firstName := orEmpty (cellTrim cells 1);
     lastName := orEmpty (cellTrim cells 2);
     email := orEmpty (match cellTrim cells 3 with
                       | Some s => Some (toLowerCase s)
                       | None => None
                       end);
     phone := orEmpty (cellTrim cells 4);
     dateOfBirth := orNull (cellTrim cells 5);
     gender := orNull (cellTrim cells 6);
     bloodGroup := orNull (cellTrim cells 7);
     address := orNull (cellTrim cells 8);
     emergencyContactName := orNull (cellTrim cells 9);
     emergencyContactPhone := orNull (cellTrim cells 10);
     familyName := orEmpty (cellTrim cells 11);
     headOfFamily :=
       includes headOfFamilyWords
         (orEmpty (match cell cells 12 with
                   | Some s => Some (trim (toLowerCase s))
                   | None => None
                   end));
     groupMemberships := orNull (cellTrim cells 13);
     role :=
       Some (match cellTrim cells 14 with
             | Some s => if String.eqb (toLowerCase s) "group_leader"
                         then group_leader else member
             | None => member
             end);
     notes := orNull (cellTrim cells 15) |}.

(** The test of line 90. *)
Definition hasRequired (r : ExcelRow) : bool :=
  truthy (firstName r) && truthy (lastName r) && truthy (email r)
  && truthy (phone r) && truthy (familyName r).

(** The callback of [eachRow], folded over the rows of the sheet. *)
Fixpoint eachRow (ws : Worksheet) : list ExcelRow :=
  match ws with
  | [] => []
  | (rowNumber, cells) :: rest =>
      if Nat.eqb rowNumber 1 then eachRow rest
      else if hasRequired (mapRow cells) then mapRow cells :: eachRow rest
      else eachRow rest
  end.

(** A thrown value: an [Error] with its message, or anything else. *)
Inductive Exception : Type :=
| JsError : string -> Exception
| NonError : Exception.

(** [error instanceof Error ? error.message : 'Unknown error'] *)
Definition messageOf (e : Exception) : string :=
  match e with
  | JsError m => m
  | NonError => "Unknown error"
  end.

(** [parseExcelFile] on what is at the path: it throws, or returns the
    rows. *)
Definition parseExcelFile (f : FileContent) : Exception + list ExcelRow :=
  match f with
  | Unreadable msg => inl (JsError msg)
  | Workbook None => inl (JsError "No worksheet found in Excel file")
  | Workbook (Some ws) => inr (eachRow ws)
  end.

(** ** The storage service *)

(** *** Tables *)

(** The values that the [status] column of [import_jobs] admits. *)
Inductive JobStatus : Type := pending | processing | completed | failed.

(** A row of [import_jobs]; a time is the reading of the clock. *)
Record ImportJob : Type := {
  job_id : string;
  job_filename : string;
  job_file_url : string;
  job_status : JobStatus;
  job_total_records : nat;
  job_processed_records : nat;
  job_successful_records : nat;
  job_failed_records : nat;
  job_error_log : option (list ImportError);
  job_created_by : string;
  job_started_at : option nat;
  job_completed_at : option nat
}.

(** The columns of [user_profiles] that the import reads or writes; the
    [email] column is the one that its look-up names. *)
Record UserProfile : Type := {
  user_id : string;
  user_email : option string;
  user_first_name : string;
  user_last_name : string;
  user_phone : option string;
  user_date_of_birth : option string;
  user_gender : option string;
  user_blood_group : option string;
  user_address : option string;
  user_emergency_contact_name : option string;
  user_emergency_contact_phone : option string;
  user_role : string;
  user_family_id : option string
}.

(** The columns of [families] that the import reads or writes. *)
Record Family : Type := {
  family_id : string;
  family_name : string;
  family_head_of_family_id : option string;
  family_address : option string;
  family_phone : option string
}.

(** What the import selects of [groups]. *)
Record Group : Type := {
  group_id : string;
  group_name : string
}.

(** The columns of [group_memberships] that the import writes. *)
Record GroupMembership : Type := {
  gm_group_id : string;
  gm_user_id : string;
  gm_status : string;
  gm_role : string
}.

(** The tables. *)
Record Store : Type := {
  import_jobs : list ImportJob;
  user_profiles : list UserProfile;
  families : list Family;
  groups : list Group;
  group_memberships : list GroupMembership
}.

(** *** Update objects

    The object literal passed to [.update(...)] or [.insert(...)]: a
    column that the literal does not mention is [None]; a nullable column
    written with [x || null] carries [Some None] for SQL NULL. *)

Record JobPatch : Type := {
  set_status : option JobStatus;
  set_started_at : option nat;
  set_total_records : option nat;
  set_processed_records : option nat;
  set_successful_records : option nat;
  set_failed_records : option nat;
  set_error_log : option (list ImportError);
  set_completed_at : option nat
}.

Record UserPatch : Type := {
  set_email : option (option string);
  set_first_name : option string;
  set_last_name : option string;
  set_phone : option (option string);
  set_date_of_birth : option (option string);
  set_gender : option (option string);
  set_blood_group : option (option string);
  set_address : option (option string);
  set_emergency_contact_name : option (option string);
  set_emergency_contact_phone : option (option string);
  set_role : option string;
  set_family_id : option (option string)
}.

Definition written {A : Type} (p : option A) (old : A) : A :=
  match p with
  | Some v => v
  | None => old
  end.

Definition applyJobPatch (p : JobPatch) (j : ImportJob) : ImportJob :=
  {| job_id := job_id j;
     job_filename := job_filename j;
     job_file_url := job_file_url j;
     job_status := written (set_status p) (job_status j);
     job_total_records := written (set_total_records p) (job_total_records j);
     job_processed_records :=
       written (set_processed_records p) (job_processed_records j);
     job_successful_records :=
       written (set_successful_records p) (job_successful_records j);
     job_failed_records := written (set_failed_records p) (job_failed_records j);
     job_error_log :=
       match set_error_log p with
       | Some l => Some l
       | None => job_error_log j
       end;
     job_created_by := job_created_by j;
     job_started_at :=
       match set_started_at p with
       | Some t => Some t
       | None => job_started_at j
       end;
     job_completed_at :=
       match set_completed_at p with
       | Some t => Some t
       | None => job_completed_at j
       end |}.

Definition applyUserPatch (p : UserPatch) (u : UserProfile) : UserProfile :=
  {| user_id := user_id u;
     user_email := written (set_email p) (user_email u);
     user_first_name := written (set_first_name p) (user_first_name u);
     user_last_name := written (set_last_name p) (user_last_name u);
     user_phone := written (set_phone p) (user_phone u);
     user_date_of_birth := written (set_date_of_birth p) (user_date_of_birth u);
     user_gender := written (set_gender p) (user_gender u);
     user_blood_group := written (set_blood_group p) (user_blood_group u);
     user_address := written (set_address p) (user_address u);
     user_emergency_contact_name :=
       written (set_emergency_contact_name p) (user_emergency_contact_name u);
     user_emergency_contact_phone :=
       written (set_emergency_contact_phone p) (user_emergency_contact_phone u);
     user_role := written (set_role p) (user_role u);
     user_family_id := written (set_family_id p) (user_family_id u) |}.

(** A fresh row of [user_profiles]: unmentioned nullable columns are
    NULL, [role] defaults to ['member']. *)
Definition newUserRow (id : string) (p : UserPatch) : UserProfile :=
  {| user_id := id;
     user_email := written (set_email p) None;
     user_first_name := written (set_first_name p) "";
     user_last_name := written (set_last_name p) "";
     user_phone := written (set_phone p) None;
     user_date_of_birth := written (set_date_of_birth p) None;
     user_gender := written (set_gender p) None;
     user_blood_group := written (set_blood_group p) None;
     user_address := written (set_address p) None;
     user_emergency_contact_name := written (set_emergency_contact_name p) None;
     user_emergency_contact_phone := written (set_emergency_contact_phone p) None;
     user_role := written (set_role p) "member";
     user_family_id := written (set_family_id p) None |}.

(** *** Calls and their outcomes *)

(** What the service does with one call: it applies it, it answers with
    an [error] object and changes nothing, or the awaited promise rejects
    and nothing is changed. *)
Inductive Fault : Type :=
| Applied : Fault
| Refused : string -> Fault
| Rejected : Exception -> Fault.

Inductive Call : Type :=
| JobInsert : string -> string -> JobStatus -> string -> Call
| JobUpdate : string -> JobPatch -> Call
| GroupsSelect : Call
| UserSelect : string -> string -> Call
| UserUpdate : string -> UserPatch -> Call
| UserInsert : UserPatch -> Call
| FamilySelect : string -> Call
| FamilyInsert : string -> option string -> string -> Call
| FamilySetHead : string -> string -> Call
| MembershipUpsert : string -> string -> string -> string -> Call.

Record Event : Type := {
  call : Call;
  outcome : Fault
}.

(** The service together with what is still to happen to it ([faults],
    one entry per call; an exhausted schedule applies every call), the
    number of calls made so far (also the reading of the clock and the
    seed of generated identifiers) and the record of the calls made. *)
Record World : Type := {
  store : Store;
  faults : list Fault;
  clock : nat;
  calls : list Event
}.

(** The identifier the service generates for the row inserted by call
    number [n]. *)
Definition genId (n : nat) : string :=
  "id-" +:+ NilEmpty.string_of_uint (Nat.to_uint n).

(** *** The monad of asynchronous code

    A computation runs on a state and ends normally, by [continue] (which
    leaves every enclosing block up to the loop), or by throwing. *)

Inductive Result (A : Type) : Type :=
| Normal : A -> Result A
| ContinueLoop : Result A
| Thrown : Exception -> Result A.

Arguments Normal {A} _.
Arguments ContinueLoop {A}.
Arguments Thrown {A} _.

Definition M (S A : Type) : Type := S -> Result A * S.

Definition ret {S A : Type} (a : A) : M S A := fun s => (Normal a, s).

Definition bind {S A B : Type} (m : M S A) (k : A -> M S B) : M S B :=
  fun s =>
    match m s with
    | (Normal a, s') => k a s'
    | (ContinueLoop, s') => (ContinueLoop, s')
    | (Thrown e, s') => (Thrown e, s')
    end.

Definition continue {S A : Type} : M S A := fun s => (ContinueLoop, s).

Definition throw {S A : Type} (e : Exception) : M S A := fun s => (Thrown e, s).

(** [try { m } catch (error) { h error }]; a [continue] inside [m] is not
    caught. *)
Definition tryCatch {S A : Type} (m : M S A) (h : Exception -> M S A) : M S A :=
  fun s =>
    match m s with
    | (Thrown e, s') => h e s'
    | r => r
    end.

(** The body of a loop iteration: [continue] ends the iteration. *)
Definition loopBody {S : Type} (m : M S unit) : M S unit :=
  fun s =>
    match m s with
    | (ContinueLoop, s') => (Normal tt, s')
    | r => r
    end.

Definition get {S : Type} : M S S := fun s => (Normal s, s).
Definition modify {S : Type} (f : S -> S) : M S unit := fun s => (Normal tt, f s).

Declare Scope async_scope.
Delimit Scope async_scope with async.
Notation "'let*' x ':=' m 'in' k" := (bind m (fun x => k))
  (at level 10, x pattern, m at level 100, k at level 200) : async_scope.
Notation "m ';;' k" := (bind m (fun _ => k))
  (at level 100, k at level 200, right associativity) : async_scope.
Local Open Scope async_scope.

(** *** The calls of the import on the service *)

(** The [{ data, error }] object a call resolves to. *)
Record Answer (A : Type) : Type := {
  ans_data : option A;
  ans_error : option string
}.

Arguments ans_data {A} _.
Arguments ans_error {A} _.

Definition answered {A : Type} (a : A) : Answer A :=
  {| ans_data := Some a; ans_error := None |}.

Definition failedWith {A : Type} (msg : string) : Answer A :=
  {| ans_data := None; ans_error := Some msg |}.

Definition nextFault (w : World) : Fault :=
  match faults w with
  | [] => Applied
  | f :: _ => f
  end.

Definition advance (c : Call) (o : Fault) (st : Store) (w : World) : World :=
  {| store := st;
     faults := tail (faults w);
     clock := S (clock w);
     calls := calls w ++ [{| call := c; outcome := o |}] |}.

(** One awaited call: [run] is what the service does when it applies the
    call. *)
Definition request {A : Type} (c : Call) (run : World -> Answer A * Store)
  : M World (Answer A) :=
  fun w =>
    match nextFault w with
    | Applied => (Normal (fst (run w)), advance c Applied (snd (run w)) w)
    | Refused msg => (Normal (failedWith msg), advance c (Refused msg) (store w) w)
    | Rejected e => (Thrown e, advance c (Rejected e) (store w) w)
    end.

(** [new Date().toISOString()] *)
Definition now : M World nat := fun w => (Normal (clock w), w).

Definition setJobs (l : list ImportJob) (st : Store) : Store :=
  {| import_jobs := l; user_profiles := user_profiles st; families := families st;
     groups := groups st; group_memberships := group_memberships st |}.

Definition setUsers (l : list UserProfile) (st : Store) : Store :=
  {| import_jobs := import_jobs st; user_profiles := l; families := families st;
     groups := groups st; group_memberships := group_memberships st |}.

Definition setFamilies (l : list Family) (st : Store) : Store :=
  {| import_jobs := import_jobs st; user_profiles := user_profiles st; families := l;
     groups := groups st; group_memberships := group_memberships st |}.

Definition setMemberships (l : list GroupMembership) (st : Store) : Store :=
  {| import_jobs := import_jobs st; user_profiles := user_profiles st;
     families := families st; groups := groups st; group_memberships := l |}.

(** [.single()]: the data is the row when exactly one row comes back. *)
Definition single {A : Type} (l : list A) : Answer A :=
  match l with
  | [x] => answered x
  | _ => failedWith "JSON object requested, multiple (or no) rows returned"
  end.

(** [from('import_jobs').insert({...}).select().single()] *)
Definition insertJob (filename file_url : string) (status : JobStatus)
  (created_by : string) : M World (Answer ImportJob) :=
  request (JobInsert filename file_url status created_by)
    (fun w =>
       let j := {| job_id := genId (clock w);
                   job_filename := filename;
                   job_file_url := file_url;
                   job_status := status;
                   job_total_records := 0;
                   job_processed_records := 0;
                   job_successful_records := 0;
                   job_failed_records := 0;
                   job_error_log := None;
                   job_created_by := created_by;
                   job_started_at := None;
                   job_completed_at := None |} in
       (answered j, setJobs (import_jobs (store w) ++ [j]) (store w))).

(** [from('import_jobs').update(p).eq('id', id)] *)
Definition updateJob (id : string) (p : JobPatch) : M World (Answer unit) :=
  request (JobUpdate id p)
    (fun w =>
       (answered tt,
        setJobs (map (fun j => if String.eqb (job_id j) id
                               then applyJobPatch p j else j)
                   (import_jobs (store w)))
          (store w))).

(** [from('groups').select('id, name')] *)
Definition selectGroups : M World (Answer (list Group)) :=
  request GroupsSelect (fun w => (answered (groups (store w)), store w)).

Definition optEqb (o : option string) (s : string) : bool :=
  match o with
  | Some x => String.eqb x s
  | None => false
  end.

(** [from('user_profiles').select('id, email, phone')
      .or(`email.eq.${e},phone.eq.${p}`).single()] *)
Definition selectUser (e p : string) : M World (Answer UserProfile) :=
  request (UserSelect e p)
    (fun w =>
       (single (List.filter (fun u => optEqb (user_email u) e || optEqb (user_phone u) p)
                  (user_profiles (store w))),
        store w)).

Definition patchUsers (id : string) (p : UserPatch) (l : list UserProfile)
  : list UserProfile :=
  map (fun u => if String.eqb (user_id u) id then applyUserPatch p u else u) l.

(** [from('user_profiles').update(p).eq('id', id).select().single()]:
    unless exactly one row is concerned the change is undone and the
    answer is an error. *)
Definition updateUserSingle (id : string) (p : UserPatch)
  : M World (Answer UserProfile) :=
  request (UserUpdate id p)
    (fun w =>
       match List.filter (fun u => String.eqb (user_id u) id) (user_profiles (store w)) with
       | [u] => (answered (applyUserPatch p u),
                 setUsers (patchUsers id p (user_profiles (store w))) (store w))
       | l => (single l, store w)
       end).

(** [from('user_profiles').update(p).eq('id', id)] *)
Definition updateUser (id : string) (p : UserPatch) : M World (Answer unit) :=
  request (UserUpdate id p)
    (fun w =>
       (answered tt, setUsers (patchUsers id p (user_profiles (store w))) (store w))).

(** [from('user_profiles').insert(p).select().single()] *)
Definition insertUser (p : UserPatch) : M World (Answer UserProfile) :=
  request (UserInsert p)
    (fun w =>
       let u := newUserRow (genId (clock w)) p in
       (answered u, setUsers (user_profiles (store w) ++ [u]) (store w))).

Section Service.

(** [ilike pattern value] stands for the service's [ILIKE] operator. *)
Variable ilike : string -> string -> bool.

(** [from('families').select('id').ilike('family_name', pat).single()] *)
Definition selectFamily (pat : string) : M World (Answer Family) :=
  request (FamilySelect pat)
    (fun w =>
       (single (List.filter (fun f => ilike pat (family_name f)) (families (store w))),
        store w)).

End Service.

(** [from('families').insert({ family_name, address, phone })
      .select().single()] *)
Definition insertFamily (name : string) (addr : option string) (ph : string)
  : M World (Answer Family) :=
  request (FamilyInsert name addr ph)
    (fun w =>
       let f := {| family_id := genId (clock w);
                   family_name := name;
                   family_head_of_family_id := None;
                   family_address := addr;
                   family_phone := Some ph |} in
       (answered f, setFamilies (families (store w) ++ [f]) (store w))).

Definition setHead (head : string) (f : Family) : Family :=
  {| family_id := family_id f;
     family_name := family_name f;
     family_head_of_family_id := Some head;
     family_address := family_address f;
     family_phone := family_phone f |}.

(** [from('families').update({ head_of_family_id: head }).eq('id', id)] *)
Definition setFamilyHead (id head : string) : M World (Answer unit) :=
  request (FamilySetHead id head)
    (fun w =>
       (answered tt,
        setFamilies (map (fun f => if String.eqb (family_id f) id
                                   then setHead head f else f)
                       (families (store w)))
          (store w))).

Definition sameKey (g u : string) (m : GroupMembership) : bool :=
  String.eqb (gm_group_id m) g && String.eqb (gm_user_id m) u.

(** What [upsert] with [onConflict: 'group_id,user_id'] does to the
    table: the row with that key takes the new status and role, or a new
    row is added. *)
Definition upsertRow (g u st ro : string) (t : list GroupMembership)
  : list GroupMembership :=
  if existsb (sameKey g u) t then
    map (fun m => if sameKey g u m
                  then {| gm_group_id := g; gm_user_id := u;
                          gm_status := st; gm_role := ro |}
                  else m) t
  else t ++ [{| gm_group_id := g; gm_user_id := u; gm_status := st; gm_role := ro |}].

(** [from('group_memberships').upsert({...}, { onConflict })] *)
Definition upsertMembership (g u st ro : string) : M World (Answer unit) :=
  request (MembershipUpsert g u st ro)
    (fun w =>
       (answered tt,
        setMemberships (upsertRow g u st ro (group_memberships (store w))) (store w))).

(** ** The import run (excelImport.ts, lines 144-393) *)

(** The local variables of [processImport] together with the world the
    run acts on. *)
Record Run : Type := {
  errors : list ImportError;
  familyMap : gmap string string;
  groupMap : gmap string string;
  processedCount : nat;
  successCount : nat;
  world : World
}.

(** Assignments to the local variables. *)
Definition setErrors (l : list ImportError) (r : Run) : Run :=
  {| errors := l; familyMap := familyMap r; groupMap := groupMap r;
     processedCount := processedCount r; successCount := successCount r;
     world := world r |}.

Definition setFamilyMap (m : gmap string string) (r : Run) : Run :=
  {| errors := errors r; familyMap := m; groupMap := groupMap r;
     processedCount := processedCount r; successCount := successCount r;
     world := world r |}.

Definition setGroupMap (m : gmap string string) (r : Run) : Run :=
  {| errors := errors r; familyMap := familyMap r; groupMap := m;
     processedCount := processedCount r; successCount := successCount r;
     world := world r |}.

Definition setProcessedCount (n : nat) (r : Run) : Run :=
  {| errors := errors r; familyMap := familyMap r; groupMap := groupMap r;
     processedCount := n; successCount := successCount r; world := world r |}.

Definition setSuccessCount (n : nat) (r : Run) : Run :=
  {| errors := errors r; familyMap := familyMap r; groupMap := groupMap r;
     processedCount := processedCount r; successCount := n; world := world r |}.

Definition setWorld (w : World) (r : Run) : Run :=
  {| errors := errors r; familyMap := familyMap r; groupMap := groupMap r;
     processedCount := processedCount r; successCount := successCount r;
     world := w |}.

(** [await] of a call on the service from inside the run. *)
Definition await {A : Type} (m : M World A) : M Run A :=
  fun r => (fst (m (world r)), setWorld (snd (m (world r))) r).

(** [errors.push(e)] *)
Definition pushError (e : ImportError) : M Run unit :=
  modify (fun r => setErrors (errors r ++ [e]) r).

(** The string of a role in the [role] column. *)
Definition roleName (ro : Role) : string :=
  match ro with
  | member => "member"
  | group_leader => "group_leader"
  end.

(** The object literal of lines 205-216 and 233-244. *)
Definition profilePatch (r : ExcelRow) : UserPatch :=
  {| set_email := None;
     set_first_name := Some (firstName r);
     set_last_name := Some (lastName r);
     set_phone := Some (Some (phone r));
     set_date_of_birth := Some (orNull (dateOfBirth r));
     set_gender := Some (orNull (gender r));
     set_blood_group := Some (orNull (bloodGroup r));
     set_address := Some (orNull (address r));
     set_emergency_contact_name := Some (orNull (emergencyContactName r));
     set_emergency_contact_phone := Some (orNull (emergencyContactPhone r));
     set_role := Some (match role r with
                       | Some ro => roleName ro
                       | None => "member"
                       end);
     set_family_id := None |}.

(** [{ family_id: familyId }] *)
Definition familyLinkPatch (familyId : string) : UserPatch :=
  {| set_email := None; set_first_name := None; set_last_name := None;
     set_phone := None; set_date_of_birth := None; set_gender := None;
     set_blood_group := None; set_address := None;
     set_emergency_contact_name := None; set_emergency_contact_phone := None;
     set_role := None; set_family_id := Some (Some familyId) |}.

(** The update of lines 158-163. *)
Definition startPatch (t total : nat) : JobPatch :=
  {| set_status := Some processing; set_started_at := Some t;
     set_total_records := Some total; set_processed_records := None;
     set_successful_records := None; set_failed_records := None;
     set_error_log := None; set_completed_at := None |}.

(** The update of lines 355-359. *)
Definition progressPatch (r : Run) : JobPatch :=
  {| set_status := None; set_started_at := None; set_total_records := None;
     set_processed_records := Some (processedCount r);
     set_successful_records := Some (successCount r);
     set_failed_records := Some (length (errors r));
     set_error_log := None; set_completed_at := None |}.

(** The updates of lines 367-374 and 381-388. *)
Definition finalPatch (st : JobStatus) (r : Run) (t : nat) : JobPatch :=
  {| set_status := Some st; set_started_at := None; set_total_records := None;
     set_processed_records := Some (processedCount r);
     set_successful_records := Some (successCount r);
     set_failed_records := Some (length (errors r));
     set_error_log := Some (errors r); set_completed_at := Some t |}.

(** What reading [.id] of [null] throws. *)
Definition nullId : Exception :=
  JsError "Cannot read properties of null (reading 'id')".

(** [for (const x of l) { body x }] *)
Fixpoint forOf {S A : Type} (l : list A) (body : A -> M S unit) : M S unit :=
  match l with
  | [] => ret tt
  | x :: rest => body x ;; forOf rest body
  end.

Section ImportRun.

Variable dateParses : string -> bool.
Variable ilike : string -> string -> bool.

(** Lines 192-258: the member of the row, found and updated, or created.
    The result is [userId]. *)
Definition resolveMember (r : ExcelRow) (rowNumber : nat) : M Run string :=
  let* existingUser := await (selectUser (email r) (phone r)) in
  match ans_data existingUser with
  | Some u =>
      let* upd := await (updateUserSingle (user_id u) (profilePatch r)) in
      match ans_error upd with
      | Some msg =>
          pushError {| row := rowNumber;
                       error := "Failed to update user: " +:+ msg;
                       data := DataRow r |} ;;
          continue
      | None => ret (user_id u)
      end
  | None =>
      let* ins := await (insertUser (profilePatch r)) in
      match ans_error ins with
      | Some msg =>
          pushError {| row := rowNumber;
                       error := "Failed to create user: " +:+ msg;
                       data := DataRow r |} ;;
          continue
      | None =>
          match ans_data ins with
          | Some newUser => ret (user_id newUser)
          | None => throw nullId
          end
      end
  end.

(** Lines 260-300: the family of the row, from the map of the run, from
    the service, or created.  The result is [familyId]. *)
Definition resolveFamily (r : ExcelRow) (rowNumber : nat) : M Run (option string) :=
  let* f := get in
  let familyId := familyMap f !! toLowerCase (familyName r) in
  if negb (truthyOpt familyId) then
    let* existingFamily := await (selectFamily ilike (familyName r)) in
    let* familyId :=
      match ans_data existingFamily with
      | Some fam => ret (family_id fam)
      | None =>
          let* ins := await (insertFamily (familyName r) (orNull (address r)) (phone r)) in
          match ans_error ins with
          | Some msg =>
              pushError {| row := rowNumber;
                           error := "Failed to create family: " +:+ msg;
                           data := DataRow r |} ;;
              continue
          | None =>
              match ans_data ins with
              | Some newFamily => ret (family_id newFamily)
              | None => throw nullId
              end
          end
      end in
    (if truthy familyId
     then modify (fun f => setFamilyMap (<[toLowerCase (familyName r) := familyId]> (familyMap f)) f)
     else ret tt) ;;
    ret (Some familyId)
  else ret familyId.

(** Lines 302-316. *)
Definition linkFamily (r : ExcelRow) (userId : string) (familyId : option string)
  : M Run unit :=
  if truthyOpt familyId && truthy userId then
    await (updateUser userId (familyLinkPatch (orEmpty familyId))) ;;
    if headOfFamily r && truthyOpt familyId then
      await (setFamilyHead (orEmpty familyId) userId) ;; ret tt
    else ret tt
  else ret tt.

(** [row.groupMemberships.split(',').map(name => name.trim().toLowerCase())] *)
Definition groupNamesOf (s : string) : list string :=
  map (fun name => toLowerCase (trim name)) (split_comma s).

(** Lines 323-336: the body of the loop over the group names. *)
Definition joinGroup (userId groupName : string) : M Run unit :=
  let* f := get in
  let groupId := groupMap f !! groupName in
  if truthyOpt groupId then
    await (upsertMembership (orEmpty groupId) userId "pending" "member") ;;
    ret tt
  else ret tt.

(** Lines 318-338. *)
Definition assignGroups (r : ExcelRow) (userId : string) : M Run unit :=
  if truthyOpt (groupMemberships r) && truthy userId then
    forOf (groupNamesOf (orEmpty (groupMemberships r))) (joinGroup userId)
  else ret tt.

(** The [try] block of lines 184-340.  The result carries the values of
    [userId] and [familyId] at its end. *)
Definition tryBlock (r : ExcelRow) (rowNumber : nat) : M Run (string * option string) :=
  match validateRow dateParses r rowNumber with
  | Some validationError => pushError validationError ;; continue
  | None =>
      let* userId := resolveMember r rowNumber in
      let* familyId := resolveFamily r rowNumber in
      linkFamily r userId familyId ;;
      assignGroups r userId ;;
      modify (fun f => setSuccessCount (S (successCount f)) f) ;;
      ret (userId, familyId)
  end.

(** Lines 341-347. *)
Definition catchBlock (r : ExcelRow) (rowNumber : nat) (e : Exception) : M Run unit :=
  pushError {| row := rowNumber;
               error := "Processing error: " +:+ messageOf e;
               data := DataRow r |}.

(** Lines 351-361. *)
Definition flushProgress (jobId : string) : M Run unit :=
  let* f := get in
  if Nat.eqb (processedCount f mod 10) 0 then
    await (updateJob jobId (progressPatch f)) ;; ret tt
  else ret tt.

(** One turn of the loop of line 178, for the row at index [i]. *)
Definition iteration (jobId : string) (r : ExcelRow) (i : nat) : M Run unit :=
  loopBody
    (let rowNumber := i + 2 in
     tryCatch (tryBlock r rowNumber ;; ret tt) (catchBlock r rowNumber) ;;
     modify (fun f => setProcessedCount (S (processedCount f)) f) ;;
     flushProgress jobId).

(** The loop of line 178 from index [i] on.  The test [if (!row) continue]
    of line 180 never fires, [rows[i]] being a row for every index below
    [rows.length]. *)
Fixpoint loop (jobId : string) (rows : list ExcelRow) (i : nat) : M Run unit :=
  match rows with
  | [] => ret tt
  | r :: rest => iteration jobId r i ;; loop jobId rest (S i)
  end.

(** Lines 156-164. *)
Definition markProcessing (jobId : string) (rows : list ExcelRow) : M Run unit :=
  let* t := await now in
  await (updateJob jobId (startPatch t (length rows))) ;;
  ret tt.

(** Lines 166-175. *)
Definition loadGroups : M Run unit :=
  let* gs := await selectGroups in
  match ans_data gs with
  | Some l =>
      modify (fun f =>
                setGroupMap
                  (fold_left (fun m g => <[toLowerCase (group_name g) := group_id g]> m)
                     l (groupMap f))
                  f)
  | None => ret tt
  end.

(** Lines 364-375 with [st] = [completed], lines 378-389 with [failed]. *)
Definition finish (jobId : string) (st : JobStatus) : M Run unit :=
  let* f := get in
  let* t := await now in
  await (updateJob jobId (finalPatch st f t)) ;;
  ret tt.

(** What the run does before its final update. *)
Definition importRows (jobId : string) (rows : list ExcelRow) : M Run unit :=
  markProcessing jobId rows ;;
  loadGroups ;;
  loop jobId rows 0.

(** The body of [processImport] after the declarations of lines 149-153. *)
Definition processImportBody (jobId : string) (rows : list ExcelRow) : M Run unit :=
  tryCatch
    (importRows jobId rows ;;
     finish jobId completed)
    (fun e =>
       finish jobId failed ;;
       throw e).

(** The declarations of lines 149-153. *)
Definition initialRun (w : World) : Run :=
  {| errors := []; familyMap := ∅; groupMap := ∅;
     processedCount := 0; successCount := 0; world := w |}.

(** [processImport] as its caller sees it: a result and a new world. *)
Definition processImport (jobId : string) (rows : list ExcelRow) (createdBy : string)
  : M World unit :=
  fun w =>
    (fst (processImportBody jobId rows (initialRun w)),
     world (snd (processImportBody jobId rows (initialRun w)))).

End ImportRun.

(** ** Submitting a file (routes/users.ts, lines 398-553) *)

(** [req.file] as the upload middleware leaves it, with what the parser
    will find at [path]. *)
Record UploadedFile : Type := {
  originalname : string;
  path : string;
  content : FileContent
}.

(** What the handler reads of the request: [req.file] and [req.user?.id]. *)
Record Request : Type := {
  req_file : option UploadedFile;
  req_user_id : option string
}.

(** The JSON body of a response: [{ success: false, error }] or
    [{ success: true, data: { jobId, totalRows }, message }]. *)
Inductive Body : Type :=
| Failure : string -> Body
| Started : string -> nat -> string -> Body.

(** [res.status(code).json(body)] *)
Record Response : Type := {
  res_status : nat;
  res_body : Body
}.

(** The run handed to [ExcelImportService.processImport], not awaited. *)
Record Launch : Type := {
  launch_job : string;
  launch_rows : list ExcelRow;
  launch_by : string
}.

(** A number inside a template literal. *)
Definition showNat (n : nat) : string := NilEmpty.string_of_uint (Nat.to_uint n).

(** The update of lines 451-459, 474-482 and 497-505. *)
Definition rejectPatch (msg : string) (d : ErrorData) (t : nat) : JobPatch :=
  {| set_status := Some failed; set_started_at := None; set_total_records := None;
     set_processed_records := None; set_successful_records := None;
     set_failed_records := None;
     set_error_log := Some [{| row := 0; error := msg; data := d |}];
     set_completed_at := Some t |}.

(** An error response; no run is started. *)
Definition respond (code : nat) (msg : string) : M World (Response * option Launch) :=
  ret ({| res_status := code; res_body := Failure msg |}, None).

(** The handler of [POST /excel], after authentication and upload.  Its
    result is the response and, when it started one, the run.  The run is
    started inside the handler (line 517) and not awaited: its calls come
    after those of the handler, the first of them before any later request
    is served.  The removal of the uploaded file is left out. *)
Definition postExcel (req : Request) : M World (Response * option Launch) :=
  tryCatch
    (match req_file req with
     | None => respond 400 "No file uploaded"
     | Some file =>
         if negb (truthyOpt (req_user_id req)) then
           respond 401 "User authentication required"
         else
           let userId := orEmpty (req_user_id req) in
           let* ins := insertJob (originalname file) (path file) pending userId in
           match ans_error ins, ans_data ins with
           | None, Some importJob =>
               match parseExcelFile (content file) with
               | inl parseError =>
                   let* t := now in
                   updateJob (job_id importJob)
                     (rejectPatch ("File parsing error: " +:+ messageOf parseError)
                        DataEmpty t) ;;
                   respond 400
                     "Failed to parse Excel file. Please check the file format and try again."
               | inr rows =>
                   if Nat.eqb (length rows) 0 then
                     let* t := now in
                     updateJob (job_id importJob)
                       (rejectPatch "No valid data rows found in Excel file" DataEmpty t) ;;
                     respond 400 "No valid data found in Excel file"
                   else if Nat.ltb 5000 (length rows) then
                     let* t := now in
                     updateJob (job_id importJob)
                       (rejectPatch "File contains too many records. Maximum allowed: 5,000"
                          (DataTotalRows (length rows)) t) ;;
                     respond 400
                       ("File contains " +:+ showNat (length rows)
                        +:+ " records. Maximum allowed: 5,000")
                   else
                     ret ({| res_status := 201;
                             res_body := Started (job_id importJob) (length rows)
                                           "Import job started successfully" |},
                          Some {| launch_job := job_id importJob;
                                  launch_rows := rows;
                                  launch_by := userId |})
               end
           | _, _ => respond 500 "Failed to create import job"
           end
     end)
    (fun _ => respond 500 "Internal server error").

Section Pipeline.

Variable dateParses : string -> bool.
Variable ilike : string -> string -> bool.

(** The handler followed by the run it launched; what the run throws is
    only logged (line 518). *)
Definition submitAndRun (req : Request) : M World Response :=
  let* out := postExcel req in
  match snd out with
  | Some l =>
      tryCatch
        (processImport dateParses ilike (launch_job l) (launch_rows l) (launch_by l))
        (fun _ => ret tt) ;;
      ret (fst out)
  | None => ret (fst out)
  end.

End Pipeline.

(** ** The template (excelImport.ts, lines 395-490) *)

(** An entry of [worksheet.columns]. *)
Record Column : Type := {
  header : string;
  key : string;
  width : nat
}.

(** The array of lines 400-416. *)
Definition templateColumns : list Column :=
  [ {| header := "First Name*"; key := "firstName"; width := 15 |};
    {| header := "Last Name*"; key := "lastName"; width := 15 |};
    {| header := "Email*"; key := "email"; width := 25 |};
    {| header := "Phone*"; key := "phone"; width := 15 |};
    {| header := "Date of Birth"; key := "dateOfBirth"; width := 15 |};
    {| header := "Gender"; key := "gender"; width := 10 |};
    {| header := "Blood Group"; key := "bloodGroup"; width := 12 |};
    {| header := "Address"; key := "address"; width := 30 |};
    {| header := "Emergency Contact Name"; key := "emergencyContactName"; width := 20 |};
    {| header := "Emergency Contact Phone"; key := "emergencyContactPhone"; width := 20 |};
    {| header := "Family Name*"; key := "familyName"; width := 20 |};
    {| header := "Head of Family"; key := "headOfFamily"; width := 15 |};
    {| header := "Group Memberships"; key := "groupMemberships"; width := 25 |};
    {| header := "Role"; key := "role"; width := 15 |};
    {| header := "Notes"; key := "notes"; width := 30 |} ].

(** The values of the row that [worksheet.columns = cols] writes: the
    headers, from index 1 on. *)
Definition headerRow (cols : list Column) : Cells :=
  None :: map (fun c => Some (header c)) cols.

(** The values of the row that [worksheet.addRow(o)] writes for an object
    [o]: under each column, the property of [o] named by the column's
    key. *)
Definition addRow (cols : list Column) (o : gmap string string) : Cells :=
  None :: map (fun c => o !! key c) cols.

(** The values of the row that [addRow] writes for an array. *)
Definition addRowArray (l : list string) : Cells := None :: map Some l.

(** The object literals of lines 428-444 and 446-462. *)
Definition sampleJohn : gmap string string :=
  list_to_map
    [ ("firstName", "John"); ("lastName", "Doe"); ("email", "john.doe@email.com");
      ("phone", "+1234567890"); ("dateOfBirth", "1985-06-15"); ("gender", "Male");
      ("bloodGroup", "A+"); ("address", "123 Main St, City, State");
      ("emergencyContactName", "Jane Doe"); ("emergencyContactPhone", "+1234567891");
      ("familyName", "Doe Family"); ("headOfFamily", "Yes");
      ("groupMemberships", "Choir, Youth Group"); ("role", "member");
      ("notes", "Active member since 2020") ].

Definition sampleJane : gmap string string :=
  list_to_map
    [ ("firstName", "Jane"); ("lastName", "Doe"); ("email", "jane.doe@email.com");
      ("phone", "+1234567891"); ("dateOfBirth", "1987-08-20"); ("gender", "Female");
      ("bloodGroup", "B+"); ("address", "123 Main St, City, State");
      ("emergencyContactName", "John Doe"); ("emergencyContactPhone", "+1234567890");
      ("familyName", "Doe Family"); ("headOfFamily", "No");
      ("groupMemberships", "Choir"); ("role", "member");
      ("notes", "Spouse of John") ].

(** The first worksheet of the template: the header row and the two
    sample rows.  Fonts and fills are left out. *)
Definition membersSheet : Worksheet :=
  [ (1, headerRow templateColumns);
    (2, addRow templateColumns sampleJohn);
    (3, addRow templateColumns sampleJane) ].

(** The second worksheet (lines 465-487): one cell per row; the rows
    added empty hold no value and are not listed.  The bullet that opens
    a line is kept as the bytes of its UTF-8 encoding. *)
Definition instructionsSheet : Worksheet :=
  [ (1, addRowArray ["Church Management System - Member Import Template"]);
    (3, addRowArray ["REQUIRED FIELDS (marked with *):"]);
    (4, addRowArray ["• First Name"]);
    (5, addRowArray ["• Last Name"]);
    (6, addRowArray ["• Email"]);
    (7, addRowArray ["• Phone"]);
    (8, addRowArray ["• Family Name"]);
    (10, addRowArray ["FIELD FORMATS:"]);
    (11, addRowArray ["• Date of Birth: YYYY-MM-DD or MM/DD/YYYY"]);
    (12, addRowArray ["• Gender: Male, Female, or Other"]);
    (13, addRowArray ["• Blood Group: A+, B+, AB+, O+, A-, B-, AB-, O-"]);
    (14, addRowArray ["• Head of Family: Yes/No, Y/N, True/False, 1/0"]);
    (15, addRowArray ["• Group Memberships: Comma-separated group names"]);
    (16, addRowArray ["• Role: member or group_leader"]);
    (18, addRowArray ["NOTES:"]);
    (19, addRowArray ["• Families will be created automatically"]);
    (20, addRowArray ["• Group memberships will create pending requests"]);
    (21, addRowArray ["• Duplicate emails/phones will update existing users"]);
    (22, addRowArray ["• Maximum file size: 10MB, Maximum records: 5,000"]) ].

(** The workbook that [generateTemplate] builds, as the worksheets it
    adds, in order. *)
Definition generateTemplate : list Worksheet := [membersSheet; instructionsSheet].

(** What [parseExcelFile] finds when the workbook is saved and read
    again: [getWorksheet(1)] is the worksheet added first. *)
Definition saved (wb : list Worksheet) : FileContent := Workbook (head wb).

(** ** The other routes on import jobs (routes/users.ts, lines 555-762) *)

(** [ApiResponse<T>] of types/database.ts, without the pagination. *)
Record ApiResponse (T : Type) : Type := {
  api_success : bool;
  api_data : option T;
  api_error : option string;
  api_message : option string
}.

Arguments api_success {T} _.
Arguments api_data {T} _.
Arguments api_error {T} _.
Arguments api_message {T} _.

(** [res.status(code).json(response)]; [res.json(response)] answers 200. *)
Record Reply (T : Type) : Type := {
  reply_status : nat;
  reply_body : ApiResponse T
}.

Arguments reply_status {T} _.
Arguments reply_body {T} _.

(** [{ success: false, error: msg }] with the status [code]. *)
Definition refuse {T : Type} (code : nat) (msg : string) : Reply T :=
  {| reply_status := code;
     reply_body := {| api_success := false; api_data := None;
                      api_error := Some msg; api_message := None |} |}.

(** [{ success: true, data, message }] with the status 200. *)
Definition accept {T : Type} (d : option T) (msg : option string) : Reply T :=
  {| reply_status := 200;
     reply_body := {| api_success := true; api_data := d;
                      api_error := None; api_message := msg |} |}.

(** A call of these routes on the service.  Like [request] it takes its
    outcome from the fault schedule and moves the clock; the record
    [calls] of the import is left as it is. *)
Definition answerTo (st : Store) (w : World) : World :=
  {| store := st; faults := tail (faults w); clock := S (clock w); calls := calls w |}.

Definition query {A : Type} (run : World -> Answer A * Store) : M World (Answer A) :=
  fun w =>
    match nextFault w with
    | Applied => (Normal (fst (run w)), answerTo (snd (run w)) w)
    | Refused msg => (Normal (failedWith msg), answerTo (store w) w)
    | Rejected e => (Thrown e, answerTo (store w) w)
    end.

Definition hasId (jobId : string) (j : ImportJob) : bool := String.eqb (job_id j) jobId.

(** [from('import_jobs').select(...).eq('id', jobId).single()] *)
Definition selectJob (jobId : string) : M World (Answer ImportJob) :=
  query (fun w => (single (List.filter (hasId jobId) (import_jobs (store w))), store w)).

(** [from('import_jobs').delete().eq('id', jobId)] *)
Definition deleteJobRows (jobId : string) : M World (Answer unit) :=
  query (fun w =>
           (answered tt,
            setJobs (List.filter (fun j => negb (hasId jobId j)) (import_jobs (store w)))
              (store w))).

(** [GET /status/:jobId] (lines 556-589). *)
Definition getStatus (jobId : string) : M World (Reply ImportJob) :=
  tryCatch
    (let* a := selectJob jobId in
     match ans_error a, ans_data a with
     | None, Some importJob => ret (accept (Some importJob) None)
     | _, _ => ret (refuse 404 "Import job not found")
     end)
    (fun _ => ret (refuse 500 "Internal server error")).

(** The [data] of the answer of [GET /:jobId/errors]. *)
Record ErrorReport : Type := {
  report_filename : string;
  report_failedRecords : nat;
  report_errors : list ImportError
}.

(** [GET /:jobId/errors] (lines 652-693). *)
Definition getErrors (jobId : string) : M World (Reply ErrorReport) :=
  tryCatch
    (let* a := selectJob jobId in
     match ans_error a, ans_data a with
     | None, Some importJob =>
         ret (accept (Some {| report_filename := job_filename importJob;
                              report_failedRecords := job_failed_records importJob;
                              report_errors := match job_error_log importJob with
                                               | Some l => l
                                               | None => []
                                               end |})
                None)
     | _, _ => ret (refuse 404 "Import job not found")
     end)
    (fun _ => ret (refuse 500 "Internal server error")).

(** Whether the status is ['processing']. *)
Definition isProcessing (st : JobStatus) : bool :=
  match st with
  | processing => true
  | _ => false
  end.

(** [DELETE /:jobId] (lines 696-762).  The removal of the uploaded file is
    left out. *)
Definition deleteJob (jobId : string) : M World (Reply unit) :=
  tryCatch
    (let* a := selectJob jobId in
     match ans_error a, ans_data a with
     | None, Some importJob =>
         if isProcessing (job_status importJob) then
           ret (refuse 400 "Cannot delete a job that is currently processing")
         else
           let* d := deleteJobRows jobId in
           match ans_error d with
           | Some _ => ret (refuse 500 "Failed to delete import job")
           | None => ret (accept None (Some "Import job deleted successfully"))
           end
     | _, _ => ret (refuse 404 "Import job not found")
     end)
    (fun _ => ret (refuse 500 "Internal server error")).

(** * Vocabulary of the properties *)

(** ** Strings, validator and parser *)

(** A string that does not begin with white space. *)
Definition headClean (s : string) : bool :=
  match s with
  | EmptyString => true
  | String c _ => negb (isWhiteSpace c)
  end.

(** A required field is present. *)
Definition present (s : string) : bool := negb (String.eqb s "").

(** An optional field, when it is present, satisfies [ok]. *)
Definition whenPresent (o : option string) (ok : string -> bool) : bool :=
  match o with
  | Some s => if String.eqb s "" then true else ok s
  | None => true
  end.

(** The checks of the validator as the specification lists them, in its
    order: for each, whether the row passes it and the message of its
    violation. *)
Definition checks (dateParses : string -> bool) (r : ExcelRow) : list (bool * string) :=
  [ (present (firstName r), "First name is required");
    (present (lastName r), "Last name is required");
    (present (email r), "Email is required");
    (present (phone r), "Phone is required");
    (present (familyName r), "Family name is required");
    (validateEmail (email r), "Invalid email format");
    (validatePhone (phone r), "Invalid phone number format");
    (whenPresent (bloodGroup r) (includes validGroups), "Invalid blood group");
    (whenPresent (dateOfBirth r) dateParses, "Invalid date of birth format");
    (whenPresent (gender r) (includes validGenders),
     "Invalid gender. Must be Male, Female, or Other") ].

(** The message of the first check that the row does not pass. *)
Fixpoint firstViolation (l : list (bool * string)) : option string :=
  match l with
  | [] => None
  | (ok, msg) :: rest => if ok then firstViolation rest else Some msg
  end.

(** The text of a cell, empty when the cell is missing. *)
Definition text (cells : Cells) (k : nat) : string := orEmpty (cell cells k).

(** An optional field: absent when the text is empty. *)
Definition optional (s : string) : option string :=
  match s with
  | EmptyString => None
  | _ => Some s
  end.

(** ** Specifications of asynchronous code *)

(** [hoare P m Q]: from a state in [P], [m] ends with a result and a state
    in [Q]. *)
Definition hoare {S A : Type} (P : S -> Prop) (m : M S A) (Q : Result A -> S -> Prop)
  : Prop :=
  forall s, P s -> Q (fst (m s)) (snd (m s)).

(** [preserves I m]: however [m] ends, it takes [I] to [I]. *)
Definition preserves {S A : Type} (I : S -> Prop) (m : M S A) : Prop :=
  forall s, I s -> I (snd (m s)).

(** ** Families and group memberships *)

(** What of a family the import never rewrites. *)
Definition familyCore (f : Family) : string * string * option string * option string :=
  (family_id f, family_name f, family_address f, family_phone f).

(** Every family of [st] is still in [st'], at the same place and with
    the same id, name, address and phone. *)
Definition familiesKept (st st' : Store) : Prop :=
  exists added,
    map familyCore (families st') = map familyCore (families st) ++ added.

(** Every entry of [m1] with a usable id is an entry of [m2]. *)
Definition memoLe (m1 m2 : gmap string string) : Prop :=
  forall k v, m1 !! k = Some v -> truthy v = true -> m2 !! k = Some v.

(** The pair on which [upsert] detects a conflict. *)
Definition membershipKey (m : GroupMembership) : string * string :=
  (gm_group_id m, gm_user_id m).

(** At most one membership for a group and a member. *)
Definition uniqueKeys (t : list GroupMembership) : Prop :=
  NoDup (map membershipKey t).

(** The ids of the groups that the names designate in the map of groups,
    in the order of the names; a name that is not in the map designates
    none. *)
Definition matchedGroups (gm : gmap string string) (names : list string) : list string :=
  flat_map (fun nm => match gm !! nm with
                      | Some g => if truthy g then [g] else []
                      | None => []
                      end) names.

(** The groups that the block of lines 318-338 considers for a row. *)
Definition groupsOfRow (gm : gmap string string) (r : ExcelRow) (userId : string)
  : list string :=
  if truthyOpt (groupMemberships r) && truthy userId
  then matchedGroups gm (groupNamesOf (orEmpty (groupMemberships r)))
  else [].

(** A call that creates no member. *)
Definition noUserInsert (e : Event) : Prop :=
  match call e with
  | UserInsert _ => False
  | _ => True
  end.

(** The call that adds the member to a group. *)
Definition upsertOf (userId g : string) : Call :=
  MembershipUpsert g userId "pending" "member".

(** ** Writes on the job record *)

(** Since the world [w0], the run has made only calls that satisfy [P]. *)
Definition emits (P : Event -> Prop) (w0 : World) (s : Run) : Prop :=
  exists new, calls (world s) = calls w0 ++ new /\ Forall P new.

(** An update object that mentions the three counters and nothing else. *)
Definition onlyCounters (p : JobPatch) : Prop :=
  set_status p = None /\ set_started_at p = None /\ set_total_records p = None /\
  set_error_log p = None /\ set_completed_at p = None /\
  set_processed_records p <> None /\ set_successful_records p <> None /\
  set_failed_records p <> None.

(** A call that, if it writes on the job record, writes the counters
    only. *)
Definition progressWrite (e : Event) : Prop :=
  match call e with
  | JobUpdate _ p => onlyCounters p
  | JobInsert _ _ _ _ => False
  | _ => True
  end.

(** A call that, if it writes the error log of the job, also sets a
    terminal status. *)
Definition logAtEnd (e : Event) : Prop :=
  match call e with
  | JobUpdate _ p =>
      set_error_log p <> None ->
      set_status p = Some completed \/ set_status p = Some failed
  | JobInsert _ _ _ _ => False
  | _ => True
  end.

(** What of a job record the progress writes leave alone: everything but
    the three counters. *)
Definition jobFrame (j : ImportJob) :=
  (job_id j, job_filename j, job_file_url j, job_status j, job_total_records j,
   job_error_log j, job_created_by j, job_started_at j, job_completed_at j).

(** ** The life of a job *)

(** The order of the statuses: pending, processing, then completed or
    failed. *)
Definition rank (st : JobStatus) : nat :=
  match st with
  | pending => 0
  | processing => 1
  | completed => 2
  | failed => 2
  end.

(** The statuses after which a job is over. *)
Definition terminal (st : JobStatus) : bool :=
  match st with
  | completed | failed => true
  | _ => false
  end.

(** The stored status of the job [jid] after the call [e], when it was
    [cur] before ([None]: no record yet). *)
Definition stepStatus (jid : string) (cur : option JobStatus) (e : Event)
  : option JobStatus :=
  match call e, outcome e with
  | JobInsert _ _ st _, Applied => Some st
  | JobUpdate id p, Applied =>
      if String.eqb id jid then
        match cur, set_status p with
        | Some _, Some st => Some st
        | _, _ => cur
        end
      else cur
  | _, _ => cur
  end.

(** Whether the call [e] is a legitimate step in the life of the job
    [jid] whose stored status is [cur]: the record is created once, in
    pending; it is written only while it exists and is not terminal; a
    write that sets a status does not set an earlier one; and no other job
    record is written. *)
Definition allowed (jid : string) (cur : option JobStatus) (e : Event) : bool :=
  match call e with
  | JobInsert _ _ st _ =>
      match cur, st with
      | None, pending => true
      | _, _ => false
      end
  | JobUpdate id p =>
      String.eqb id jid &&
      match cur with
      | Some c =>
          negb (terminal c) &&
          match set_status p with
          | Some st => Nat.leb (rank c) (rank st)
          | None => true
          end
      | None => false
      end
  | _ => true
  end.

(** Every call of the sequence is legitimate when it is made. *)
Fixpoint forwardOnly (jid : string) (cur : option JobStatus) (tr : list Event) : bool :=
  match tr with
  | [] => true
  | e :: rest => allowed jid cur e && forwardOnly jid (stepStatus jid cur e) rest
  end.

(** The stored status of the job after a sequence of calls. *)
Definition statusAfter (jid : string) (cur : option JobStatus) (tr : list Event)
  : option JobStatus :=
  fold_left (stepStatus jid) tr cur.

(** Since the world [w0] the calls made are legitimate for the job [jid],
    whose stored status is now [cur]. *)
Definition track (jid : string) (w0 : World) (cur : option JobStatus) (w : World) : Prop :=
  exists new,
    calls w = calls w0 ++ new /\
    forwardOnly jid None new = true /\
    statusAfter jid None new = cur.

(** The job exists and its stored status is not terminal. *)
Definition alive (jid : string) (w0 w : World) : Prop :=
  exists c, track jid w0 (Some c) w /\ terminal c = false.

(** The calls made so far are legitimate. *)
Definition sound (jid : string) (w0 w : World) : Prop :=
  exists cur, track jid w0 cur w.

(** A call that is not a write on the job record. *)
Definition offJob (c : Call) : bool :=
  match c with
  | JobInsert _ _ _ _ | JobUpdate _ _ => false
  | _ => true
  end.

(** What the handler leaves behind: a response; and either no run and
    legitimate calls, or a run for the job it created, which is alive. *)
Definition handled (jid : string) (w0 : World)
  (res : Result (Response * option Launch)) (w : World) : Prop :=
  exists resp launch,
    res = Normal (resp, launch) /\
    match launch with
    | None => sound jid w0 w
    | Some l => launch_job l = jid /\ alive jid w0 w
    end.

(** The handler's [try] block ends handled, or throws after legitimate
    calls. *)
Definition attempted (jid : string) (w0 : World)
  (res : Result (Response * option Launch)) (w : World) : Prop :=
  handled jid w0 res w \/ ((exists e, res = Thrown e) /\ sound jid w0 w).

(** The statuses stored for the job [jid]. *)
Definition storedStatus (jid : string) (st : Store) : list JobStatus :=
  map job_status (List.filter (fun j => String.eqb (job_id j) jid) (import_jobs st)).

(** Since the world [w0], the status that the calls made give to the job
    [jid] is the status stored for it. *)
Definition tracked (jid : string) (w0 w : World) : Prop :=
  exists new,
    calls w = calls w0 ++ new /\
    Forall (fun x => statusAfter jid None new = Some x) (storedStatus jid (store w)).

(** ** Sample inputs *)

(** An update object that sets the status and nothing else. *)
Definition statusPatch (st : JobStatus) : JobPatch :=
  {| set_status := Some st; set_started_at := None; set_total_records := None;
     set_processed_records := None; set_successful_records := None;
     set_failed_records := None; set_error_log := None; set_completed_at := None |}.

(** A call that the service applied. *)
Definition appliedCall (c : Call) : Event := {| call := c; outcome := Applied |}.

(** A date parser for the examples: it accepts the shape [dddd-dd-dd]. *)
Definition isoDate (s : string) : bool :=
  test (Cat (Class isDigit) (Cat (Class isDigit) (Cat (Class isDigit) (Cat (Class isDigit)
       (Cat (Class (Ascii.eqb "-"%char)) (Cat (Class isDigit) (Cat (Class isDigit)
       (Cat (Class (Ascii.eqb "-"%char)) (Cat (Class isDigit) (Class isDigit)))))))))) s.

(** An [ILIKE] for the examples: patterns without wild cards. *)
Definition ilikePlain (pat v : string) : bool :=
  String.eqb (toLowerCase pat) (toLowerCase v).

(** A service with empty tables, and a world that starts on given tables
    with a given fault schedule. *)
Definition emptyStore : Store :=
  {| import_jobs := []; user_profiles := []; families := []; groups := [];
     group_memberships := [] |}.

Definition freshWorld (st : Store) (fs : list Fault) : World :=
  {| store := st; faults := fs; clock := 0; calls := [] |}.

(** The header row of the template. *)
Definition headerCells : Cells :=
  [None; Some "First Name*"; Some "Last Name*"; Some "Email*"; Some "Phone*";
   Some "Date of Birth"; Some "Gender"; Some "Blood Group"; Some "Address";
   Some "Emergency Contact Name"; Some "Emergency Contact Phone";
   Some "Family Name*"; Some "Head of Family"; Some "Group Memberships";
   Some "Role"; Some "Notes"].

(** A data row with the five required cells and nothing else. *)
Definition dataCells (first last mail ph fam : string) : Cells :=
  [None; Some first; Some last; Some mail; Some ph; None; None; None; None; None;
   None; Some fam].

(** The request of an administrator who uploads the worksheet. *)
Definition upload (ws : Worksheet) : Request :=
  {| req_file := Some {| originalname := "members.xlsx";
                         path := "uploads/members.xlsx";
                         content := Workbook (Some ws) |};
     req_user_id := Some "admin-1" |}.

(** One data row, whose email is not an email. *)
Definition sheetBadEmail : Worksheet :=
  [(1, headerCells);
   (2, dataCells "John" "Doe" "not-an-email" "+1234567890" "Doe Family")].

(** A data row without a phone, then a row whose email is not an email. *)
Definition sheetGapThenBadEmail : Worksheet :=
  [(1, headerCells);
   (2, dataCells "Jane" "Doe" "jane.doe@email.com" "" "Doe Family");
   (3, dataCells "John" "Doe" "not-an-email" "+1234567890" "Doe Family")].

(** The row of sheet row [n], valid, with its own email and phone. *)
Definition goodCells (n : nat) : Cells :=
  dataCells "Ann" "Lee" ("ann" +:+ showNat n +:+ "@email.com")
    ("+12345678" +:+ showNat (10 + n)) "Lee Family".

(** A row whose email is not an email, then ten valid rows. *)
Definition sheetBadThenTen : Worksheet :=
  (1, headerCells)
  :: (2, dataCells "John" "Doe" "not-an-email" "+1234567890" "Doe Family")
  :: map (fun n => (n, goodCells n)) (seq 3 10).

(** A header and no data row. *)
Definition sheetEmpty : Worksheet := [(1, headerCells)].

(** [n] valid data rows. *)
Definition sheetOf (n : nat) : Worksheet :=
  (1, headerCells) :: map (fun k => (k, goodCells k)) (seq 2 n).

(** The job record that the handler creates in the world [w]. *)
Definition newJob (w : World) (file : UploadedFile) (userId : string) : ImportJob :=
  {| job_id := genId (clock w);
     job_filename := originalname file;
     job_file_url := path file;
     job_status := pending;
     job_total_records := 0;
     job_processed_records := 0;
     job_successful_records := 0;
     job_failed_records := 0;
     job_error_log := None;
     job_created_by := userId;
     job_started_at := None;
     job_completed_at := None |}.

(** The world after the submission of the worksheet, and of the run if
    one was launched, on empty tables and without faults. *)
Definition submitted (ws : Worksheet) : World :=
  snd (submitAndRun isoDate ilikePlain (upload ws) (freshWorld emptyStore [])).

(** The status and the three counters of a job record. *)
Definition counters (j : ImportJob) : JobStatus * nat * nat * nat :=
  (job_status j, job_processed_records j, job_successful_records j,
   job_failed_records j).

(** An update of the job that sets no status. *)
Definition isProgress (e : Event) : bool :=
  match call e with
  | JobUpdate _ p => match set_status p with
                     | None => true
                     | Some _ => false
                     end
  | _ => false
  end.

(** Two members of one family, whose name the rows write with different
    case. *)
Definition johnRow : ExcelRow :=
  mapRow (dataCells "John" "Doe" "john.doe@email.com" "+1234567890" "Doe Family").

Definition janeRow : ExcelRow :=
  mapRow (dataCells "Jane" "Doe" "jane.doe@email.com" "+1234567891" "doe family").

(** The run at its start, on empty tables. *)
Definition startOfRun : Run := initialRun (freshWorld emptyStore []).

(** A member already stored under the email of [johnRow]. *)
Definition johnStored : UserProfile :=
  {| user_id := "u-1"; user_email := Some "john.doe@email.com";
     user_first_name := "Jon"; user_last_name := "Doe"; user_phone := Some "+1000000000";
     user_date_of_birth := None; user_gender := None; user_blood_group := None;
     user_address := None; user_emergency_contact_name := None;
     user_emergency_contact_phone := None; user_role := "member";
     user_family_id := None |}.

Definition storeWithJohn : Store :=
  {| import_jobs := []; user_profiles := [johnStored]; families := []; groups := [];
     group_memberships := [] |}.

(** A data row with the required cells, the head-of-family cell and the
    group cell. *)
Definition memberCells (first last mail ph fam head grps : string) : Cells :=
  [None; Some first; Some last; Some mail; Some ph; None; None; None; None; None;
   None; Some fam; Some head; Some grps].

(** Tables in which one group, Choir, exists. *)
Definition storeWithChoir : Store :=
  {| import_jobs := []; user_profiles := []; families := [];
     groups := [{| group_id := "g-choir"; group_name := "Choir" |}];
     group_memberships := [] |}.

(** The two sample rows of the template. *)
Definition sheetDoes : Worksheet :=
  [(1, headerCells);
   (2, memberCells "John" "Doe" "john.doe@email.com" "+1234567890" "Doe Family"
         "Yes" "Choir, Youth Group");
   (3, memberCells "Jane" "Doe" "jane.doe@email.com" "+1234567891" "doe family"
         "No" "Choir")].

(** The world after the submission of the worksheet on given tables. *)
Definition submittedOn (st : Store) (ws : Worksheet) : World :=
  snd (submitAndRun isoDate ilikePlain (upload ws) (freshWorld st [])).

(** The row with another blood group. *)
Definition withBloodGroup (b : string) (r : ExcelRow) : ExcelRow :=
  {| firstName := firstName r; lastName := lastName r; email := email r;
     phone := phone r; dateOfBirth := dateOfBirth r; gender := gender r;
     bloodGroup := Some b; address := address r;
     emergencyContactName := emergencyContactName r;
     emergencyContactPhone := emergencyContactPhone r; familyName := familyName r;
     headOfFamily := headOfFamily r; groupMemberships := groupMemberships r;
     role := role r; notes := notes r |}.

(** ** Regular expressions and their strings *)

(** The strings that a regular expression denotes. *)
Inductive matches : regex -> string -> Prop :=
| MEps : matches Eps ""
| MClass (p : ascii -> bool) (c : ascii) : p c = true -> matches (Class p) (String c "")
| MCat (a b : regex) (s1 s2 : string) :
    matches a s1 -> matches b s2 -> matches (Cat a b) (s1 +:+ s2)
| MAltL (a b : regex) (s : string) : matches a s -> matches (Alt a b) s
| MAltR (a b : regex) (s : string) : matches b s -> matches (Alt a b) s
| MStarNil (a : regex) : matches (Star a) ""
| MStarApp (a : regex) (s1 s2 : string) :
    matches a s1 -> matches (Star a) s2 -> matches (Star a) (s1 +:+ s2).

(** Every character of the string is in the class. *)
Fixpoint every (p : ascii -> bool) (s : string) : bool :=
  match s with
  | EmptyString => true
  | String c s' => p c && every p s'
  end.

(** ** Rows read back from the template *)

(** The property [k] of the object [o], trimmed. *)
Definition field (o : gmap string string) (k : string) : option string :=
  match o !! k with
  | Some s => Some (trim s)
  | None => None
  end.

(** The row that the parser makes of the object [o] written under the
    template's columns, told by the keys of [o]. *)
Definition rowOfObject (o : gmap string string) : ExcelRow :=
  {| firstName := orEmpty (field o "firstName");
     lastName := orEmpty (field o "lastName");
     email := toLowerCase (orEmpty (field o "email"));
     phone := orEmpty (field o "phone");
     dateOfBirth := orNull (field o "dateOfBirth");
     gender := orNull (field o "gender");
     bloodGroup := orNull (field o "bloodGroup");
     address := orNull (field o "address");
     emergencyContactName := orNull (field o "emergencyContactName");
     emergencyContactPhone := orNull (field o "emergencyContactPhone");
     familyName := orEmpty (field o "familyName");
     headOfFamily :=
       includes headOfFamilyWords (toLowerCase (orEmpty (field o "headOfFamily")));
     groupMemberships := orNull (field o "groupMemberships");
     role := Some (if String.eqb (toLowerCase (orEmpty (field o "role"))) "group_leader"
                   then group_leader else member);
     notes := orNull (field o "notes") |}.

(** The messages of the format checks of the validator. *)
Definition formatMessages : list string :=
  [ "Invalid email format"; "Invalid phone number format"; "Invalid blood group";
    "Invalid date of birth format"; "Invalid gender. Must be Male, Female, or Other" ].

(** ** The outcome of a row and the accounts of a run *)

(** The error entries and the two counters of the run. *)
Definition tally (s : Run) : list ImportError * nat * nat :=
  (errors s, successCount s, processedCount s).

(** The calls [new] end with a call that was rejected with [x]. *)
Definition endsRejected (x : Exception) (new : list Event) : Prop :=
  exists pre c, new = pre ++ [{| call := c; outcome := Rejected x |}].

(** How a part of the [try] block of the row numbered [k] ends: normally,
    with [d] more successes and nothing else counted; by [continue], after
    one error entry for the row; or by an exception, which the last call
    threw when it was rejected, and nothing counted. *)
Definition rowSpec {A : Type} (k d : nat) (m : M Run A) : Prop :=
  forall s,
    exists new,
      calls (world (snd (m s))) = calls (world s) ++ new /\
      match fst (m s) with
      | Normal _ =>
          errors (snd (m s)) = errors s /\
          successCount (snd (m s)) = successCount s + d /\
          processedCount (snd (m s)) = processedCount s
      | ContinueLoop =>
          (exists e, row e = k /\ errors (snd (m s)) = errors s ++ [e]) /\
          successCount (snd (m s)) = successCount s /\
          processedCount (snd (m s)) = processedCount s
      | Thrown x =>
          tally (snd (m s)) = tally s /\ endsRejected x new
      end.

(** An answer of the service: data, or an error. *)
Definition wellFormed {A : Type} (a : Answer A) : Prop :=
  (exists x, a = answered x) \/ (exists msg, a = failedWith msg).

(** The entry that the [catch] of lines 341-347 writes. *)
Definition processingError (r : ExcelRow) (k : nat) (x : Exception) : ImportError :=
  {| row := k; error := "Processing error: " +:+ messageOf x; data := DataRow r |}.

(** Among the calls [new], one was rejected with [x]. *)
Definition hasRejected (x : Exception) (new : list Event) : Prop :=
  exists pre c post, new = pre ++ {| call := c; outcome := Rejected x |} :: post.

(** How a turn of the loop on the row of index [i], which makes the calls
    [new], may change the error entries and the counters: the row
    succeeded; it was reported and left by [continue]; or an exception was
    caught, which a rejected call threw. *)
Inductive Turn (r : ExcelRow) (i : nat) (new : list Event) (s s' : Run) : Prop :=
| Succeeded :
    errors s' = errors s -> successCount s' = S (successCount s) ->
    processedCount s' = S (processedCount s) -> Turn r i new s s'
| Reported (e : ImportError) :
    row e = i + 2 -> errors s' = errors s ++ [e] ->
    successCount s' = successCount s -> processedCount s' = processedCount s ->
    Turn r i new s s'
| Caught (x : Exception) :
    errors s' = errors s ++ [processingError r (i + 2) x] ->
    successCount s' = successCount s ->
    processedCount s' = S (processedCount s) ->
    hasRejected x new -> Turn r i new s s'.

(** The calls [new] end with the progress write of the state [s'], which
    was rejected with [x]. *)
Definition flushRejected (jobId : string) (x : Exception) (new : list Event) (s' : Run)
  : Prop :=
  processedCount s' mod 10 = 0 /\
  exists pre,
    new = pre ++ [{| call := JobUpdate jobId (progressPatch s'); outcome := Rejected x |}].

(** How a part of the run that makes the calls [new] may end: normally,
    or by the exception of a rejected progress write. *)
Definition endsWell (jobId : string) (new : list Event) (res : Result unit) (s' : Run)
  : Prop :=
  match res with
  | Normal _ => True
  | ContinueLoop => False
  | Thrown x => flushRejected jobId x new s'
  end.

(** The three counters that an update object sets, when it sets them. *)
Definition countersOf (p : JobPatch) : option (nat * nat * nat) :=
  match set_processed_records p, set_successful_records p, set_failed_records p with
  | Some pr, Some su, Some fa => Some (pr, su, fa)
  | _, _, _ => None
  end.

(** A write of the counters of a run on [total] rows that accounts for
    the rows: every success is a processed row, no more rows are processed
    than there are, successes and failures together are not more than the
    rows and, in the update that completes the job, exactly the rows. *)
Definition accounted (total : nat) (e : Event) : Prop :=
  match call e with
  | JobUpdate _ p =>
      match countersOf p with
      | Some (pr, su, fa) =>
          su <= pr /\ pr <= total /\ su + fa <= total /\
          (set_status p = Some completed -> su + fa = total)
      | None => True
      end
  | _ => True
  end.

(** The state of a run that has gone through [n] rows. *)
Definition afterRows (n : nat) (s : Run) : Prop :=
  successCount s <= processedCount s /\ processedCount s <= n /\
  length (errors s) + successCount s = n.

(** The error entries follow the rows: their row numbers increase
    strictly and lie from 2 up to, and not including, [hi]. *)
Definition inRowOrder (hi : nat) (l : list ImportError) : Prop :=
  StronglySorted lt (map row l) /\ Forall (fun e => 2 <= row e < hi) l.

(** An update that writes an error log writes one that follows the
    [total] rows of the run. *)
Definition logInRowOrder (total : nat) (e : Event) : Prop :=
  match call e with
  | JobUpdate _ p =>
      match set_error_log p with
      | Some l => inRowOrder (total + 2) l
      | None => True
      end
  | _ => True
  end.

(** ** How a run ends *)

(** A fault that does not make the awaited promise reject. *)
Definition answers (f : Fault) : Prop :=
  match f with
  | Rejected _ => False
  | _ => True
  end.

(** How a part of the run outside the rows ends, having made the calls
    [new]: normally, or by the exception with which its last call was
    rejected. *)
Definition plain {A : Type} (m : M Run A) : Prop :=
  forall s,
    exists new,
      calls (world (snd (m s))) = calls (world s) ++ new /\
      tally (snd (m s)) = tally s /\
      match fst (m s) with
      | Normal _ => Forall (fun e => answers (outcome e)) new
      | ContinueLoop => False
      | Thrown x => endsRejected x new
      end.

(** The service rejects none of the calls to come, and has rejected none
    since the world [w0]. *)
Definition calm (w0 : World) (s : Run) : Prop :=
  Forall answers (faults (world s)) /\ emits (fun e => answers (outcome e)) w0 s.

(** The terminal update of a run: it sets the status [st], the three
    counters, the error log and the time of completion. *)
Definition terminalUpdate (st : JobStatus) (p : JobPatch) : Prop :=
  set_status p = Some st /\ countersOf p <> None /\
  set_error_log p <> None /\ set_completed_at p <> None.

(** ** Groups and members *)

(** The groups whose name, lower-cased, is [k]. *)
Definition groupsNamed (k : string) (l : list Group) : list Group :=
  List.filter (fun g => String.eqb (toLowerCase (group_name g)) k) l.

(** The profiles that the look-up of lines 193-197 selects for the row. *)
Definition matchesOf (r : ExcelRow) (l : list UserProfile) : list UserProfile :=
  List.filter (fun u => optEqb (user_email u) (email r) || optEqb (user_phone u) (phone r)) l.

(** The service applies the next [n] calls. *)
Definition appliesNext (n : nat) (w : World) : Prop :=
  Forall (fun f => f = Applied) (take n (faults w)).

(** ** A run on an obliging service *)

(** The error entries that validation alone gives for the rows, the first
    of which has the index [i]. *)
Fixpoint validationErrors (dateParses : string -> bool) (rows : list ExcelRow) (i : nat)
  : list ImportError :=
  match rows with
  | [] => []
  | r :: rest =>
      match validateRow dateParses r (i + 2) with
      | Some e => e :: validationErrors dateParses rest (S i)
      | None => validationErrors dateParses rest (S i)
      end
  end.

(** The service applies every call to come. *)
Definition obliging (w : World) : Prop := Forall (fun f => f = Applied) (faults w).

(** The ids of the members are distinct, and none is an id that the
    service may still generate, from the reading [c] of the clock on. *)
Definition soundUsers (c : nat) (l : list UserProfile) : Prop :=
  NoDup (map user_id l) /\ Forall (fun u => forall n, c <= n -> user_id u <> genId n) l.

(** A state of the run on an obliging service with sound member ids. *)
Definition goodState (s : Run) : Prop :=
  obliging (world s) /\ soundUsers (clock (world s)) (user_profiles (store (world s))).

(** ** More sample inputs *)

(** A service that rejects the first call. *)
Definition rejectingWorld : World :=
  freshWorld emptyStore [Rejected (JsError "timeout")].

(** A pending job, alone in its table. *)
Definition pendingJob : ImportJob :=
  {| job_id := "job-1"; job_filename := "members.xlsx";
     job_file_url := "uploads/members.xlsx"; job_status := pending;
     job_total_records := 0; job_processed_records := 0; job_successful_records := 0;
     job_failed_records := 0; job_error_log := None; job_created_by := "admin-1";
     job_started_at := None; job_completed_at := None |}.

Definition storeWithJob : Store :=
  {| import_jobs := [pendingJob]; user_profiles := []; families := []; groups := [];
     group_memberships := [] |}.

(** ** Families of a run *)

(** The family record that the insert of lines 275-283 stores for a row,
    under the id [id]. *)
Definition familyOfRow (r : ExcelRow) (id : string) : Family :=
  {| family_id := id;
     family_name := familyName r;
     family_head_of_family_id := None;
     family_address := orNull (address r);
     family_phone := Some (phone r) |}.

(** A call that neither looks a family up nor creates one. *)
Definition noFamilyLookup (e : Event) : Prop :=
  match call e with
  | FamilySelect _ => False
  | FamilyInsert _ _ _ => False
  | _ => True
  end.

(** The turn of the loop for the row at index [i] from line 302 on, the
    member and the family of the row being [userId] and [familyId]. *)
Definition afterFamily (jobId : string) (r : ExcelRow) (i : nat) (userId : string)
  (familyId : option string) : M Run unit :=
  loopBody
    (tryCatch
       ((linkFamily r userId familyId ;;
         assignGroups r userId ;;
         modify (fun f => setSuccessCount (S (successCount f)) f) ;;
         ret (userId, familyId)) ;;
        ret tt)
       (catchBlock r (i + 2)) ;;
     modify (fun f => setProcessedCount (S (processedCount f)) f) ;;
     flushProgress jobId).

(** ** The text of the group cell *)

(** The pieces of a text, written one after the other with a comma
    between two of them. *)
Fixpoint joinComma (pieces : list string) : string :=
  match pieces with
  | [] => ""
  | p :: rest =>
      match rest with
      | [] => p
      | _ :: _ => p +:+ "," +:+ joinComma rest
      end
  end.

(** A piece holds no comma. *)
Definition commaFree (p : string) : Prop :=
  every (fun c => negb (Ascii.eqb c ","%char)) p = true.

(** The membership that the import asks for. *)
Definition pendingMember (g u : string) : GroupMembership :=
  {| gm_group_id := g; gm_user_id := u; gm_status := "pending"; gm_role := "member" |}.

(** The group ids that the import looks up for a member: none when the
    cell or the member id is empty, else those of the pieces of the cell,
    trimmed and in lower case, that the map of groups knows. *)
Definition groupsAsked (gm : gmap string string) (pieces : list string) (userId : string)
  : list string :=
  if truthy (joinComma pieces) && truthy userId
  then matchedGroups gm (map (fun p => toLowerCase (trim p)) pieces)
  else [].

(** The world after the service has applied an upsert of the member for
    each of the groups, in turn. *)
Definition applyUpserts (userId : string) (gs : list string) (w : World) : World :=
  fold_left
    (fun w g =>
       advance (upsertOf userId g) Applied
         (setMemberships
            (upsertRow g userId "pending" "member" (group_memberships (store w)))
            (store w)) w)
    gs w.

(** The memberships of the member [u] in the groups [gs] are there, and
    are the ones the import asks for. *)
Definition settled (u : string) (gs : list string) (t : list GroupMembership) : Prop :=
  forall g, In g gs ->
    In (pendingMember g u) t /\
    forall m, In m t -> sameKey g u m = true -> m = pendingMember g u.

(** ** A job while its run goes on *)

(** The job record once the first update of the run (lines 156-164) has
    been applied to it at the time [t]. *)
Definition startedJob (w : World) (file : UploadedFile) (userId : string) (t total : nat)
  : ImportJob :=
  applyJobPatch (startPatch t total) (newJob w file userId).

(** ** Further sample inputs *)

(** A data row with the required cells and an address. *)
Definition homeCells (first last mail ph addr fam : string) : Cells :=
  [None; Some first; Some last; Some mail; Some ph; None; None; None; Some addr; None;
   None; Some fam].

(** Two members of one family at two addresses; the email of the first is
    not an email. *)
Definition johnBadEmail : ExcelRow :=
  mapRow (homeCells "John" "Doe" "not-an-email" "+1234567890" "1 First Street" "Doe Family").

Definition janeAtHome : ExcelRow :=
  mapRow (homeCells "Jane" "Doe" "jane.doe@email.com" "+1234567891" "2 Second Street"
            "doe family").

Definition sheetBadThenJane : Worksheet :=
  [(1, headerCells);
   (2, homeCells "John" "Doe" "not-an-email" "+1234567890" "1 First Street" "Doe Family");
   (3, homeCells "Jane" "Doe" "jane.doe@email.com" "+1234567891" "2 Second Street"
         "doe family")].

(** A member of the choir and of a group that does not exist. *)
Definition johnInChoir : ExcelRow :=
  mapRow (memberCells "John" "Doe" "john.doe@email.com" "+1234567890" "Doe Family"
            "Yes" "Choir, Youth Group").

(** The run once it has loaded the groups of [storeWithChoir]. *)
Definition choirRun : Run := snd (loadGroups (initialRun (freshWorld storeWithChoir []))).

(** * Properties *)

(** ** Strings *)

Lemma isWhiteSpace_lowerChar (c : ascii) : isWhiteSpace (lowerChar c) = isWhiteSpace c.
Proof. destruct c as [[] [] [] [] [] [] [] []]; reflexivity. Qed.

Lemma lowerChar_idem (c : ascii) : lowerChar (lowerChar c) = lowerChar c.
Proof. destruct c as [[] [] [] [] [] [] [] []]; reflexivity. Qed.

Lemma toLowerCase_idem (s : string) : toLowerCase (toLowerCase s) = toLowerCase s.
Proof. induction s as [|c s IH]; simpl; [reflexivity|]. now rewrite lowerChar_idem, IH. Qed.

Lemma truthy_toLowerCase (s : string) : truthy (toLowerCase s) = truthy s.
Proof. destruct s; reflexivity. Qed.

Lemma trimStart_toLowerCase (s : string) :
  trimStart (toLowerCase s) = toLowerCase (trimStart s).
Proof.
  induction s as [|c s IH]; simpl; [reflexivity|].
  rewrite isWhiteSpace_lowerChar. destruct (isWhiteSpace c); [exact IH | reflexivity].
Qed.

Lemma trimEnd_toLowerCase (s : string) :
  trimEnd (toLowerCase s) = toLowerCase (trimEnd s).
Proof.
  induction s as [|c s IH]; simpl; [reflexivity|].
  rewrite IH, isWhiteSpace_lowerChar.
  destruct (trimEnd s); simpl; [destruct (isWhiteSpace c)|]; reflexivity.
Qed.

(** Trimming and lower-casing commute, so the two orders in which
    [parseExcelFile] applies them give the same string. *)
Lemma trim_toLowerCase (s : string) : trim (toLowerCase s) = toLowerCase (trim s).
Proof. unfold trim. now rewrite trimStart_toLowerCase, trimEnd_toLowerCase. Qed.

Lemma trimEnd_cons (c : ascii) (s : string) :
  trimEnd (String c s) =
  match trimEnd s with
  | EmptyString => if isWhiteSpace c then EmptyString else String c EmptyString
  | t => String c t
  end.
Proof. reflexivity. Qed.

Lemma trimEnd_idem (s : string) : trimEnd (trimEnd s) = trimEnd s.
Proof.
  induction s as [|c s IH]; [reflexivity|].
  rewrite trimEnd_cons.
  destruct (trimEnd s) as [|d t] eqn:E.
  - destruct (isWhiteSpace c) eqn:W; [reflexivity|].
    rewrite trimEnd_cons. simpl. now rewrite W.
  - rewrite trimEnd_cons, IH. reflexivity.
Qed.

Lemma headClean_trimStart (s : string) : headClean (trimStart s) = true.
Proof.
  induction s as [|c s IH]; simpl; [reflexivity|].
  destruct (isWhiteSpace c) eqn:W; [exact IH | simpl; now rewrite W].
Qed.

Lemma trimStart_clean (s : string) : headClean s = true -> trimStart s = s.
Proof. destruct s as [|c s]; simpl; [reflexivity|]. now destruct (isWhiteSpace c). Qed.

Lemma headClean_trimEnd (s : string) : headClean s = true -> headClean (trimEnd s) = true.
Proof.
  destruct s as [|c s]; simpl; [reflexivity|].
  destruct (isWhiteSpace c) eqn:W; simpl; [discriminate|]. intros _.
  destruct (trimEnd s); simpl; now rewrite W.
Qed.

Lemma trim_idem (s : string) : trim (trim s) = trim s.
Proof.
  unfold trim.
  rewrite (trimStart_clean (trimEnd (trimStart s))).
  - apply trimEnd_idem.
  - apply headClean_trimEnd, headClean_trimStart.
Qed.

Lemma includes_In (l : list string) (s : string) : includes l s = true <-> In s l.
Proof.
  unfold includes. rewrite existsb_exists. split.
  - intros [x [Hx E]]. apply String.eqb_eq in E. now subst.
  - intros H. exists s. split; [exact H | apply String.eqb_refl].
Qed.

Lemma truthy_false (s : string) : truthy s = false <-> s = "".
Proof. destruct s; simpl; split; congruence. Qed.

Lemma truthy_true (s : string) : truthy s = true <-> s <> "".
Proof. destruct s; simpl; split; congruence. Qed.

Example email_ok : validateEmail "john.doe@email.com" = true.
Proof. reflexivity. Qed.
Example email_bad : validateEmail "not-an-email" = false.
Proof. reflexivity. Qed.
Example phone_ok : validatePhone "+1234567890" = true.
Proof. reflexivity. Qed.
Example phone_short : validatePhone "+123456789" = false.
Proof. reflexivity. Qed.
Example split_ex : split_comma "Choir, Youth Group" = ["Choir"; " Youth Group"].
Proof. reflexivity. Qed.
Example trim_ex : trim "  a b  " = "a b".
Proof. reflexivity. Qed.

(** ** The validator *)

Section ValidatorFacts.

Variable dateParses : string -> bool.

Lemma present_truthy (s : string) : present s = truthy s.
Proof. destruct s; reflexivity. Qed.

Lemma firstViolation_None (l : list (bool * string)) :
  firstViolation l = None <-> Forall (fun c => fst c = true) l.
Proof.
  induction l as [|[ok msg] l IH]; simpl.
  - split; [constructor | reflexivity].
  - destruct ok.
    + rewrite IH. split; [now constructor | now inversion 1].
    + split; [discriminate | inversion 1; discriminate].
Qed.

Lemma firstViolation_Some (l : list (bool * string)) (msg : string) :
  firstViolation l = Some msg <->
  exists before after,
    l = before ++ (false, msg) :: after /\ Forall (fun c => fst c = true) before.
Proof.
  induction l as [|[ok m] l IH]; simpl.
  - split; [discriminate|]. intros (b & a & E & _). now destruct b.
  - destruct ok.
    + rewrite IH. split.
      * intros (b & a & -> & Hb). exists ((true, m) :: b), a. split; [reflexivity|].
        now constructor.
      * intros (b & a & E & Hb). destruct b as [|x b]; simpl in E; [discriminate|].
        injection E as <- ->. inversion Hb; subst. now exists b, a.
    + split.
      * intros [= ->]. now exists [], l.
      * intros (b & a & E & Hb). destruct b as [|x b]; simpl in E.
        -- now injection E as <- _.
        -- injection E as <- _. inversion Hb; subst. discriminate.
Qed.

Lemma whenPresent_guard (o : option string) (ok : string -> bool) :
  (if negb (truthyOpt o) then true else ok (orEmpty o)) = whenPresent o ok.
Proof. destruct o as [[|c s]|]; reflexivity. Qed.

Lemma whenPresent_and (o : option string) (ok : string -> bool) :
  truthyOpt o && negb (ok (orEmpty o)) = negb (whenPresent o ok).
Proof. destruct o as [[|c s]|]; reflexivity. Qed.

Lemma validateRow_checks (r : ExcelRow) (rowNumber : nat) :
  validateRow dateParses r rowNumber =
  match firstViolation (checks dateParses r) with
  | Some msg => Some {| row := rowNumber; error := msg; data := DataRow r |}
  | None => None
  end.
Proof.
  unfold validateRow, checks, mkError, validateBloodGroup, validateDate.
  rewrite !whenPresent_guard, whenPresent_and, !present_truthy.
  cbn [firstViolation].
  generalize (whenPresent (gender r) (includes validGenders)).
  generalize (whenPresent (dateOfBirth r) dateParses).
  generalize (whenPresent (bloodGroup r) (includes validGroups)).
  generalize (validatePhone (phone r)), (validateEmail (email r)).
  generalize (truthy (familyName r)), (truthy (phone r)), (truthy (email r)).
  generalize (truthy (lastName r)), (truthy (firstName r)).
  intros b1 b2 b3 b4 b5 b6 b7 b8 b9 b10.
  destruct b1, b2, b3, b4, b5, b6, b7, b8, b9, b10; reflexivity.
Qed.

(** C5: [validateRow] goes through the ten checks in the order required
    fields (first name, last name, email, phone, family name), email
    format, phone format, blood group, date of birth, gender, the last
    three only when the field is present.  When every check passes it
    returns no error; otherwise it returns exactly one error record, which
    carries the row number, the row itself and the message of the first
    check that is violated (every check before it passes).  The function is
    a function of the row and the row number alone: it has no access to
    the storage service. *)
Theorem validateRow_first_violated_check (r : ExcelRow) (rowNumber : nat) :
  (validateRow dateParses r rowNumber = None <->
   Forall (fun c => fst c = true) (checks dateParses r)) /\
  (forall e, validateRow dateParses r rowNumber = Some e <->
     exists before msg after,
       checks dateParses r = before ++ (false, msg) :: after /\
       Forall (fun c => fst c = true) before /\
       e = {| row := rowNumber; error := msg; data := DataRow r |}).
Proof.
  rewrite validateRow_checks. split.
  - rewrite <- firstViolation_None. destruct (firstViolation (checks dateParses r)); split; congruence.
  - intros e. destruct (firstViolation (checks dateParses r)) as [msg|] eqn:E.
    + apply firstViolation_Some in E as (b & a & E & Hb). split.
      * intros [= <-]. now exists b, msg, a.
      * intros (b' & msg' & a' & E' & Hb' & ->).
        assert (firstViolation (checks dateParses r) = Some msg') as H1
          by (apply firstViolation_Some; eauto).
        assert (firstViolation (checks dateParses r) = Some msg) as H2
          by (apply firstViolation_Some; eauto).
        congruence.
    + split; [discriminate|]. intros (b' & msg' & a' & E' & Hb' & _).
      assert (firstViolation (checks dateParses r) = Some msg') as H1
        by (apply firstViolation_Some; eauto).
      congruence.
Qed.

End ValidatorFacts.

(** ** The parser *)

Lemma cellTrim_required (cells : Cells) (k : nat) :
  orEmpty (cellTrim cells k) = trim (text cells k).
Proof. unfold cellTrim, text. now destruct (cell cells k). Qed.

Lemma cellTrim_optional (cells : Cells) (k : nat) :
  orNull (cellTrim cells k) = optional (trim (text cells k)).
Proof.
  unfold cellTrim, text. destruct (cell cells k) as [s|]; [|reflexivity].
  simpl. now destruct (trim s).
Qed.

Lemma mapRow_email (cells : Cells) :
  email (mapRow cells) = toLowerCase (trim (text cells 3)).
Proof. unfold mapRow, cellTrim, text; simpl. now destruct (cell cells 3). Qed.

Lemma mapRow_headOfFamily (cells : Cells) :
  headOfFamily (mapRow cells) =
  includes headOfFamilyWords (toLowerCase (trim (text cells 12))).
Proof.
  unfold mapRow, text; simpl. destruct (cell cells 12) as [s|]; [|reflexivity].
  simpl. now rewrite trim_toLowerCase.
Qed.

Lemma mapRow_role (cells : Cells) :
  role (mapRow cells) =
  Some (if String.eqb (toLowerCase (trim (text cells 14))) "group_leader"
        then group_leader else member).
Proof. unfold mapRow, cellTrim, text; simpl. now destruct (cell cells 14). Qed.

Lemma hasRequired_mapRow (cells : Cells) :
  hasRequired (mapRow cells) = true <->
  trim (text cells 1) <> "" /\ trim (text cells 2) <> "" /\
  trim (text cells 3) <> "" /\ trim (text cells 4) <> "" /\
  trim (text cells 11) <> "".
Proof.
  unfold hasRequired. rewrite mapRow_email, truthy_toLowerCase.
  cbn [mapRow firstName lastName phone familyName].
  rewrite !cellTrim_required, !andb_true_iff, !truthy_true. tauto.
Qed.

Lemma eachRow_In (ws : Worksheet) (r : ExcelRow) :
  In r (eachRow ws) <->
  exists n cells, In (n, cells) ws /\ n <> 1 /\ r = mapRow cells
                  /\ hasRequired (mapRow cells) = true.
Proof.
  induction ws as [|[n cells] ws IH]; simpl.
  - split; [tauto | now intros (? & ? & [] & _)].
  - assert ((exists m c, ((n, cells) = (m, c) \/ In (m, c) ws) /\ m <> 1 /\
                         r = mapRow c /\ hasRequired (mapRow c) = true) <->
            ((n <> 1 /\ r = mapRow cells /\ hasRequired (mapRow cells) = true) \/
             In r (eachRow ws))) as ->.
    { rewrite IH. split.
      - intros (m & c & [[= <- <-]|H] & R); [left; exact R | right; eauto].
      - intros [R|(m & c & H & R)]; [exists n, cells; tauto | exists m, c; tauto]. }
    destruct (Nat.eqb_spec n 1) as [->|Hn]; [tauto|].
    destruct (hasRequired (mapRow cells)) eqn:Hr; simpl.
    + split; [intros [<-|H]; auto | intros [(_ & -> & _)|H]; auto].
    + split; [auto | intros [(_ & _ & ?)|H]; [discriminate | auto]].
Qed.

(** C6: every string field of a parsed row is the trimmed text of its
    cell (an optional field is absent when that text is empty); the email
    is moreover lower-cased; the head-of-family flag is true exactly when
    the trimmed cell equals one of yes, y, true, 1 up to case; the role is
    [group_leader] exactly when the trimmed cell equals that word up to
    case, and [member] otherwise; and the rows returned are exactly those
    data rows whose first name, last name, email, phone and family name
    are all non-empty after trimming, so a row with one of them empty is
    not in the result. *)
Theorem parseExcelFile_normalises (ws : Worksheet) :
  (forall cells,
     firstName (mapRow cells) = trim (text cells 1) /\
     lastName (mapRow cells) = trim (text cells 2) /\
     email (mapRow cells) = toLowerCase (trim (text cells 3)) /\
     phone (mapRow cells) = trim (text cells 4) /\
     dateOfBirth (mapRow cells) = optional (trim (text cells 5)) /\
     gender (mapRow cells) = optional (trim (text cells 6)) /\
     bloodGroup (mapRow cells) = optional (trim (text cells 7)) /\
     address (mapRow cells) = optional (trim (text cells 8)) /\
     emergencyContactName (mapRow cells) = optional (trim (text cells 9)) /\
     emergencyContactPhone (mapRow cells) = optional (trim (text cells 10)) /\
     familyName (mapRow cells) = trim (text cells 11) /\
     (headOfFamily (mapRow cells) = true <->
      In (toLowerCase (trim (text cells 12))) ["yes"; "y"; "true"; "1"]) /\
     groupMemberships (mapRow cells) = optional (trim (text cells 13)) /\
     (role (mapRow cells) = Some group_leader <->
      toLowerCase (trim (text cells 14)) = "group_leader") /\
     (role (mapRow cells) = Some member <->
      toLowerCase (trim (text cells 14)) <> "group_leader") /\
     notes (mapRow cells) = optional (trim (text cells 15))) /\
  (exists rows,
     parseExcelFile (Workbook (Some ws)) = inr rows /\
     (forall r, In r rows <->
        exists n cells,
          In (n, cells) ws /\ n <> 1 /\ r = mapRow cells /\
          trim (text cells 1) <> "" /\ trim (text cells 2) <> "" /\
          trim (text cells 3) <> "" /\ trim (text cells 4) <> "" /\
          trim (text cells 11) <> "") /\
     (forall r, In r rows ->
        firstName r <> "" /\ lastName r <> "" /\ email r <> "" /\
        phone r <> "" /\ familyName r <> "")).
Proof.
  split.
  - intros cells. rewrite mapRow_email, mapRow_headOfFamily, mapRow_role, includes_In.
    cbn [mapRow firstName lastName phone dateOfBirth gender bloodGroup address
           emergencyContactName emergencyContactPhone familyName groupMemberships notes].
    rewrite !cellTrim_required, !cellTrim_optional.
    destruct (String.eqb_spec (toLowerCase (trim (text cells 14))) "group_leader") as [E|E];
      repeat lazymatch goal with |- _ /\ _ => split end;
      try reflexivity; split; congruence.
  - exists (eachRow ws). split; [reflexivity|]. split.
    + intros r. rewrite eachRow_In. split.
      * intros (n & c & H & Hn & -> & R). exists n, c.
        apply hasRequired_mapRow in R. tauto.
      * intros (n & c & H & Hn & -> & R). exists n, c.
        repeat split; try assumption. apply hasRequired_mapRow. exact R.
    + intros r Hr. apply eachRow_In in Hr as (n & c & _ & _ & -> & R).
      unfold hasRequired in R. rewrite !andb_true_iff, !truthy_true in R. tauto.
Qed.

(** ** Reasoning about asynchronous code *)

Section Hoare.

Context {S : Type}.

Lemma hoare_conseq {A : Type} (P P' : S -> Prop) (Q Q' : Result A -> S -> Prop)
  (m : M S A) :
  hoare P' m Q' -> (forall s, P s -> P' s) -> (forall r s, Q' r s -> Q r s) ->
  hoare P m Q.
Proof. intros H HP HQ s Hs. apply HQ, H, HP, Hs. Qed.

Lemma preserves_hoare {A : Type} (I : S -> Prop) (m : M S A) :
  preserves I m -> hoare I m (fun _ => I).
Proof. intros H s Hs. apply H, Hs. Qed.

Lemma hoare_bind {A B : Type} (P : S -> Prop) (Q1 : Result A -> S -> Prop)
  (Q : Result B -> S -> Prop) (m : M S A) (k : A -> M S B) :
  hoare P m Q1 ->
  (forall a, hoare (Q1 (Normal a)) (k a) Q) ->
  (forall s, Q1 ContinueLoop s -> Q ContinueLoop s) ->
  (forall e s, Q1 (Thrown e) s -> Q (Thrown e) s) ->
  hoare P (bind m k) Q.
Proof.
  intros Hm Hk Hc Ht s Hs. specialize (Hm s Hs). unfold bind.
  destruct (m s) as [[a| |e] s']; simpl in *; [apply Hk, Hm | apply Hc, Hm | apply Ht, Hm].
Qed.

Lemma hoare_tryCatch {A : Type} (P : S -> Prop) (Q1 Q : Result A -> S -> Prop)
  (m : M S A) (h : Exception -> M S A) :
  hoare P m Q1 ->
  (forall e, hoare (Q1 (Thrown e)) (h e) Q) ->
  (forall a s, Q1 (Normal a) s -> Q (Normal a) s) ->
  (forall s, Q1 ContinueLoop s -> Q ContinueLoop s) ->
  hoare P (tryCatch m h) Q.
Proof.
  intros Hm Hh Hn Hc s Hs. specialize (Hm s Hs). unfold tryCatch.
  destruct (m s) as [[a| |e] s']; simpl in *; [apply Hn, Hm | apply Hc, Hm | apply Hh, Hm].
Qed.

Lemma preserves_ret {A : Type} (I : S -> Prop) (a : A) : preserves I (ret a).
Proof. intros s Hs. exact Hs. Qed.

Lemma preserves_get (I : S -> Prop) : preserves I get.
Proof. intros s Hs. exact Hs. Qed.

Lemma preserves_continue {A : Type} (I : S -> Prop) : preserves I (@continue S A).
Proof. intros s Hs. exact Hs. Qed.

Lemma preserves_throw {A : Type} (I : S -> Prop) (e : Exception) :
  preserves I (@throw S A e).
Proof. intros s Hs. exact Hs. Qed.

Lemma preserves_modify (I : S -> Prop) (f : S -> S) :
  (forall s, I s -> I (f s)) -> preserves I (modify f).
Proof. intros H s Hs. apply H, Hs. Qed.

Lemma preserves_bind {A B : Type} (I : S -> Prop) (m : M S A) (k : A -> M S B) :
  preserves I m -> (forall a, preserves I (k a)) -> preserves I (bind m k).
Proof.
  intros Hm Hk s Hs. specialize (Hm s Hs). unfold bind.
  destruct (m s) as [[a| |e] s']; simpl in *; [apply Hk, Hm | exact Hm | exact Hm].
Qed.

Lemma preserves_tryCatch {A : Type} (I : S -> Prop) (m : M S A)
  (h : Exception -> M S A) :
  preserves I m -> (forall e, preserves I (h e)) -> preserves I (tryCatch m h).
Proof.
  intros Hm Hh s Hs. specialize (Hm s Hs). unfold tryCatch.
  destruct (m s) as [[a| |e] s']; simpl in *; [exact Hm | exact Hm | apply Hh, Hm].
Qed.

Lemma preserves_loopBody (I : S -> Prop) (m : M S unit) :
  preserves I m -> preserves I (loopBody m).
Proof.
  intros Hm s Hs. specialize (Hm s Hs). unfold loopBody.
  destruct (m s) as [[a| |e] s']; exact Hm.
Qed.

Lemma preserves_forOf {A : Type} (I : S -> Prop) (l : list A) (body : A -> M S unit) :
  (forall x, preserves I (body x)) -> preserves I (forOf l body).
Proof.
  intros Hb. induction l as [|x l IH]; simpl.
  - apply preserves_ret.
  - apply preserves_bind; [apply Hb | intros _; exact IH].
Qed.

End Hoare.

(** A call on the service from inside the run preserves a property of the
    run that survives the recording of the call, whether the call was
    applied or not. *)
Lemma preserves_await_request {A : Type} (I : Run -> Prop) (c : Call)
  (run : World -> Answer A * Store) :
  (forall r o, I r -> o <> Applied ->
               I (setWorld (advance c o (store (world r)) (world r)) r)) ->
  (forall r, I r -> nextFault (world r) = Applied ->
             I (setWorld (advance c Applied (snd (run (world r))) (world r)) r)) ->
  preserves I (await (request c run)).
Proof.
  intros Hsame Happ r Hr. unfold await, request.
  destruct (nextFault (world r)) eqn:F; simpl;
    [apply Happ | apply Hsame | apply Hsame]; try assumption; discriminate.
Qed.

Lemma preserves_await_now (I : Run -> Prop) :
  (forall r, I r -> I (setWorld (world r) r)) -> preserves I (await now).
Proof. intros H r Hr. apply H, Hr. Qed.

Lemma setWorld_same (r : Run) : setWorld (world r) r = r.
Proof. now destruct r. Qed.

Lemma setWorld_agree (w : World) (x y : Run) :
  setWorld w x = setWorld w y -> setWorld (world y) x = y.
Proof. destruct x, y. unfold setWorld. simpl. now intros [= -> -> -> -> ->]. Qed.

Ltac unfold_blocks :=
  unfold iteration, tryBlock, catchBlock, flushProgress, resolveMember,
    resolveFamily, linkFamily, assignGroups, joinGroup, markProcessing, loadGroups, finish,
    pushError, insertJob, updateJob, selectGroups, selectUser, updateUserSingle,
    updateUser, insertUser, selectFamily, insertFamily, setFamilyHead,
    upsertMembership.

Ltac pres_step :=
  lazymatch goal with
  | |- preserves _ (bind _ _) => apply preserves_bind; [|intros ?]
  | |- preserves _ (ret _) => apply preserves_ret
  | |- preserves _ get => apply preserves_get
  | |- preserves _ continue => apply preserves_continue
  | |- preserves _ (throw _) => apply preserves_throw
  | |- preserves _ (tryCatch _ _) => apply preserves_tryCatch; [|intros ?]
  | |- preserves _ (loopBody _) => apply preserves_loopBody
  | |- preserves _ (forOf _ _) => apply preserves_forOf; intros ?
  | |- preserves _ (modify _) => apply preserves_modify
  | |- preserves _ (await now) => apply preserves_await_now
  | |- preserves _ (await (request _ _)) => apply preserves_await_request
  | |- preserves _ (match ?x with _ => _ end) => destruct x
  | |- preserves _ (let _ := _ in _) => cbv zeta
  | |- preserves _ _ => progress unfold_blocks
  end.

Ltac pres := repeat pres_step.

Lemma emits_start (P : Event -> Prop) (s : Run) : emits P (world s) s.
Proof. exists []. split; [now rewrite app_nil_r | constructor]. Qed.

Lemma emits_advance (P : Event -> Prop) (w0 : World) (r : Run) (c : Call) (o : Fault)
  (st : Store) :
  emits P w0 r -> P {| call := c; outcome := o |} ->
  emits P w0 (setWorld (advance c o st (world r)) r).
Proof.
  intros (new & Hc & Hf) Hp. exists (new ++ [{| call := c; outcome := o |}]). split.
  - simpl. now rewrite Hc, app_assoc.
  - apply Forall_app. split; [exact Hf | now constructor].
Qed.

Lemma emits_impl (P Q : Event -> Prop) (w0 : World) (s : Run) :
  (forall e, P e -> Q e) -> emits P w0 s -> emits Q w0 s.
Proof.
  intros H (new & Hc & Hf). exists new. split; [exact Hc|].
  eapply Forall_impl; [exact Hf | exact H].
Qed.

Lemma emits_drop (P : Event -> Prop) (w0 : World) (s : Run) :
  emits P w0 s -> Forall P (drop (length (calls w0)) (calls (world s))).
Proof. intros (new & Hc & Hf). now rewrite Hc, drop_app_length. Qed.

(** ** Families *)

Lemma familiesKept_refl (st : Store) : familiesKept st st.
Proof. exists []. now rewrite app_nil_r. Qed.

Lemma familiesKept_trans (a b c : Store) :
  familiesKept a b -> familiesKept b c -> familiesKept a c.
Proof. intros [x Hx] [y Hy]. exists (x ++ y). now rewrite Hy, Hx, app_assoc. Qed.

Lemma familiesKept_same (a b c : Store) :
  familiesKept a b -> families c = families b -> familiesKept a c.
Proof. intros [x Hx] E. exists x. now rewrite E. Qed.

Lemma setHead_core (id head : string) (l : list Family) :
  map familyCore (map (fun f => if String.eqb (family_id f) id then setHead head f else f) l)
  = map familyCore l.
Proof.
  rewrite map_map. apply map_ext. intros f. now destruct (String.eqb (family_id f) id).
Qed.

Section FamilyFacts.

Variable dateParses : string -> bool.
Variable ilike : string -> string -> bool.

Ltac families_side :=
  intros; simpl;
  try match goal with
      | |- context [List.filter ?f ?l] => destruct (List.filter f l) as [|? [|? ?]]; simpl
      end;
  match goal with
  | H : familiesKept ?a _ |- familiesKept ?a _ =>
      first
        [ exact H
        | eapply familiesKept_same; [exact H | reflexivity]
        | eapply familiesKept_trans; [exact H|]; simpl;
          first [ eexists; cbn [families setFamilies]; rewrite map_app; reflexivity
                | exists []; rewrite app_nil_r; apply setHead_core ] ]
  end.

Lemma iteration_familiesKept (st0 : Store) (jobId : string) (r : ExcelRow) (i : nat) :
  preserves (fun s => familiesKept st0 (store (world s)))
    (iteration dateParses ilike jobId r i).
Proof. pres; families_side. Qed.

Lemma loop_familiesKept (st0 : Store) (jobId : string) (rows : list ExcelRow) (i : nat) :
  preserves (fun s => familiesKept st0 (store (world s)))
    (loop dateParses ilike jobId rows i).
Proof.
  revert i. induction rows as [|r rows IH]; intros i; simpl.
  - apply preserves_ret.
  - apply preserves_bind; [apply iteration_familiesKept | intros _; apply IH].
Qed.

End FamilyFacts.

Section HoareRules.

Context {S : Type}.

Lemma hoare_ret {A : Type} (P : S -> Prop) (Q : Result A -> S -> Prop) (a : A) :
  (forall s, P s -> Q (Normal a) s) -> hoare P (ret a) Q.
Proof. intros H s Hs. apply H, Hs. Qed.

Lemma hoare_continue {A : Type} (P : S -> Prop) (Q : Result A -> S -> Prop) :
  (forall s, P s -> Q ContinueLoop s) -> hoare P continue Q.
Proof. intros H s Hs. apply H, Hs. Qed.

Lemma hoare_throw {A : Type} (P : S -> Prop) (Q : Result A -> S -> Prop) (e : Exception) :
  (forall s, P s -> Q (Thrown e) s) -> hoare P (throw e) Q.
Proof. intros H s Hs. apply H, Hs. Qed.

Lemma hoare_modify (P : S -> Prop) (Q : Result unit -> S -> Prop) (f : S -> S) :
  (forall s, P s -> Q (Normal tt) (f s)) -> hoare P (modify f) Q.
Proof. intros H s Hs. apply H, Hs. Qed.

(** Reading the state: the continuation runs from the state it was
    given. *)
Lemma hoare_read {B : Type} (P : S -> Prop) (Q : Result B -> S -> Prop)
  (k : S -> M S B) :
  (forall f, hoare (fun s => P s /\ s = f) (k f) Q) -> hoare P (bind get k) Q.
Proof. intros H s Hs. apply (H s s). now split. Qed.

(** A first part that keeps the precondition. *)
Lemma hoare_after {A B : Type} (P : S -> Prop) (Q : Result B -> S -> Prop)
  (m : M S A) (k : A -> M S B) :
  preserves P m ->
  (forall a, hoare P (k a) Q) ->
  (forall s, P s -> Q ContinueLoop s) ->
  (forall e s, P s -> Q (Thrown e) s) ->
  hoare P (bind m k) Q.
Proof.
  intros Hm Hk Hc Ht. apply (hoare_bind P (fun _ => P)); assumption.
Qed.

Lemma preserves_weaken {A : Type} (P : S -> Prop) (m : M S A) :
  hoare P m (fun _ => P) -> preserves P m.
Proof. intros H s Hs. apply H, Hs. Qed.

End HoareRules.

(** ** The map of the run from family names to family ids *)

Lemma memoLe_refl (m : gmap string string) : memoLe m m.
Proof. intros k v H _. exact H. Qed.

Lemma memoLe_insert (m0 m : gmap string string) (k v : string) :
  memoLe m0 m -> truthyOpt (m !! k) = false -> memoLe m0 (<[k := v]> m).
Proof.
  intros H F k' v' H' T. destruct (decide (k = k')) as [<-|Hne].
  - specialize (H _ _ H' T). rewrite H in F. simpl in F. congruence.
  - rewrite lookup_insert_ne; [|exact Hne]. apply H; assumption.
Qed.

Section MemoFacts.

Variable dateParses : string -> bool.
Variable ilike : string -> string -> bool.

(** A family id found in the map is returned as it is, without any call
    on the service. *)
Lemma resolveFamily_hit (r : ExcelRow) (n : nat) (s : Run) (F : string) :
  familyMap s !! toLowerCase (familyName r) = Some F -> truthy F = true ->
  resolveFamily ilike r n s = (Normal (Some F), s).
Proof.
  intros H T. unfold resolveFamily, bind, get. rewrite H. simpl. rewrite T. reflexivity.
Qed.

Ltac memo_side :=
  intros; simpl;
  repeat match goal with H : _ /\ _ |- _ => destruct H end;
  try match goal with
      | |- context [List.filter ?f ?l] => destruct (List.filter f l) as [|? [|? ?]]; simpl
      end;
  auto.

(** A family id that [resolveFamily] returns is in the map afterwards. *)
Lemma resolveFamily_records (r : ExcelRow) (n : nat) :
  hoare (fun _ => True) (resolveFamily ilike r n)
    (fun res s' =>
       forall F, res = Normal (Some F) -> truthy F = true ->
                 familyMap s' !! toLowerCase (familyName r) = Some F).
Proof.
  unfold resolveFamily. apply hoare_read. intros f. cbv zeta.
  destruct (truthyOpt (familyMap f !! toLowerCase (familyName r))) eqn:Hit; simpl.
  - apply hoare_ret. intros s [_ ->] F [= E] _. exact E.
  - eapply hoare_conseq with (P' := fun _ => True) (Q' := _); [|auto|intros ? ? H; exact H].
    apply hoare_after; [intros ? _; exact I | | discriminate | discriminate].
    intros ex. apply hoare_after; [intros ? _; exact I | | discriminate | discriminate].
    intros fid. destruct (truthy fid) eqn:T.
    + apply (hoare_bind _ (fun _ s => familyMap s !! toLowerCase (familyName r) = Some fid)).
      * apply hoare_modify. intros s _. cbn [familyMap setFamilyMap]. now rewrite lookup_insert_eq.
      * intros _. apply hoare_ret. intros s H F [= <-] _. exact H.
      * discriminate.
      * discriminate.
    + apply hoare_after; [intros ? _; exact I | | discriminate | discriminate].
      intros _. apply hoare_ret. intros s _ F [= <-]. congruence.
Qed.

Lemma resolveFamily_memoLe (m0 : gmap string string) (r : ExcelRow) (n : nat) :
  preserves (fun s => memoLe m0 (familyMap s)) (resolveFamily ilike r n).
Proof.
  apply preserves_weaken. unfold resolveFamily. apply hoare_read. intros f. cbv zeta.
  destruct (truthyOpt (familyMap f !! toLowerCase (familyName r))) eqn:Hit; simpl.
  - apply hoare_ret. now intros s [H _].
  - eapply hoare_conseq
      with (P' := fun s => memoLe m0 (familyMap s) /\ familyMap s = familyMap f)
           (Q' := fun _ s => memoLe m0 (familyMap s));
      [|intros s [H ->]; auto|auto].
    apply hoare_after; [pres; memo_side | | now intros s [H _] | now intros e s [H _]].
    intros ex. apply hoare_after; [pres; memo_side | | now intros s [H _] | now intros e s [H _]].
    intros fid s [H E]. unfold bind.
    destruct (truthy fid); simpl.
    + apply memoLe_insert; [exact H | now rewrite E].
    + exact H.
Qed.

End MemoFacts.

Lemma bind_assoc {S A B C : Type} (m : M S A) (k : A -> M S B) (h : B -> M S C) (s : S) :
  bind (bind m k) h s = bind m (fun x => bind (k x) h) s.
Proof. unfold bind. now destruct (m s) as [[a| |e] s']. Qed.

Lemma bind_ext {S A B : Type} (m : M S A) (k k' : A -> M S B) (s : S) :
  (forall a s', k a s' = k' a s') -> bind m k s = bind m k' s.
Proof. intros H. unfold bind. destruct (m s) as [[a| |e] s']; auto. Qed.

Lemma bind_normal {S A B : Type} (m : M S A) (k : A -> M S B) (s s' : S) (a : A) :
  m s = (Normal a, s') -> bind m k s = k a s'.
Proof. intros H. unfold bind. now rewrite H. Qed.

Section LoopFacts.

Variable dateParses : string -> bool.
Variable ilike : string -> string -> bool.

Lemma loop_app (jobId : string) (a b : list ExcelRow) (i : nat) (s : Run) :
  loop dateParses ilike jobId (a ++ b) i s =
  bind (loop dateParses ilike jobId a i)
       (fun _ => loop dateParses ilike jobId b (i + length a)) s.
Proof.
  revert i s. induction a as [|r a IH]; intros i s; simpl.
  - unfold bind, ret. now rewrite Nat.add_0_r.
  - rewrite bind_assoc. apply bind_ext. intros _ s'. rewrite IH.
    now replace (S i + length a) with (i + S (length a)) by lia.
Qed.

Ltac frame_side :=
  intros; simpl;
  repeat match goal with H : _ /\ _ |- _ => destruct H end;
  try match goal with
      | |- context [List.filter ?f ?l] => destruct (List.filter f l) as [|? [|? ?]]; simpl
      end;
  repeat split; auto.

Lemma iteration_memoLe (m0 : gmap string string) (jobId : string) (r : ExcelRow) (i : nat) :
  preserves (fun s => memoLe m0 (familyMap s)) (iteration dateParses ilike jobId r i).
Proof. repeat first [apply resolveFamily_memoLe | pres_step]; frame_side. Qed.

Lemma loop_memoLe (m0 : gmap string string) (jobId : string) (rows : list ExcelRow)
  (i : nat) :
  preserves (fun s => memoLe m0 (familyMap s)) (loop dateParses ilike jobId rows i).
Proof.
  revert i. induction rows as [|r rows IH]; intros i; simpl.
  - apply preserves_ret.
  - apply preserves_bind; [apply iteration_memoLe | intros _; apply IH].
Qed.

(** With the family of the row in the map, family resolution keeps any
    property of the run. *)
Lemma resolveFamily_hit_preserves (I : Run -> Prop) (r : ExcelRow) (n : nat)
  (key F : string) :
  toLowerCase (familyName r) = key -> truthy F = true ->
  (forall s, I s -> familyMap s !! key = Some F) ->
  preserves I (resolveFamily ilike r n).
Proof.
  intros <- T H s Hs. rewrite (resolveFamily_hit ilike r n s F); auto.
Qed.

(** A row whose family is in the map creates no family and rewrites the
    name, address and phone of none. *)
Lemma tryBlock_hit_families (r : ExcelRow) (n : nat) (F : string)
  (L : list (string * string * option string * option string)) :
  truthy F = true ->
  preserves (fun s => familyMap s !! toLowerCase (familyName r) = Some F
                      /\ map familyCore (families (store (world s))) = L)
    (tryBlock dateParses ilike r n).
Proof.
  intros T.
  repeat first
    [ apply (resolveFamily_hit_preserves _ r n (toLowerCase (familyName r)) F);
      [reflexivity | exact T | now intros s [H _]]
    | pres_step ];
    frame_side.
  rewrite setHead_core. assumption.
Qed.

(** With the family of the row in the map, the [try] block can only end
    with that family. *)
Lemma tryBlock_reuses (r : ExcelRow) (n : nat) (F : string) :
  truthy F = true ->
  hoare (fun s => familyMap s !! toLowerCase (familyName r) = Some F)
    (tryBlock dateParses ilike r n)
    (fun res _ => forall u F', res = Normal (u, F') -> F' = Some F).
Proof.
  intros T. unfold tryBlock. destruct (validateRow dateParses r n) as [e|].
  - intros s _. simpl. discriminate.
  - apply hoare_after; [pres; frame_side | | discriminate | discriminate].
    intros userId.
    apply (hoare_bind _ (fun res _ => forall o, res = Normal o -> o = Some F));
      [ | | discriminate | discriminate].
    + intros s H. rewrite (resolveFamily_hit ilike r n s F H T). simpl. now intros o [= <-].
    + intros familyId.
      apply hoare_after; [intros ? H; exact H | | discriminate | discriminate]. intros _.
      apply hoare_after; [intros ? H; exact H | | discriminate | discriminate]. intros _.
      apply hoare_after; [intros ? H; exact H | | discriminate | discriminate]. intros _.
      apply hoare_ret. intros s H u F' [= <- <-]. now apply H.
Qed.

End LoopFacts.

Lemma hoare_await_request {A : Type} (P : Run -> Prop) (Q : Result (Answer A) -> Run -> Prop)
  (c : Call) (run : World -> Answer A * Store) :
  (forall r, P r -> nextFault (world r) = Applied ->
     Q (Normal (fst (run (world r))))
       (setWorld (advance c Applied (snd (run (world r))) (world r)) r)) ->
  (forall r msg, P r -> nextFault (world r) = Refused msg ->
     Q (Normal (failedWith msg))
       (setWorld (advance c (Refused msg) (store (world r)) (world r)) r)) ->
  (forall r e, P r -> nextFault (world r) = Rejected e ->
     Q (Thrown e) (setWorld (advance c (Rejected e) (store (world r)) (world r)) r)) ->
  hoare P (await (request c run)) Q.
Proof.
  intros Ha Hr Hj r Hp. unfold await, request.
  destruct (nextFault (world r)) eqn:F; simpl; auto.
Qed.

(** ** Equations of the blocks *)

Lemma bind_cases {S A B : Type} (m : M S A) (k : A -> M S B) (s : S) :
  bind m k s =
  match m s with
  | (Normal a, s') => k a s'
  | (ContinueLoop, s') => (ContinueLoop, s')
  | (Thrown e, s') => (Thrown e, s')
  end.
Proof. reflexivity. Qed.

Lemma appliesNext_S (n : nat) (w : World) :
  appliesNext (S n) w -> nextFault w = Applied /\ forall c st, appliesNext n (advance c Applied st w).
Proof.
  unfold appliesNext, nextFault, advance. destruct (faults w) as [|f fs]; simpl.
  - intros _. split; [reflexivity|]. intros _ _. rewrite take_nil. constructor.
  - intros H. inversion H; subst. split; [reflexivity|]. intros _ _. assumption.
Qed.

Lemma single_not_one {A : Type} (l : list A) : length l <> 1 -> ans_data (single l) = None.
Proof. destruct l as [|x [|y l]]; simpl; [reflexivity | lia | reflexivity]. Qed.

Lemma await_request_eq {A : Type} (c : Call) (run : World -> Answer A * Store) (s : Run) :
  await (request c run) s =
  match nextFault (world s) with
  | Applied => (Normal (fst (run (world s))),
                setWorld (advance c Applied (snd (run (world s))) (world s)) s)
  | Refused msg => (Normal (failedWith msg),
                    setWorld (advance c (Refused msg) (store (world s)) (world s)) s)
  | Rejected e => (Thrown e,
                   setWorld (advance c (Rejected e) (store (world s)) (world s)) s)
  end.
Proof. unfold await, request. now destruct (nextFault (world s)). Qed.

(** ** One family for one name within a run *)

Section FamilyTheorem.

Variable dateParses : string -> bool.
Variable ilike : string -> string -> bool.

Ltac side :=
  intros; simpl;
  repeat match goal with H : _ /\ _ |- _ => destruct H end;
  try match goal with
      | |- context [List.filter ?f ?l] => destruct (List.filter f l) as [|? [|? ?]]; simpl
      end;
  repeat split; auto.

(** A row that passed validation and has its member and its family goes
    on from line 302. *)
Lemma iteration_afterFamily (jobId : string) (r : ExcelRow) (i : nat) (s sa sb : Run)
  (u : string) (f : option string) :
  validateRow dateParses r (i + 2) = None ->
  resolveMember r (i + 2) s = (Normal u, sa) ->
  resolveFamily ilike r (i + 2) sa = (Normal f, sb) ->
  iteration dateParses ilike jobId r i s = afterFamily jobId r i u f sb.
Proof.
  intros Hv Hm Hf. unfold iteration, afterFamily, loopBody, tryBlock. cbv zeta.
  rewrite Hv. unfold tryCatch. rewrite !bind_cases, Hm. cbv beta iota.
  rewrite !bind_cases, Hf. reflexivity.
Qed.

Lemma resolveMember_familyMap (m : gmap string string) (r : ExcelRow) (n : nat) :
  preserves (fun s => familyMap s = m) (resolveMember r n).
Proof. pres; side. Qed.

Lemma afterFamily_memoLe (m0 : gmap string string) (jobId : string) (r : ExcelRow)
  (i : nat) (u : string) (f : option string) :
  preserves (fun s => memoLe m0 (familyMap s)) (afterFamily jobId r i u f).
Proof. unfold afterFamily. pres; side. Qed.

Lemma afterFamily_familiesKept (st0 : Store) (jobId : string) (r : ExcelRow)
  (i : nat) (u : string) (f : option string) :
  preserves (fun s => familiesKept st0 (store (world s))) (afterFamily jobId r i u f).
Proof.
  unfold afterFamily. pres; intros; simpl; auto.
  match goal with
  | H : familiesKept ?a _ |- familiesKept ?a _ =>
      eapply familiesKept_trans; [exact H|]; simpl;
      exists []; rewrite app_nil_r; apply setHead_core
  end.
Qed.

Lemma loop_prefix_normal (jobId : string) (a b : list ExcelRow) (i : nat) (s : Run) :
  fst (loop dateParses ilike jobId (a ++ b) i s) = Normal tt ->
  fst (loop dateParses ilike jobId a i s) = Normal tt.
Proof.
  rewrite loop_app, bind_cases.
  destruct (loop dateParses ilike jobId a i s) as [[[]| |e] s']; simpl; auto.
Qed.

(** What a property of the run that the later part of a turn and the
    loop keep becomes, from a resolved family to the turn of a later
    row. *)
Lemma carried (P : Run -> Prop) (jobId : string) (a b : list ExcelRow) (r : ExcelRow)
  (i : nat) (s0 sa sb : Run) (u : string) (f : option string) :
  (forall u f j, preserves P (afterFamily jobId r j u f)) ->
  (forall rows j, preserves P (loop dateParses ilike jobId rows j)) ->
  fst (loop dateParses ilike jobId a i s0) = Normal tt ->
  validateRow dateParses r (i + length a + 2) = None ->
  resolveMember r (i + length a + 2) (snd (loop dateParses ilike jobId a i s0)) = (Normal u, sa) ->
  resolveFamily ilike r (i + length a + 2) sa = (Normal f, sb) ->
  P sb ->
  P (snd (loop dateParses ilike jobId (a ++ r :: b) i s0)).
Proof.
  intros Hafter Hloop Hpre Hv Hm Hf Hp.
  rewrite loop_app, bind_cases.
  destruct (loop dateParses ilike jobId a i s0) as [res s1] eqn:Ea.
  simpl in Hpre, Hm. subst res. cbn [loop]. rewrite bind_cases.
  rewrite (iteration_afterFamily jobId r (i + length a) s1 sa sb u f Hv Hm Hf).
  pose proof (Hafter u f (i + length a) sb Hp) as H1.
  destruct (afterFamily jobId r (i + length a) u f sb) as [[[]| |e] s1']; simpl in *.
  - now apply Hloop.
  - exact H1.
  - exact H1.
Qed.

(** A family id that a row obtained is in the map of the run at the turn
    of every later row. *)
Lemma family_stays_in_map (jobId : string) (a b : list ExcelRow) (r : ExcelRow)
  (i : nat) (s0 sa sb : Run) (u F : string) :
  fst (loop dateParses ilike jobId a i s0) = Normal tt ->
  validateRow dateParses r (i + length a + 2) = None ->
  resolveMember r (i + length a + 2) (snd (loop dateParses ilike jobId a i s0)) = (Normal u, sa) ->
  resolveFamily ilike r (i + length a + 2) sa = (Normal (Some F), sb) ->
  truthy F = true ->
  familyMap (snd (loop dateParses ilike jobId (a ++ r :: b) i s0))
    !! toLowerCase (familyName r) = Some F.
Proof.
  intros Hpre Hv Hm Hf T.
  assert (familyMap sb !! toLowerCase (familyName r) = Some F) as Hrec.
  { pose proof (resolveFamily_records ilike r (i + length a + 2) sa I) as H.
    rewrite Hf in H. simpl in H. now apply H. }
  assert (memoLe (familyMap sb)
            (familyMap (snd (loop dateParses ilike jobId (a ++ r :: b) i s0)))) as H.
  { apply (carried (fun s => memoLe (familyMap sb) (familyMap s)) jobId a b r i s0 sa sb u
             (Some F)); auto.
    - intros. apply afterFamily_memoLe.
    - intros. apply loop_memoLe.
    - apply memoLe_refl. }
  now apply H.
Qed.

Lemma families_stay (jobId : string) (a b : list ExcelRow) (r : ExcelRow)
  (i : nat) (s0 sa sb : Run) (u : string) (f : option string) :
  fst (loop dateParses ilike jobId a i s0) = Normal tt ->
  validateRow dateParses r (i + length a + 2) = None ->
  resolveMember r (i + length a + 2) (snd (loop dateParses ilike jobId a i s0)) = (Normal u, sa) ->
  resolveFamily ilike r (i + length a + 2) sa = (Normal f, sb) ->
  familiesKept (store (world sb))
    (store (world (snd (loop dateParses ilike jobId (a ++ r :: b) i s0)))).
Proof.
  intros Hpre Hv Hm Hf.
  apply (carried (fun s => familiesKept (store (world sb)) (store (world s)))
           jobId a b r i s0 sa sb u f); auto.
  - intros. apply afterFamily_familiesKept.
  - intros. apply loop_familiesKept.
  - apply familiesKept_refl.
Qed.

(** A row whose family is in the map makes no call that looks a family
    up or creates one. *)
Lemma tryBlock_hit_quiet (w0 : World) (r : ExcelRow) (n : nat) (F : string) :
  truthy F = true ->
  preserves (fun s => familyMap s !! toLowerCase (familyName r) = Some F
                      /\ emits noFamilyLookup w0 s)
    (tryBlock dateParses ilike r n).
Proof.
  intros T.
  repeat first
    [ apply (resolveFamily_hit_preserves ilike _ r n (toLowerCase (familyName r)) F);
      [reflexivity | exact T | now intros s [H _]]
    | pres_step ];
    intros; simpl;
    repeat match goal with H : _ /\ _ |- _ => destruct H end;
    (split; [assumption|]);
    first [assumption | apply emits_advance; [assumption | exact I]].
Qed.

(** The family that family resolution creates when the map of the run
    has no usable entry for the name, the look-up finds no single family
    and the service applies both calls. *)
Lemma resolveFamily_create_eq (r : ExcelRow) (n : nat) (s : Run) :
  truthyOpt (familyMap s !! toLowerCase (familyName r)) = false ->
  appliesNext 2 (world s) ->
  length (List.filter (fun f => ilike (familyName r) (family_name f))
            (families (store (world s)))) <> 1 ->
  resolveFamily ilike r n s =
  (Normal (Some (genId (S (clock (world s))))),
   setFamilyMap
     (<[toLowerCase (familyName r) := genId (S (clock (world s)))]> (familyMap s))
     (setWorld
        (advance (FamilyInsert (familyName r) (orNull (address r)) (phone r)) Applied
           (setFamilies (families (store (world s))
                         ++ [familyOfRow r (genId (S (clock (world s))))])
              (store (world s)))
           (advance (FamilySelect (familyName r)) Applied (store (world s)) (world s)))
        s)).
Proof.
  intros Hmiss Ha Hn.
  apply appliesNext_S in Ha as [F1 Ha].
  specialize (Ha (FamilySelect (familyName r)) (store (world s))).
  apply appliesNext_S in Ha as [F2 _].
  unfold resolveFamily. rewrite bind_cases. unfold get at 1. cbv zeta. rewrite Hmiss.
  cbn [negb]. unfold selectFamily. rewrite bind_cases, await_request_eq, F1.
  cbn [fst snd]. rewrite (single_not_one _ Hn).
  unfold insertFamily. rewrite !bind_cases, await_request_eq.
  cbn [world setWorld]. rewrite F2. cbn [fst snd ans_error ans_data answered].
  unfold ret at 1. cbn [family_id clock advance].
  replace (truthy (genId (S (clock (world s))))) with true by reflexivity.
  reflexivity.
Qed.

(** C7: in the loop of a run, let the turn of a row [r1] come, and let
    [r1] pass validation and get its member.

    If family resolution then gives [r1] a family [F] (a usable id), then
    at the turn of every later row [r2] of the run whose family name is
    that of [r1] up to case, family resolution gives [r2] the same [F],
    without any call and without any write; the [try] block of [r2] can
    only end with [F], makes no call that looks a family up or creates
    one, and leaves the id, name, address and phone of every family as
    they are; and until then the run has rewritten the id, name, address
    or phone of no family that was there after the resolution for [r1].
    This holds whether the rest of the turn of [r1] succeeds or not.

    If the map of the run has no usable entry for the family name of
    [r1], the look-up finds no single family and the service applies the
    look-up and the insert, then family resolution creates the family
    with the name, address and phone of [r1] and gives its id to [r1];
    no earlier row of the run with that family name got a usable family
    id, whatever came first of them; and the family is still stored with
    the address and phone of [r1] at the turn of the later row. *)
Theorem same_family_within_run (jobId : string) (pre mid : list ExcelRow)
  (r1 r2 : ExcelRow) (i n2 : nat) (s0 : Run) (u1 : string) (s1a : Run) :
  toLowerCase (familyName r2) = toLowerCase (familyName r1) ->
  fst (loop dateParses ilike jobId pre i s0) = Normal tt ->
  validateRow dateParses r1 (i + length pre + 2) = None ->
  resolveMember r1 (i + length pre + 2) (snd (loop dateParses ilike jobId pre i s0))
    = (Normal u1, s1a) ->
  let s2 := snd (loop dateParses ilike jobId (pre ++ r1 :: mid) i s0) in
  (forall F s1b,
     resolveFamily ilike r1 (i + length pre + 2) s1a = (Normal (Some F), s1b) ->
     truthy F = true ->
     (forall u2 s2a, resolveMember r2 n2 s2 = (Normal u2, s2a) ->
                     resolveFamily ilike r2 n2 s2a = (Normal (Some F), s2a)) /\
     (forall u2 F2 s3,
        tryBlock dateParses ilike r2 n2 s2 = (Normal (u2, F2), s3) -> F2 = Some F) /\
     Forall noFamilyLookup
       (drop (length (calls (world s2)))
          (calls (world (snd (tryBlock dateParses ilike r2 n2 s2))))) /\
     map familyCore (families (store (world (snd (tryBlock dateParses ilike r2 n2 s2))))) =
     map familyCore (families (store (world s2))) /\
     familiesKept (store (world s1b)) (store (world s2))) /\
  (truthyOpt (familyMap s1a !! toLowerCase (familyName r1)) = false ->
   appliesNext 2 (world s1a) ->
   length (List.filter (fun f => ilike (familyName r1) (family_name f))
             (families (store (world s1a)))) <> 1 ->
   let F := genId (S (clock (world s1a))) in
   exists s1b,
     resolveFamily ilike r1 (i + length pre + 2) s1a = (Normal (Some F), s1b) /\
     truthy F = true /\
     families (store (world s1b)) = families (store (world s1a)) ++ [familyOfRow r1 F] /\
     (forall a r0 b u0 F0 s0a s0b,
        pre = a ++ r0 :: b ->
        toLowerCase (familyName r0) = toLowerCase (familyName r1) ->
        validateRow dateParses r0 (i + length a + 2) = None ->
        resolveMember r0 (i + length a + 2) (snd (loop dateParses ilike jobId a i s0))
          = (Normal u0, s0a) ->
        resolveFamily ilike r0 (i + length a + 2) s0a = (Normal (Some F0), s0b) ->
        truthy F0 = false) /\
     In (familyCore (familyOfRow r1 F)) (map familyCore (families (store (world s2))))).
Proof.
  intros Hname Hpre Hv Hm s2.
  assert (forall F s1b,
            resolveFamily ilike r1 (i + length pre + 2) s1a = (Normal (Some F), s1b) ->
            familiesKept (store (world s1b)) (store (world s2))) as Hkept.
  { intros F s1b Hf. exact (families_stay jobId pre mid r1 i s0 s1a s1b u1 _ Hpre Hv Hm Hf). }
  split.
  - intros F s1b Hf T.
    assert (familyMap s2 !! toLowerCase (familyName r2) = Some F) as Hmemo.
    { rewrite Hname.
      exact (family_stays_in_map jobId pre mid r1 i s0 s1a s1b u1 F Hpre Hv Hm Hf T). }
    split; [|split; [|split; [|split]]].
    + intros u2 s2a H2. apply resolveFamily_hit; [|exact T].
      pose proof (resolveMember_familyMap (familyMap s2) r2 n2 s2 eq_refl) as E.
      rewrite H2 in E. simpl in E. now rewrite E.
    + intros u2 F2 s3 E.
      pose proof (tryBlock_reuses dateParses ilike r2 n2 F T s2 Hmemo) as H.
      rewrite E in H. simpl in H. now apply (H u2).
    + apply emits_drop.
      apply (tryBlock_hit_quiet (world s2) r2 n2 F T s2).
      split; [exact Hmemo | apply emits_start].
    + pose proof (tryBlock_hit_families dateParses ilike r2 n2 F
                    (map familyCore (families (store (world s2)))) T s2) as H.
      now apply H.
    + exact (Hkept F s1b Hf).
  - intros Hmiss Ha Hn F.
    pose proof (resolveFamily_create_eq r1 (i + length pre + 2) s1a Hmiss Ha Hn) as Hf.
    fold F in Hf. eexists. split; [exact Hf|]. split; [reflexivity|]. split; [reflexivity|].
    split.
    + intros a r0 b u0 F0 s0a s0b -> Hk Hv0 Hm0 Hf0.
      destruct (truthy F0) eqn:T0; [exfalso|reflexivity].
      assert (fst (loop dateParses ilike jobId a i s0) = Normal tt) as Ha0
        by (eapply loop_prefix_normal; exact Hpre).
      pose proof (family_stays_in_map jobId a b r0 i s0 s0a s0b u0 F0 Ha0 Hv0 Hm0 Hf0 T0) as H.
      pose proof (resolveMember_familyMap
                    (familyMap (snd (loop dateParses ilike jobId (a ++ r0 :: b) i s0)))
                    r1 (i + length (a ++ r0 :: b) + 2) _ eq_refl) as E.
      rewrite Hm in E. simpl in E. rewrite E, <- Hk, H in Hmiss. simpl in Hmiss. congruence.
    + destruct (Hkept F _ Hf) as [added Hadd]. rewrite Hadd.
      apply in_app_iff. left. cbn [world setWorld setFamilyMap store advance families setFamilies].
      rewrite map_app. apply in_app_iff. right. now left.
Qed.

End FamilyTheorem.

(** ** Member resolution *)

Lemma request_calls {A : Type} (c : Call) (run : World -> Answer A * Store) (w : World) :
  calls (snd (request c run w)) = calls w ++ [{| call := c; outcome := nextFault w |}].
Proof. unfold request. now destruct (nextFault w). Qed.

Lemma request_store {A : Type} (c : Call) (run : World -> Answer A * Store) (w : World) :
  store (snd (request c run w)) =
  match nextFault w with
  | Applied => snd (run w)
  | _ => store w
  end.
Proof. unfold request. now destruct (nextFault w). Qed.

Lemma patchUsers_email (id : string) (r : ExcelRow) (l : list UserProfile) :
  map user_email (patchUsers id (profilePatch r) l) = map user_email l.
Proof.
  unfold patchUsers. rewrite map_map. apply map_ext. intros u.
  now destruct (String.eqb (user_id u) id).
Qed.

Lemma patchUsers_id (id : string) (p : UserPatch) (l : list UserProfile) :
  map user_id (patchUsers id p l) = map user_id l.
Proof.
  unfold patchUsers. rewrite map_map. apply map_ext. intros u.
  now destruct (String.eqb (user_id u) id).
Qed.

Lemma patchUsers_family (id : string) (r : ExcelRow) (l : list UserProfile) :
  map user_family_id (patchUsers id (profilePatch r) l) = map user_family_id l.
Proof.
  unfold patchUsers. rewrite map_map. apply map_ext. intros u.
  now destruct (String.eqb (user_id u) id).
Qed.

(** The member found is updated with the ten columns of the row, whatever
    it held before. *)
Lemma applyUserPatch_profile (r : ExcelRow) (u : UserProfile) :
  applyUserPatch (profilePatch r) u =
  {| user_id := user_id u;
     user_email := user_email u;
     user_first_name := firstName r;
     user_last_name := lastName r;
     user_phone := Some (phone r);
     user_date_of_birth := orNull (dateOfBirth r);
     user_gender := orNull (gender r);
     user_blood_group := orNull (bloodGroup r);
     user_address := orNull (address r);
     user_emergency_contact_name := orNull (emergencyContactName r);
     user_emergency_contact_phone := orNull (emergencyContactPhone r);
     user_role := match role r with
                  | Some ro => roleName ro
                  | None => "member"
                  end;
     user_family_id := user_family_id u |}.
Proof. reflexivity. Qed.

Lemma patchUsers_link_email (id fam : string) (l : list UserProfile) :
  map user_email (patchUsers id (familyLinkPatch fam) l) = map user_email l.
Proof.
  unfold patchUsers. rewrite map_map. apply map_ext. intros u.
  now destruct (String.eqb (user_id u) id).
Qed.

Lemma bind_snd {S A B : Type} (m : M S A) (k : A -> M S B) (s : S) :
  snd (bind m k s) = snd (m s) \/
  exists a, fst (m s) = Normal a /\ snd (bind m k s) = snd (k a (snd (m s))).
Proof. unfold bind. destruct (m s) as [[a| |e] s']; simpl; eauto. Qed.

Section MemberFacts.

Variable dateParses : string -> bool.
Variable ilike : string -> string -> bool.

(** What follows member resolution in the [try] block creates no member
    and changes the email and the id of none. *)
Lemma after_member_keeps (w0 : World) (Em : list (option string)) (Ids : list string)
  (r : ExcelRow) (n : nat) (userId : string) :
  preserves (fun s => map user_email (user_profiles (store (world s))) = Em /\
                      map user_id (user_profiles (store (world s))) = Ids /\
                      emits noUserInsert w0 s)
    (let* familyId := resolveFamily ilike r n in
     linkFamily r userId familyId ;;
     assignGroups r userId ;;
     modify (fun f => setSuccessCount (S (successCount f)) f) ;;
     ret (userId, familyId)).
Proof.
  pres; intros; simpl;
    repeat match goal with H : _ /\ _ |- _ => destruct H end;
    repeat split; auto;
    try (apply emits_advance; [assumption | exact I]);
    try (rewrite patchUsers_link_email; assumption);
    try (rewrite patchUsers_id; assumption).
Qed.

End MemberFacts.

(** C9: when the look-up of member resolution answers with an existing
    member [u], member resolution makes exactly one more call, the update
    of the row with the id of [u]; the update object mentions first and
    last name, phone, date of birth, gender, blood group, address,
    emergency contact name and phone and role, and neither the email nor
    the family; in the table the emails, the ids and the family links are
    those of before (so no member is added).  And in the whole [try] block
    of that row no insertion of a member is called, and the emails and ids
    of the table stay those of before. *)
Theorem resolveMember_updates_existing (r : ExcelRow) (n : nat) (s : Run)
  (a : Answer UserProfile) (w1 : World) (u : UserProfile) :
  selectUser (email r) (phone r) (world s) = (Normal a, w1) ->
  ans_data a = Some u ->
  let s' := snd (resolveMember r n s) in
  map call (drop (length (calls (world s))) (calls (world s'))) =
    [UserSelect (email r) (phone r); UserUpdate (user_id u) (profilePatch r)] /\
  set_email (profilePatch r) = None /\
  set_family_id (profilePatch r) = None /\
  (user_profiles (store (world s')) = user_profiles (store (world s)) \/
   user_profiles (store (world s')) =
   map (fun x => if String.eqb (user_id x) (user_id u)
                 then applyUserPatch (profilePatch r) x else x)
     (user_profiles (store (world s)))) /\
  map user_email (user_profiles (store (world s'))) =
    map user_email (user_profiles (store (world s))) /\
  map user_id (user_profiles (store (world s'))) =
    map user_id (user_profiles (store (world s))) /\
  map user_family_id (user_profiles (store (world s'))) =
    map user_family_id (user_profiles (store (world s))) /\
  (forall dateParses ilike,
     let s'' := snd (tryBlock dateParses ilike r n s) in
     map user_email (user_profiles (store (world s''))) =
       map user_email (user_profiles (store (world s))) /\
     map user_id (user_profiles (store (world s''))) =
       map user_id (user_profiles (store (world s))) /\
     Forall noUserInsert (drop (length (calls (world s))) (calls (world s'')))).
Proof.
  intros Hsel Hu s'.
  assert (calls w1 = calls (world s)
                     ++ [{| call := UserSelect (email r) (phone r);
                            outcome := nextFault (world s) |}]) as Hc1.
  { pose proof (request_calls (UserSelect (email r) (phone r))
                  (fun w => (single (List.filter
                                       (fun u => optEqb (user_email u) (email r)
                                                 || optEqb (user_phone u) (phone r))
                                       (user_profiles (store w))), store w))
                  (world s)) as H.
    unfold selectUser in Hsel. now rewrite Hsel in H. }
  assert (store w1 = store (world s)) as Hs1.
  { pose proof (request_store (UserSelect (email r) (phone r))
                  (fun w => (single (List.filter
                                       (fun u => optEqb (user_email u) (email r)
                                                 || optEqb (user_phone u) (phone r))
                                       (user_profiles (store w))), store w))
                  (world s)) as H.
    unfold selectUser in Hsel. rewrite Hsel in H. simpl in H.
    now destruct (nextFault (world s)). }
  assert (world s' =
          snd (updateUserSingle (user_id u) (profilePatch r) w1)) as Hw.
  { subst s'. unfold resolveMember, bind. unfold await at 1. rewrite Hsel. simpl.
    rewrite Hu. change (world (setWorld w1 s)) with w1.
    destruct (updateUserSingle (user_id u) (profilePatch r) w1) as [[upd| |e] w2]; simpl;
      [destruct (ans_error upd)|..]; reflexivity. }
  assert (calls (world s') =
          calls (world s)
          ++ [{| call := UserSelect (email r) (phone r); outcome := nextFault (world s) |};
              {| call := UserUpdate (user_id u) (profilePatch r);
                 outcome := nextFault w1 |}]) as Hcalls.
  { rewrite Hw. unfold updateUserSingle. rewrite request_calls, Hc1, <- app_assoc.
    reflexivity. }
  assert ((user_profiles (store (world s')) = user_profiles (store (world s)) \/
           user_profiles (store (world s')) =
           map (fun x => if String.eqb (user_id x) (user_id u)
                         then applyUserPatch (profilePatch r) x else x)
             (user_profiles (store (world s)))) /\
          map user_email (user_profiles (store (world s'))) =
            map user_email (user_profiles (store (world s))) /\
          map user_id (user_profiles (store (world s'))) =
            map user_id (user_profiles (store (world s))) /\
          map user_family_id (user_profiles (store (world s'))) =
            map user_family_id (user_profiles (store (world s)))) as Hstore.
  { rewrite Hw. unfold updateUserSingle. rewrite request_store, Hs1.
    destruct (nextFault w1); simpl; try (split; [now left|auto]).
    destruct (List.filter (fun u0 => String.eqb (user_id u0) (user_id u))
                (user_profiles (store (world s)))) as [|x [|y l]]; simpl;
      try (split; [now left|auto]).
    split; [now right|].
    now rewrite patchUsers_email, patchUsers_id, patchUsers_family. }
  split; [now rewrite Hcalls, drop_app_length|].
  split; [reflexivity|]. split; [reflexivity|].
  destruct Hstore as (H1 & H2 & H3 & H4).
  repeat (split; [assumption|]).
  intros dateParses ilike s''. subst s''. unfold tryBlock.
  destruct (validateRow dateParses r n) as [e|].
  - simpl. rewrite drop_all. auto.
  - assert (map user_email (user_profiles (store (world s'))) =
              map user_email (user_profiles (store (world s))) /\
            map user_id (user_profiles (store (world s'))) =
              map user_id (user_profiles (store (world s))) /\
            emits noUserInsert (world s) s') as Inv.
    { split; [exact H2|]. split; [exact H3|]. eexists. split; [exact Hcalls|].
      repeat constructor. }
    destruct (bind_snd (resolveMember r n)
                (fun userId =>
                   let* familyId := resolveFamily ilike r n in
                   linkFamily r userId familyId ;;
                   assignGroups r userId ;;
                   modify (fun f => setSuccessCount (S (successCount f)) f) ;;
                   ret (userId, familyId)) s) as [-> | (userId & _ & ->)].
    + destruct Inv as (E1 & E2 & E3). fold s'. auto using emits_drop.
    + fold s'.
      pose proof (after_member_keeps ilike (world s) _ _ r n userId s' Inv)
        as (E1 & E2 & E3).
      auto using emits_drop.
Qed.

(** ** Group memberships *)

Lemma sameKey_spec (g u : string) (m : GroupMembership) :
  sameKey g u m = true <-> membershipKey m = (g, u).
Proof.
  unfold sameKey, membershipKey. rewrite andb_true_iff, !String.eqb_eq.
  split; [intros [-> ->]; reflexivity | intros [= -> ->]; auto].
Qed.

Lemma upsertRow_keys_hit (g u st ro : string) (t : list GroupMembership) :
  map membershipKey
    (map (fun m => if sameKey g u m
                   then {| gm_group_id := g; gm_user_id := u;
                           gm_status := st; gm_role := ro |}
                   else m) t)
  = map membershipKey t.
Proof.
  rewrite map_map. apply map_ext. intros m.
  destruct (sameKey g u m) eqn:E; [|reflexivity].
  apply sameKey_spec in E. now rewrite E.
Qed.

Lemma upsertRow_unique (g u st ro : string) (t : list GroupMembership) :
  uniqueKeys t -> uniqueKeys (upsertRow g u st ro t).
Proof.
  unfold uniqueKeys, upsertRow. intros H.
  destruct (existsb (sameKey g u) t) eqn:E.
  - now rewrite upsertRow_keys_hit.
  - rewrite map_app. simpl. apply NoDup_app. split; [exact H|]. split.
    + intros k Hk Hin. apply list_elem_of_In in Hk, Hin.
      destruct Hin as [<-|[]]. apply in_map_iff in Hk as (m & Hm & Hin).
      assert (existsb (sameKey g u) t = true) as C.
      { apply existsb_exists. exists m. split; [exact Hin | now apply sameKey_spec]. }
      congruence.
    + apply NoDup_singleton.
Qed.

(** After an upsert the pair has exactly one membership if it had at most
    one, and the upsert done twice is the upsert done once. *)
Lemma upsertRow_count (g u st ro : string) (t : list GroupMembership) :
  length (List.filter (sameKey g u) (upsertRow g u st ro t)) =
  Nat.max 1 (length (List.filter (sameKey g u) t)).
Proof.
  unfold upsertRow. destruct (existsb (sameKey g u) t) eqn:E.
  - assert (forall l, List.filter (sameKey g u)
                        (map (fun m => if sameKey g u m
                                       then {| gm_group_id := g; gm_user_id := u;
                                               gm_status := st; gm_role := ro |}
                                       else m) l)
                      = map (fun _ => {| gm_group_id := g; gm_user_id := u;
                                         gm_status := st; gm_role := ro |})
                          (List.filter (sameKey g u) l)) as H.
    { induction l as [|m l IH]; simpl; [reflexivity|].
      destruct (sameKey g u m) eqn:Em; simpl.
      - unfold sameKey at 1. simpl. rewrite !String.eqb_refl. simpl. now rewrite IH.
      - rewrite Em. exact IH. }
    rewrite H, length_map.
    apply existsb_exists in E as (m & Hin & Hm).
    assert (In m (List.filter (sameKey g u) t)) as Hf by (apply filter_In; auto).
    destruct (List.filter (sameKey g u) t); [destruct Hf | simpl; lia].
  - rewrite List.filter_app, length_app. simpl.
    unfold sameKey at 2. simpl. rewrite !String.eqb_refl. simpl.
    assert (List.filter (sameKey g u) t = []) as ->.
    { induction t as [|m t IH]; simpl in *; [reflexivity|].
      apply orb_false_iff in E as [E1 E2]. rewrite E1. auto. }
    reflexivity.
Qed.

Lemma upsertRow_idem (g u st ro : string) (t : list GroupMembership) :
  upsertRow g u st ro (upsertRow g u st ro t) = upsertRow g u st ro t.
Proof.
  assert (existsb (sameKey g u) (upsertRow g u st ro t) = true) as H.
  { pose proof (upsertRow_count g u st ro t) as C.
    destruct (List.filter (sameKey g u) (upsertRow g u st ro t)) as [|m l] eqn:E;
      [simpl in C; lia|].
    assert (In m (List.filter (sameKey g u) (upsertRow g u st ro t))) as Hin
      by (rewrite E; now left).
    apply filter_In in Hin as [Hin Hm]. apply existsb_exists. eauto. }
  unfold upsertRow at 1. rewrite H.
  unfold upsertRow. destruct (existsb (sameKey g u) t) eqn:E.
  - rewrite map_map. apply map_ext. intros m.
    destruct (sameKey g u m) eqn:Em; [|now rewrite Em].
    unfold sameKey. simpl. now rewrite !String.eqb_refl.
  - rewrite map_app. simpl. unfold sameKey at 2. simpl. rewrite !String.eqb_refl. simpl.
    f_equal. rewrite <- (map_id t) at 2. apply map_ext_in. intros m Hin.
    destruct (sameKey g u m) eqn:Em; [|reflexivity].
    assert (existsb (sameKey g u) t = true) by (apply existsb_exists; eauto). congruence.
Qed.

Lemma joinGroup_cases (userId nm : string) (s : Run) :
  (matchedGroups (groupMap s) [nm] = [] /\ joinGroup userId nm s = (Normal tt, s)) \/
  (exists g st,
     matchedGroups (groupMap s) [nm] = [g] /\
     snd (joinGroup userId nm s) =
       setWorld (advance (upsertOf userId g) (nextFault (world s)) st (world s)) s /\
     (fst (joinGroup userId nm s) = Normal tt \/
      exists e, fst (joinGroup userId nm s) = Thrown e) /\
     (st = store (world s) \/
      st = setMemberships
             (upsertRow g userId "pending" "member" (group_memberships (store (world s))))
             (store (world s)))).
Proof.
  unfold joinGroup, matchedGroups, bind, get. simpl.
  destruct (groupMap s !! nm) as [g|]; simpl; [|now left].
  destruct (truthy g) eqn:T; simpl; [|now left].
  right. exists g. unfold await, upsertMembership, request, upsertOf.
  destruct (nextFault (world s)); simpl; eexists; eauto 8.
Qed.

Lemma matchedGroups_cons (gm : gmap string string) (nm : string) (names : list string) :
  matchedGroups gm (nm :: names) = matchedGroups gm [nm] ++ matchedGroups gm names.
Proof. unfold matchedGroups. simpl. now rewrite app_nil_r. Qed.

Lemma forOf_joinGroup (userId : string) (names : list string) (s : Run) :
  exists new,
    calls (world (snd (forOf names (joinGroup userId) s))) = calls (world s) ++ new /\
    (exists k, map (upsertOf userId) (matchedGroups (groupMap s) names)
               = map call new ++ k) /\
    (fst (forOf names (joinGroup userId) s) = Normal tt ->
     map call new = map (upsertOf userId) (matchedGroups (groupMap s) names)) /\
    setWorld (world s) (snd (forOf names (joinGroup userId) s)) = s.
Proof.
  revert s. induction names as [|nm names IH]; intros s.
  - exists []. simpl. rewrite app_nil_r. repeat split; [now exists [] | apply setWorld_same].
  - rewrite matchedGroups_cons. cbn [forOf]. unfold bind.
    destruct (joinGroup_cases userId nm s) as [[Hm Hs]|(g & st & Hm & Hs & Hr & _)].
    + rewrite Hs, Hm. simpl. apply IH.
    + rewrite Hm.
      destruct (joinGroup userId nm s) as [res s1] eqn:E. simpl in Hs, Hr. subst s1.
      destruct Hr as [->|[e ->]].
      * destruct (IH (setWorld (advance (upsertOf userId g) (nextFault (world s)) st
                                  (world s)) s))
          as (new & Hc & [k Hk] & Hn & Hw).
        exists ({| call := upsertOf userId g; outcome := nextFault (world s) |} :: new).
        cbn [groupMap setWorld world] in *. repeat split.
        -- rewrite Hc. simpl. now rewrite <- app_assoc.
        -- exists k. simpl. now rewrite Hk.
        -- intros Hres. simpl. now rewrite (Hn Hres).
        -- apply (setWorld_agree _ _ _ Hw).
      * exists [{| call := upsertOf userId g; outcome := nextFault (world s) |}].
        simpl. repeat split.
        -- eexists. reflexivity.
        -- discriminate.
        -- now destruct s.
Qed.

Lemma assignGroups_unique (r : ExcelRow) (userId : string) :
  preserves (fun s => uniqueKeys (group_memberships (store (world s))))
    (assignGroups r userId).
Proof. pres; intros; simpl; auto using upsertRow_unique. Qed.

(** Every membership in the table after the block was there before or is
    a pending membership of the member with role member. *)
Lemma assignGroups_rows (r : ExcelRow) (userId : string) (t0 : list GroupMembership) :
  preserves (fun s => forall m, In m (group_memberships (store (world s))) ->
                                In m t0 \/
                                (gm_user_id m = userId /\ gm_status m = "pending"
                                 /\ gm_role m = "member"))
    (assignGroups r userId).
Proof.
  pres; intros; simpl in *; auto.
  match goal with
  | H : In ?m (upsertRow _ _ _ _ _) |- _ =>
      unfold upsertRow in H; destruct (existsb _ _);
      [ apply in_map_iff in H as (y & Hy & Hin); destruct (sameKey _ _ y);
        [subst m; now right | subst y; auto]
      | apply in_app_iff in H as [Hin|[<-|[]]]; [auto | now right] ]
  end.
Qed.

Lemma split_comma_nonempty (s : string) : split_comma s <> [].
Proof.
  induction s as [|c s IH]; simpl; [discriminate|].
  destruct (Ascii.eqb c ","); [discriminate|].
  destruct (split_comma s); [contradiction | discriminate].
Qed.

Lemma split_comma_free (p : string) : commaFree p -> split_comma p = [p].
Proof.
  unfold commaFree. induction p as [|c p IH]; simpl; [reflexivity|].
  destruct (Ascii.eqb c ","); simpl; [discriminate|].
  intros H. now rewrite (IH H).
Qed.

Lemma split_comma_piece (p s : string) :
  commaFree p -> split_comma (p +:+ "," +:+ s) = p :: split_comma s.
Proof.
  unfold commaFree. induction p as [|c p IH]; intros H.
  - reflexivity.
  - cbn [every] in H. apply andb_true_iff in H as [Hc H].
    change (String c p +:+ "," +:+ s) with (String c (p +:+ "," +:+ s)).
    cbn [split_comma].
    destruct (Ascii.eqb c ","); [discriminate|].
    now rewrite (IH H).
Qed.

(** [split(',')] gives back the pieces of a text. *)
Lemma split_comma_join (pieces : list string) :
  pieces <> [] -> Forall commaFree pieces -> split_comma (joinComma pieces) = pieces.
Proof.
  induction pieces as [|p rest IH]; [contradiction|].
  intros _ H. inversion H as [|? ? Hp Hrest]; subst.
  destruct rest as [|q rest].
  - simpl. now apply split_comma_free.
  - change (joinComma (p :: q :: rest)) with (p +:+ "," +:+ joinComma (q :: rest)).
    rewrite (split_comma_piece _ _ Hp). f_equal. apply IH; [discriminate | exact Hrest].
Qed.

Lemma applyUpserts_cons (userId g : string) (gs : list string) (w : World) :
  applyUpserts userId (g :: gs) w =
  applyUpserts userId gs
    (advance (upsertOf userId g) Applied
       (setMemberships
          (upsertRow g userId "pending" "member" (group_memberships (store w)))
          (store w)) w).
Proof. reflexivity. Qed.

Lemma applyUpserts_table (userId : string) (gs : list string) (w : World) :
  group_memberships (store (applyUpserts userId gs w)) =
  fold_left (fun t g => upsertRow g userId "pending" "member" t) gs
    (group_memberships (store w)).
Proof.
  revert w. induction gs as [|g gs IH]; intros w; [reflexivity|].
  rewrite applyUpserts_cons, IH. reflexivity.
Qed.

Lemma applyUpserts_calls (userId : string) (gs : list string) (w : World) :
  calls (applyUpserts userId gs w) =
  calls w ++ map (fun g => appliedCall (upsertOf userId g)) gs.
Proof.
  revert w. induction gs as [|g gs IH]; intros w.
  - simpl. now rewrite app_nil_r.
  - rewrite applyUpserts_cons, IH. simpl. now rewrite <- app_assoc.
Qed.

(** With the calls applied, the loop over the names ends normally in the
    world of the upserts of the matched groups. *)
Lemma forOf_joinGroup_applied (userId : string) (names : list string) (s : Run) :
  appliesNext (length (matchedGroups (groupMap s) names)) (world s) ->
  forOf names (joinGroup userId) s =
  (Normal tt, setWorld (applyUpserts userId (matchedGroups (groupMap s) names) (world s)) s).
Proof.
  revert s. induction names as [|nm names IH]; intros s Ha.
  - simpl. unfold ret. now rewrite setWorld_same.
  - rewrite matchedGroups_cons in *. cbn [forOf]. unfold bind.
    unfold joinGroup, bind, get. cbn [fst snd].
    assert (matchedGroups (groupMap s) [nm] =
            match groupMap s !! nm with
            | Some g => if truthy g then [g] else []
            | None => []
            end) as Hm by (unfold matchedGroups; simpl; apply app_nil_r).
    rewrite Hm in *. clear Hm.
    destruct (groupMap s !! nm) as [g|] eqn:Eg; cbn [truthyOpt] in *.
    + destruct (truthy g) eqn:T; cbn [app length] in *.
      * apply appliesNext_S in Ha as [F Ha].
        unfold await, upsertMembership, request. rewrite F. cbn [fst snd orEmpty].
        unfold ret at 1. cbn [fst snd].
        rewrite IH; cbn [groupMap setWorld world].
        -- rewrite applyUpserts_cons. reflexivity.
        -- apply Ha.
      * unfold ret at 1. cbn [fst snd]. now apply IH.
    + unfold ret at 1. cbn [fst snd]. now apply IH.
Qed.

Section Upserts.

Variable u : string.

Lemma upsertRow_In (g : string) (t : list GroupMembership) :
  In (pendingMember g u) (upsertRow g u "pending" "member" t).
Proof.
  unfold upsertRow. destruct (existsb (sameKey g u) t) eqn:E.
  - apply existsb_exists in E as (m & Hin & Hm).
    apply in_map_iff. exists m. rewrite Hm. auto.
  - apply in_app_iff. right. now left.
Qed.

Lemma upsertRow_In_inv (g : string) (t : list GroupMembership) (m : GroupMembership) :
  In m (upsertRow g u "pending" "member" t) ->
  m = pendingMember g u \/ (In m t /\ sameKey g u m = false).
Proof.
  unfold upsertRow. destruct (existsb (sameKey g u) t) eqn:E.
  - intros H. apply in_map_iff in H as (y & Hy & Hin).
    destruct (sameKey g u y) eqn:Ey; [now left | subst y; auto].
  - intros H. apply in_app_iff in H as [H|[<-|[]]]; [|now left].
    right. split; [exact H|].
    destruct (sameKey g u m) eqn:Em; [|reflexivity].
    assert (existsb (sameKey g u) t = true) by (apply existsb_exists; eauto). congruence.
Qed.

Lemma upsertRow_other (g : string) (t : list GroupMembership) (m : GroupMembership) :
  sameKey g u m = false -> In m t -> In m (upsertRow g u "pending" "member" t).
Proof.
  intros Hm Hin. unfold upsertRow. destruct (existsb (sameKey g u) t).
  - apply in_map_iff. exists m. now rewrite Hm.
  - apply in_app_iff. now left.
Qed.

Lemma sameKey_pendingMember (g g' : string) :
  sameKey g u (pendingMember g' u) = String.eqb g' g.
Proof. unfold sameKey, pendingMember. simpl. rewrite String.eqb_refl. apply andb_true_r. Qed.

Lemma upsertRow_settles (g : string) (t : list GroupMembership) :
  settled u [g] (upsertRow g u "pending" "member" t).
Proof.
  intros g' [<-|[]]. split; [apply upsertRow_In|].
  intros m Hin Hm. apply upsertRow_In_inv in Hin as [->|[_ C]]; [reflexivity | congruence].
Qed.

Lemma upsertRow_keeps_settled (g : string) (gs : list string) (t : list GroupMembership) :
  settled u gs t -> settled u gs (upsertRow g u "pending" "member" t).
Proof.
  intros H g' Hg'. destruct (H g' Hg') as [H1 H2]. split.
  - destruct (String.eqb_spec g' g) as [->|Hne]; [apply upsertRow_In|].
    apply upsertRow_other; [|exact H1].
    rewrite sameKey_pendingMember. now apply String.eqb_neq.
  - intros m Hin Hm. apply upsertRow_In_inv in Hin as [->|[Hin _]]; [|now apply H2].
    rewrite sameKey_pendingMember in Hm. apply String.eqb_eq in Hm. now subst.
Qed.

Lemma settled_app (a b : list string) (t : list GroupMembership) :
  settled u a t -> settled u b t -> settled u (a ++ b) t.
Proof. intros Ha Hb g Hg. apply in_app_iff in Hg as [Hg|Hg]; auto. Qed.

Lemma fold_keeps_settled (gs hs : list string) (t : list GroupMembership) :
  settled u hs t -> settled u hs (fold_left (fun t g => upsertRow g u "pending" "member" t) gs t).
Proof.
  revert t. induction gs as [|g gs IH]; intros t H; [exact H|].
  simpl. apply IH. now apply upsertRow_keeps_settled.
Qed.

Lemma fold_settles (gs : list string) (t : list GroupMembership) :
  settled u gs (fold_left (fun t g => upsertRow g u "pending" "member" t) gs t).
Proof.
  revert t. induction gs as [|g gs IH]; intros t; [intros g []|].
  simpl. apply (settled_app [g] gs); [|apply IH].
  apply fold_keeps_settled, upsertRow_settles.
Qed.

Lemma upsertRow_settled (g : string) (t : list GroupMembership) :
  settled u [g] t -> upsertRow g u "pending" "member" t = t.
Proof.
  intros H. destruct (H g (or_introl eq_refl)) as [H1 H2].
  unfold upsertRow.
  assert (existsb (sameKey g u) t = true) as ->.
  { apply existsb_exists. exists (pendingMember g u). split; [exact H1|].
    rewrite sameKey_pendingMember. apply String.eqb_refl. }
  rewrite <- (map_id t) at 2. apply map_ext_in. intros m Hin.
  destruct (sameKey g u m) eqn:Em; [|reflexivity].
  symmetry. now apply H2.
Qed.

Lemma fold_settled (gs : list string) (t : list GroupMembership) :
  settled u gs t -> fold_left (fun t g => upsertRow g u "pending" "member" t) gs t = t.
Proof.
  induction gs as [|g gs IH]; intros H; [reflexivity|].
  simpl. rewrite upsertRow_settled.
  - apply IH. intros g' Hg'. apply H. now right.
  - intros g' [<-|[]]. apply H. now left.
Qed.

Lemma fold_frame (gs : list string) (t : list GroupMembership) (m : GroupMembership) :
  (forall g, In g gs -> sameKey g u m = false) ->
  In m (fold_left (fun t g => upsertRow g u "pending" "member" t) gs t) <-> In m t.
Proof.
  revert t. induction gs as [|g gs IH]; intros t H; [reflexivity|].
  simpl. rewrite IH by (intros g' Hg'; apply H; now right).
  assert (sameKey g u m = false) as Hm by (apply H; now left).
  split.
  - intros Hin. apply upsertRow_In_inv in Hin as [->|[Hin _]]; [|exact Hin].
    rewrite sameKey_pendingMember, String.eqb_refl in Hm. discriminate.
  - now apply upsertRow_other.
Qed.

Lemma fold_unique (gs : list string) (t : list GroupMembership) :
  uniqueKeys t -> uniqueKeys (fold_left (fun t g => upsertRow g u "pending" "member" t) gs t).
Proof.
  revert t. induction gs as [|g gs IH]; intros t H; [exact H|].
  simpl. apply IH. now apply upsertRow_unique.
Qed.

Lemma unique_filter (g : string) (t : list GroupMembership) :
  uniqueKeys t -> length (List.filter (sameKey g u) t) <= 1.
Proof.
  unfold uniqueKeys. induction t as [|m t IH]; simpl; [lia|].
  intros H. apply NoDup_cons in H as [Hm H].
  destruct (sameKey g u m) eqn:Em; [|auto].
  simpl. assert (List.filter (sameKey g u) t = []) as ->; [|simpl; lia].
  destruct (List.filter (sameKey g u) t) as [|m' l] eqn:E; [reflexivity|].
  assert (In m' (List.filter (sameKey g u) t)) as Hin by (rewrite E; now left).
  apply filter_In in Hin as [Hin Hm'].
  exfalso. apply Hm. apply list_elem_of_In.
  apply sameKey_spec in Em, Hm'. rewrite Em, <- Hm'. now apply in_map.
Qed.

Lemma unique_one (g : string) (t : list GroupMembership) :
  uniqueKeys t -> In (pendingMember g u) t -> length (List.filter (sameKey g u) t) = 1.
Proof.
  intros H Hin. pose proof (unique_filter g t H) as Hle.
  assert (In (pendingMember g u) (List.filter (sameKey g u) t)) as Hf.
  { apply filter_In. split; [exact Hin|]. rewrite sameKey_pendingMember. apply String.eqb_refl. }
  destruct (List.filter (sameKey g u) t); [destruct Hf | simpl in *; lia].
Qed.

End Upserts.

(** C8: let the group cell of a row be the pieces [pieces] written with
    commas between them, no piece holding a comma.  The groups asked for
    are those that the pre-loaded map of groups gives for the pieces,
    trimmed and in lower case, in the order of the pieces (none when the
    cell or the member id is empty); a piece that the map does not know
    asks for nothing.  The calls of the block of lines 318-338 are exactly
    one upsert per group asked for, keyed by the group id and the member
    id, with status pending and role member, when the block ends normally,
    and a beginning of these when a call rejects.  The block changes
    nothing of the run but the service, so it adds no error entry.  No
    (group, member) pair gets a second membership.  When the service
    applies the calls, the block ends normally, every group asked for has
    the pending membership of the member (exactly one when no pair had two
    before), every membership of another pair is as it was, and a block for
    the same groups and member run afterwards leaves the table as it
    is. *)
Theorem assignGroups_upserts (r : ExcelRow) (userId : string) (s : Run)
  (pieces : list string) :
  pieces <> [] ->
  Forall commaFree pieces ->
  orEmpty (groupMemberships r) = joinComma pieces ->
  let asked := groupsAsked (groupMap s) pieces userId in
  let s' := snd (assignGroups r userId s) in
  let new := drop (length (calls (world s))) (calls (world s')) in
  let expected := map (upsertOf userId) asked in
  let before := group_memberships (store (world s)) in
  let after := group_memberships (store (world s')) in
  (exists k, expected = map call new ++ k) /\
  (fst (assignGroups r userId s) = Normal tt -> map call new = expected) /\
  errors s' = errors s /\
  setWorld (world s) s' = s /\
  (uniqueKeys before -> uniqueKeys after) /\
  (forall m, In m after ->
             In m before \/
             (gm_user_id m = userId /\ gm_status m = "pending" /\ gm_role m = "member")) /\
  (appliesNext (length asked) (world s) ->
   fst (assignGroups r userId s) = Normal tt /\
   new = map (fun g => appliedCall (upsertOf userId g)) asked /\
   (forall g, In g asked ->
      In (pendingMember g userId) after /\
      (forall m, In m after -> sameKey g userId m = true -> m = pendingMember g userId) /\
      (uniqueKeys before -> length (List.filter (sameKey g userId) after) = 1)) /\
   (forall m, (forall g, In g asked -> sameKey g userId m = false) ->
      In m after <-> In m before) /\
   (forall s2, groupMap s2 = groupMap s ->
      group_memberships (store (world s2)) = after ->
      appliesNext (length asked) (world s2) ->
      fst (assignGroups r userId s2) = Normal tt /\
      group_memberships (store (world (snd (assignGroups r userId s2)))) = after)).
Proof.
  intros Hne Hfree Hcell asked s' new expected before after.
  assert (groupsOfRow (groupMap s) r userId = asked) as Hasked.
  { subst asked. unfold groupsOfRow, groupsAsked, groupNamesOf.
    rewrite Hcell, (split_comma_join pieces Hne Hfree).
    rewrite <- Hcell. now destruct (groupMemberships r). }
  assert (forall s2, groupMap s2 = groupMap s ->
            appliesNext (length asked) (world s2) ->
            assignGroups r userId s2 =
            (Normal tt, setWorld (applyUpserts userId asked (world s2)) s2)) as Hrun.
  { intros s2 Hg Ha. rewrite <- Hasked in *. unfold assignGroups, groupsOfRow in *.
    rewrite <- Hg in *.
    destruct (truthyOpt (groupMemberships r) && truthy userId).
    - now apply forOf_joinGroup_applied.
    - simpl. unfold ret. now rewrite setWorld_same. }
  assert ((exists k, expected = map call new ++ k) /\
          (fst (assignGroups r userId s) = Normal tt -> map call new = expected) /\
          setWorld (world s) s' = s) as (H1 & H2 & H3).
  { subst s' new expected. rewrite <- Hasked. unfold assignGroups, groupsOfRow.
    destruct (truthyOpt (groupMemberships r) && truthy userId).
    - destruct (forOf_joinGroup userId (groupNamesOf (orEmpty (groupMemberships r))) s)
        as (new & Hc & Hk & Hn & Hw).
      rewrite Hc, drop_app_length. auto.
    - simpl. rewrite drop_all. repeat split; [now exists [] | apply setWorld_same]. }
  split; [exact H1|]. split; [exact H2|]. split.
  { exact (f_equal errors H3). }
  split; [exact H3|]. split.
  { apply (assignGroups_unique r userId s). }
  split.
  { apply (assignGroups_rows r userId (group_memberships (store (world s))) s). auto. }
  intros Ha.
  assert (after = fold_left (fun t g => upsertRow g userId "pending" "member" t) asked before)
    as Hafter.
  { subst after s'. rewrite (Hrun s eq_refl Ha). cbn [snd world setWorld].
    apply applyUpserts_table. }
  split; [now rewrite (Hrun s eq_refl Ha)|]. split.
  { subst new s'. rewrite (Hrun s eq_refl Ha). cbn [snd world setWorld].
    now rewrite applyUpserts_calls, drop_app_length. }
  split.
  { intros g Hg. rewrite Hafter.
    destruct (fold_settles userId asked before g Hg) as [Hin Hall].
    split; [exact Hin|]. split; [exact Hall|].
    intros Hu. apply unique_one; [now apply fold_unique | exact Hin]. }
  split.
  { intros m Hm. rewrite Hafter. now apply fold_frame. }
  intros s2 Hg Ht Ha2. rewrite (Hrun s2 Hg Ha2). cbn [fst snd world setWorld].
  split; [reflexivity|].
  rewrite applyUpserts_table, Ht. apply fold_settled.
  rewrite Hafter. apply fold_settles.
Qed.

(** ** The writes on the job record *)

Lemma progressPatch_onlyCounters (s : Run) : onlyCounters (progressPatch s).
Proof. unfold onlyCounters. simpl. repeat split; discriminate. Qed.

Lemma progressPatch_frame (id : string) (s : Run) (l : list ImportJob) :
  map jobFrame (map (fun j => if String.eqb (job_id j) id
                              then applyJobPatch (progressPatch s) j else j) l)
  = map jobFrame l.
Proof.
  rewrite map_map. apply map_ext. intros j. now destruct (String.eqb (job_id j) id).
Qed.

Lemma startPatch_log (id : string) (t n : nat) (l : list ImportJob) :
  map job_error_log (map (fun j => if String.eqb (job_id j) id
                                   then applyJobPatch (startPatch t n) j else j) l)
  = map job_error_log l.
Proof.
  rewrite map_map. apply map_ext. intros j. now destruct (String.eqb (job_id j) id).
Qed.

Section JobWrites.

Variable dateParses : string -> bool.
Variable ilike : string -> string -> bool.

Ltac emits_side H :=
  intros; simpl;
  first
    [ assumption
    | apply emits_advance;
      [ assumption
      | first [ apply H; first [exact I | apply progressPatch_onlyCounters]
              | unfold logAtEnd; simpl; intros; auto; congruence ] ] ].

(** The loop makes no write on the job record but progress writes. *)
Lemma loop_emits (P : Event -> Prop) (w0 : World) (jobId : string)
  (rows : list ExcelRow) (i : nat) :
  (forall e, progressWrite e -> P e) ->
  preserves (emits P w0) (loop dateParses ilike jobId rows i).
Proof.
  intros H. revert i. induction rows as [|r rows IH]; intros i; simpl.
  - apply preserves_ret.
  - apply preserves_bind; [pres; emits_side H | intros _; apply IH].
Qed.

Lemma progressWrite_logAtEnd (e : Event) : progressWrite e -> logAtEnd e.
Proof.
  destruct e as [[] o]; simpl; auto. intros (_ & _ & _ & E & _) C. congruence.
Qed.

Lemma processImportBody_emits_log (w0 : World) (jobId : string) (rows : list ExcelRow) :
  preserves (emits logAtEnd w0) (processImportBody dateParses ilike jobId rows).
Proof.
  unfold processImportBody, importRows.
  repeat first [apply loop_emits; exact progressWrite_logAtEnd | pres_step].
  all: emits_side progressWrite_logAtEnd.
Qed.

(** The loop leaves every job record as it is, the three counters
    apart. *)
Lemma loop_jobFrame (L : list _) (jobId : string) (rows : list ExcelRow) (i : nat) :
  preserves (fun s => map jobFrame (import_jobs (store (world s))) = L)
    (loop dateParses ilike jobId rows i).
Proof.
  revert i. induction rows as [|r rows IH]; intros i; simpl.
  - apply preserves_ret.
  - apply preserves_bind; [|intros _; apply IH].
    pres; intros; simpl; auto.
    + match goal with
      | |- context [List.filter ?f ?l] => destruct (List.filter f l) as [|? [|? ?]]; simpl
      end; auto.
    + now rewrite progressPatch_frame.
Qed.

(** Until its final update the run leaves the error log of every job
    record as it is. *)
Lemma importRows_error_log (L : list (option (list ImportError))) (jobId : string)
  (rows : list ExcelRow) :
  preserves (fun s => map job_error_log (import_jobs (store (world s))) = L)
    (importRows dateParses ilike jobId rows).
Proof.
  unfold importRows. apply preserves_bind; [|intros _; apply preserves_bind; [|intros _]].
  - pres; intros; simpl; auto. now rewrite startPatch_log.
  - pres; intros; simpl; auto.
  - intros s H.
    pose proof (loop_jobFrame (map jobFrame (import_jobs (store (world s)))) jobId rows 0 s
                  eq_refl) as F.
    rewrite <- H.
    assert (forall l l' : list ImportJob,
               map jobFrame l = map jobFrame l' -> map job_error_log l = map job_error_log l')
      as E.
    { induction l as [|j l IHl]; intros [|j' l']; simpl; try discriminate; auto.
      intros [= ? ? ? ? ? ? ? ? ? ?]. f_equal; auto. }
    apply E, F.
Qed.

End JobWrites.

Section ProgressTheorem.

Variable dateParses : string -> bool.
Variable ilike : string -> string -> bool.

Lemma flushProgress_cases (jobId : string) (s : Run) :
  flushProgress jobId s = (Normal tt, s) \/
  exists st,
    snd (flushProgress jobId s) =
      setWorld (advance (JobUpdate jobId (progressPatch s)) (nextFault (world s)) st
                  (world s)) s /\
    (st = store (world s) \/
     st = setJobs (map (fun j => if String.eqb (job_id j) jobId
                                 then applyJobPatch (progressPatch s) j else j)
                     (import_jobs (store (world s))))
            (store (world s))).
Proof.
  unfold flushProgress, bind, get.
  destruct (Nat.eqb (processedCount s mod 10) 0); [|now left].
  right. unfold await, updateJob, request.
  destruct (nextFault (world s)); simpl; eexists; (split; [reflexivity|]); auto.
Qed.

(** C10: the progress write of the loop is an update of the job whose
    object mentions the three counters and nothing else, and it leaves
    every other column of every job record as it was; the loop makes no
    other write on the job record; in the whole run the only updates that
    mention the error log are those that set the status completed or
    failed; and from the start of the run until its final update the
    stored error log of every job is the one that was stored before the
    run, whatever the run has collected in [errors]. *)
Theorem progress_writes_counters_only (jobId createdBy : string) (rows : list ExcelRow)
  (i : nat) (s : Run) (w : World) :
  let s' := snd (flushProgress jobId s) in
  ((calls (world s') = calls (world s) \/
    exists o, calls (world s') =
              calls (world s) ++ [{| call := JobUpdate jobId (progressPatch s);
                                     outcome := o |}]) /\
   onlyCounters (progressPatch s) /\
   map jobFrame (import_jobs (store (world s'))) =
     map jobFrame (import_jobs (store (world s)))) /\
  Forall progressWrite
    (drop (length (calls (world s)))
       (calls (world (snd (loop dateParses ilike jobId rows i s))))) /\
  Forall logAtEnd
    (drop (length (calls w))
       (calls (snd (processImport dateParses ilike jobId rows createdBy w)))) /\
  map job_error_log
    (import_jobs (store (world (snd (importRows dateParses ilike jobId rows
                                       (initialRun w)))))) =
    map job_error_log (import_jobs (store w)).
Proof.
  intros s'. split; [|split; [|split]].
  - subst s'. destruct (flushProgress_cases jobId s) as [->|(st & -> & Hst)].
    + split; [now left|]. split; [apply progressPatch_onlyCounters | reflexivity].
    + split; [right; eexists; reflexivity|].
      split; [apply progressPatch_onlyCounters|].
      destruct Hst as [->| ->]; simpl; [reflexivity | apply progressPatch_frame].
  - apply emits_drop.
    apply (loop_emits dateParses ilike progressWrite (world s) jobId rows i); auto.
    apply emits_start.
  - unfold processImport. cbn [snd].
    apply (emits_drop logAtEnd w).
    apply (processImportBody_emits_log dateParses ilike w jobId rows (initialRun w)).
    apply (emits_start logAtEnd (initialRun w)).
  - apply (importRows_error_log dateParses ilike _ jobId rows (initialRun w)).
    reflexivity.
Qed.

End ProgressTheorem.

(** ** The status of the job *)

(** The status that an applied update leaves in a job record, as
    [stepStatus] has it. *)
Lemma applyJobPatch_status (p : JobPatch) (j : ImportJob) :
  job_status (applyJobPatch p j) =
  match set_status p with
  | Some st => st
  | None => job_status j
  end.
Proof. reflexivity. Qed.

Lemma forwardOnly_app (jid : string) (cur : option JobStatus) (a b : list Event) :
  forwardOnly jid cur (a ++ b) =
  forwardOnly jid cur a && forwardOnly jid (statusAfter jid cur a) b.
Proof.
  revert cur. induction a as [|e a IH]; intros cur; simpl; [reflexivity|].
  now rewrite IH, andb_assoc.
Qed.

Lemma statusAfter_app (jid : string) (cur : option JobStatus) (a b : list Event) :
  statusAfter jid cur (a ++ b) = statusAfter jid (statusAfter jid cur a) b.
Proof. apply fold_left_app. Qed.

Lemma track_start (jid : string) (w : World) : track jid w None w.
Proof. exists []. now rewrite app_nil_r. Qed.

Lemma track_advance (jid : string) (w0 w : World) (cur : option JobStatus)
  (c : Call) (o : Fault) (st : Store) :
  track jid w0 cur w ->
  allowed jid cur {| call := c; outcome := o |} = true ->
  track jid w0 (stepStatus jid cur {| call := c; outcome := o |}) (advance c o st w).
Proof.
  intros (new & Hc & Hf & Hs) Ha. exists (new ++ [{| call := c; outcome := o |}]).
  split; [|split].
  - simpl. now rewrite Hc, app_assoc.
  - rewrite forwardOnly_app, Hf, Hs. simpl. now rewrite Ha.
  - rewrite statusAfter_app, Hs. reflexivity.
Qed.

Lemma track_forward (jid : string) (w0 w : World) (cur : option JobStatus) :
  track jid w0 cur w ->
  forwardOnly jid None (drop (length (calls w0)) (calls w)) = true.
Proof. intros (new & Hc & Hf & _). now rewrite Hc, drop_app_length. Qed.

Lemma alive_sound (jid : string) (w0 w : World) : alive jid w0 w -> sound jid w0 w.
Proof. intros (c & H & _). now exists (Some c). Qed.

Lemma alive_offJob (jid : string) (w0 w : World) (c : Call) (o : Fault) (st : Store) :
  alive jid w0 w -> offJob c = true -> alive jid w0 (advance c o st w).
Proof.
  intros (cur & H & T) Hc. exists cur. split; [|exact T].
  replace (Some cur) with (stepStatus jid (Some cur) {| call := c; outcome := o |})
    by (destruct c; try discriminate; destruct o; reflexivity).
  apply track_advance; [exact H|]. destruct c; try discriminate; reflexivity.
Qed.

(** An update of the live job that sets no status, or the status
    processing, keeps it alive. *)
Lemma alive_update (jid : string) (w0 w : World) (p : JobPatch) (o : Fault) (st : Store) :
  alive jid w0 w ->
  set_status p = None \/ set_status p = Some processing ->
  alive jid w0 (advance (JobUpdate jid p) o st w).
Proof.
  intros (cur & H & T) Hp.
  pose proof (track_advance jid w0 w (Some cur) (JobUpdate jid p) o st H) as A.
  assert (allowed jid (Some cur) {| call := JobUpdate jid p; outcome := o |} = true) as Ha.
  { unfold allowed. simpl. rewrite String.eqb_refl, T. simpl.
    destruct Hp as [-> | ->]; [reflexivity|]. now destruct cur. }
  specialize (A Ha). unfold stepStatus in A. simpl in A. rewrite String.eqb_refl in A.
  destruct o; try (exists cur; split; [exact A | exact T]).
  destruct Hp as [E | E]; rewrite E in A.
  - exists cur. split; [exact A | exact T].
  - exists processing. split; [exact A | reflexivity].
Qed.

(** An update of the live job that sets a terminal status is legitimate;
    the job stays alive when the update is not applied. *)
Lemma alive_terminal (jid : string) (w0 w : World) (p : JobPatch) (o : Fault) (st : Store) :
  alive jid w0 w ->
  set_status p = Some completed \/ set_status p = Some failed ->
  sound jid w0 (advance (JobUpdate jid p) o st w) /\
  (o <> Applied -> alive jid w0 (advance (JobUpdate jid p) o st w)).
Proof.
  intros (cur & H & T) Hp.
  pose proof (track_advance jid w0 w (Some cur) (JobUpdate jid p) o st H) as A.
  assert (allowed jid (Some cur) {| call := JobUpdate jid p; outcome := o |} = true) as Ha.
  { unfold allowed. simpl. rewrite String.eqb_refl, T. simpl.
    destruct Hp as [-> | ->]; now destruct cur. }
  specialize (A Ha). split; [eexists; exact A|].
  intros Ho. exists cur. split; [|exact T].
  unfold stepStatus in A. simpl in A. destruct o; [congruence | exact A | exact A].
Qed.

Lemma hoare_request {A : Type} (P : World -> Prop) (Q : Result (Answer A) -> World -> Prop)
  (c : Call) (run : World -> Answer A * Store) :
  (forall w, P w -> nextFault w = Applied ->
     Q (Normal (fst (run w))) (advance c Applied (snd (run w)) w)) ->
  (forall w msg, P w -> nextFault w = Refused msg ->
     Q (Normal (failedWith msg)) (advance c (Refused msg) (store w) w)) ->
  (forall w e, P w -> nextFault w = Rejected e ->
     Q (Thrown e) (advance c (Rejected e) (store w) w)) ->
  hoare P (request c run) Q.
Proof.
  intros Ha Hr Hj w Hp. unfold request. destruct (nextFault w) eqn:F; simpl; auto.
Qed.

Section StatusFacts.

Variable dateParses : string -> bool.
Variable ilike : string -> string -> bool.

Ltac alive_side :=
  intros; simpl;
  first
    [ assumption
    | apply alive_offJob; [assumption | reflexivity]
    | apply alive_update; [assumption | simpl; auto] ].

Lemma loop_alive (jid : string) (w0 : World) (rows : list ExcelRow) (i : nat) :
  preserves (fun s => alive jid w0 (world s)) (loop dateParses ilike jid rows i).
Proof.
  revert i. induction rows as [|r rows IH]; intros i; simpl.
  - apply preserves_ret.
  - apply preserves_bind; [pres; alive_side | intros _; apply IH].
Qed.

Lemma importRows_alive (jid : string) (w0 : World) (rows : list ExcelRow) :
  preserves (fun s => alive jid w0 (world s)) (importRows dateParses ilike jid rows).
Proof.
  unfold importRows. repeat first [apply loop_alive | pres_step]; alive_side.
Qed.

(** The final update: legitimate, and the job is still alive if the
    update throws. *)
Lemma finish_sound (jid : string) (w0 : World) (st : JobStatus) :
  st = completed \/ st = failed ->
  hoare (fun s => alive jid w0 (world s)) (finish jid st)
    (fun res s => sound jid w0 (world s) /\
                  (forall e, res = Thrown e -> alive jid w0 (world s))).
Proof.
  intros Hst. unfold finish. apply hoare_read. intros f.
  apply hoare_conseq with (P' := fun s => alive jid w0 (world s))
                          (Q' := fun res s => sound jid w0 (world s) /\
                                   (forall e, res = Thrown e -> alive jid w0 (world s)));
    [|now intros s [H _]|auto].
  apply hoare_after; [pres; auto | | |].
  - intros t.
    apply (hoare_bind _ (fun res s => sound jid w0 (world s) /\
                                      (forall e, res = Thrown e -> alive jid w0 (world s)))).
    + unfold updateJob. apply hoare_await_request; intros r; intros; simpl.
      * split; [|discriminate].
        apply (alive_terminal jid w0 (world r) (finalPatch st f t) Applied); auto.
        simpl. destruct Hst as [E | E]; rewrite E; auto.
      * split; [|intros _ _];
          apply (alive_terminal jid w0 (world r) (finalPatch st f t) (Refused msg)); auto;
          try discriminate; simpl; destruct Hst as [E | E]; rewrite E; auto.
      * split; [|intros _ _];
          apply (alive_terminal jid w0 (world r) (finalPatch st f t) (Rejected e)); auto;
          try discriminate; simpl; destruct Hst as [E | E]; rewrite E; auto.
    + intros a. apply hoare_ret. intros s [H _]. split; [exact H | discriminate].
    + intros s [H _]. split; [exact H | discriminate].
    + intros e s [H1 H2]. split; [exact H1|]. intros e' _. now apply (H2 e).
  - intros s H. split; [now apply alive_sound | discriminate].
  - intros e s H. split; [now apply alive_sound | auto].
Qed.

Lemma processImportBody_sound (jid : string) (w0 : World) (rows : list ExcelRow) :
  hoare (fun s => alive jid w0 (world s)) (processImportBody dateParses ilike jid rows)
    (fun _ s => sound jid w0 (world s)).
Proof.
  unfold processImportBody.
  apply (hoare_tryCatch _ (fun res s => sound jid w0 (world s) /\
                                        (forall e, res = Thrown e -> alive jid w0 (world s)))).
  - apply (hoare_bind _ (fun _ s => alive jid w0 (world s))).
    + apply preserves_hoare, importRows_alive.
    + intros _. apply finish_sound. now left.
    + intros s H. split; [now apply alive_sound | discriminate].
    + intros e s H. split; [now apply alive_sound | auto].
  - intros e.
    apply hoare_conseq with (P' := fun s => alive jid w0 (world s))
                            (Q' := fun _ s => sound jid w0 (world s));
      [|intros s [_ H]; now apply (H e)|auto].
    apply (hoare_bind _ (fun _ s => sound jid w0 (world s))).
    + apply hoare_conseq
        with (P' := fun s => alive jid w0 (world s))
             (Q' := fun (res : Result unit) s =>
                      sound jid w0 (world s) /\
                      (forall e, res = Thrown e -> alive jid w0 (world s)));
        [apply finish_sound; now right | auto | intros ? ? [H _]; exact H].
    + intros _. apply hoare_throw. auto.
    + auto.
    + auto.
  - now intros a s [H _].
  - now intros s [H _].
Qed.

Lemma processImport_sound (jid createdBy : string) (w0 w : World) (rows : list ExcelRow) :
  alive jid w0 w ->
  sound jid w0 (snd (processImport dateParses ilike jid rows createdBy w)).
Proof.
  intros H. unfold processImport. cbn [snd].
  apply (processImportBody_sound jid w0 rows (initialRun w)). exact H.
Qed.

End StatusFacts.

Lemma preserves_now (P : World -> Prop) : preserves P now.
Proof. intros w H. exact H. Qed.

Lemma respond_handled (jid : string) (w0 : World) (code : nat) (msg : string) :
  hoare (sound jid w0) (respond code msg) (handled jid w0).
Proof. intros w H. simpl. now exists {| res_status := code; res_body := Failure msg |}, None. Qed.

Lemma hoare_now {B : Type} (P : World -> Prop) (Q : Result B -> World -> Prop)
  (k : nat -> M World B) :
  (forall t, hoare P (k t) Q) -> hoare P (bind now k) Q.
Proof. intros H w Hw. apply (H (clock w) w Hw). Qed.

(** The rejection of a submission: one update of the live job, then the
    response. *)
Lemma reject_attempted (jid : string) (w0 : World) (msg : string) (d : ErrorData)
  (code : nat) (answer : string) :
  hoare (alive jid w0)
    (let* t := now in
     updateJob jid (rejectPatch msg d t) ;;
     respond code answer)
    (attempted jid w0).
Proof.
  apply hoare_now. intros t.
  apply (hoare_bind _ (fun res w => sound jid w0 w /\ res <> ContinueLoop)).
  - unfold updateJob. apply hoare_request; intros w; intros; (split; [|discriminate]).
    + apply (alive_terminal jid w0 w (rejectPatch msg d t) Applied); simpl; auto.
    + apply (alive_terminal jid w0 w (rejectPatch msg d t) (Refused msg0)); simpl; auto.
    + apply (alive_terminal jid w0 w (rejectPatch msg d t) (Rejected e)); simpl; auto.
  - intros a w [H _]. left. now apply respond_handled.
  - now intros w [_ H].
  - intros e w [H _]. right. eauto.
Qed.

Lemma insertJob_alive (file_name file_url createdBy : string) (w0 : World) :
  hoare (fun w => w = w0) (insertJob file_name file_url pending createdBy)
    (fun res w =>
       match res with
       | Normal ins =>
           (ans_error ins <> None /\ sound (genId (clock w0)) w0 w) \/
           (exists j, ins = answered j /\ job_id j = genId (clock w0) /\
                      alive (genId (clock w0)) w0 w)
       | ContinueLoop => False
       | Thrown _ => sound (genId (clock w0)) w0 w
       end).
Proof.
  unfold insertJob. apply hoare_request; intros w; intros; subst w.
  - right. eexists. split; [reflexivity|]. split; [reflexivity|].
    exists pending. split; [|reflexivity].
    apply (track_advance (genId (clock w0)) w0 w0 None
             (JobInsert file_name file_url pending createdBy) Applied);
      [apply track_start | reflexivity].
  - left. split; [discriminate|]. eexists.
    apply (track_advance (genId (clock w0)) w0 w0 None
             (JobInsert file_name file_url pending createdBy) (Refused msg));
      [apply track_start | reflexivity].
  - eexists.
    apply (track_advance (genId (clock w0)) w0 w0 None
             (JobInsert file_name file_url pending createdBy) (Rejected e));
      [apply track_start | reflexivity].
Qed.

Lemma postExcel_handled (req : Request) (w0 : World) :
  handled (genId (clock w0)) w0 (fst (postExcel req w0)) (snd (postExcel req w0)).
Proof.
  set (jid := genId (clock w0)).
  assert (sound jid w0 w0) as S0 by (eexists; apply track_start).
  apply (hoare_tryCatch (fun w => w = w0) (attempted jid w0) (handled jid w0));
    [ | | | | reflexivity].
  - destruct (req_file req) as [file|].
    + destruct (negb (truthyOpt (req_user_id req))).
      * intros w ->. left. now apply respond_handled.
      * cbv zeta.
        eapply hoare_bind; [apply insertJob_alive | | intros w [] | ].
        -- intros ins. cbv beta iota.
           destruct (ans_error ins) as [msg|] eqn:Ee.
           ++ intros w [[_ H]|(j & -> & _)]; [|discriminate].
              left. now apply respond_handled.
           ++ destruct (ans_data ins) as [importJob|] eqn:Ed.
              ** apply hoare_conseq with (P' := fun w => job_id importJob = jid /\ alive jid w0 w)
                                       (Q' := attempted jid w0);
                   [ | intros w [[C _]|(j & -> & Hj & H)];
                       [congruence | injection Ed as <-; auto] | auto].
                 destruct (parseExcelFile (content file)) as [parseError|rows].
                 --- intros w [-> H]. now apply reject_attempted.
                 --- destruct (Nat.eqb (length rows) 0).
                     +++ intros w [-> H]. now apply reject_attempted.
                     +++ destruct (Nat.ltb 5000 (length rows)).
                         *** intros w [-> H]. now apply reject_attempted.
                         *** intros w [Hj H]. left. simpl. eexists _, (Some _).
                             split; [reflexivity|]. simpl. auto.
              ** intros w [[C _]|(j & -> & _)]; [congruence | discriminate].
        -- intros e w H. right. eauto.
    + intros w ->. left. now apply respond_handled.
  - intros e. intros w [(resp & launch & C & _)|[_ H]]; [discriminate|].
    now apply respond_handled.
  - intros a w [H|[[e C] _]]; [exact H | discriminate].
  - intros w [(resp & launch & C & _)|[[e C] _]]; discriminate.
Qed.

Lemma tracked_off (jid : string) (w0 w : World) (c : Call) (o : Fault) (st : Store) :
  tracked jid w0 w -> offJob c = true -> import_jobs st = import_jobs (store w) ->
  tracked jid w0 (advance c o st w).
Proof.
  intros (new & Hc & Hf) Hoff Hj. exists (new ++ [{| call := c; outcome := o |}]).
  split; [simpl; now rewrite Hc, app_assoc|].
  unfold storedStatus. simpl. rewrite Hj, statusAfter_app. simpl.
  replace (stepStatus jid (statusAfter jid None new) {| call := c; outcome := o |})
    with (statusAfter jid None new)
    by (destruct c; try discriminate; destruct o; reflexivity).
  exact Hf.
Qed.

Lemma tracked_skipped (jid : string) (w0 w : World) (c : Call) (o : Fault) :
  tracked jid w0 w -> o <> Applied ->
  tracked jid w0 (advance c o (store w) w).
Proof.
  intros (new & Hc & Hf) Ho.
  exists (new ++ [{| call := c; outcome := o |}]).
  split; [simpl; now rewrite Hc, app_assoc|].
  simpl. rewrite statusAfter_app. simpl.
  replace (stepStatus jid (statusAfter jid None new) {| call := c; outcome := o |})
    with (statusAfter jid None new)
    by (destruct c, o; try congruence; reflexivity).
  exact Hf.
Qed.

Lemma filter_patch (jid : string) (p : JobPatch) (l : list ImportJob) :
  List.filter (fun j => String.eqb (job_id j) jid)
    (map (fun j => if String.eqb (job_id j) jid then applyJobPatch p j else j) l)
  = map (applyJobPatch p) (List.filter (fun j => String.eqb (job_id j) jid) l).
Proof.
  induction l as [|j l IH]; simpl; [reflexivity|].
  destruct (String.eqb (job_id j) jid) eqn:E; simpl; rewrite E; simpl; now rewrite IH.
Qed.

Lemma filter_patch_other (jid id : string) (p : JobPatch) (l : list ImportJob) :
  id <> jid ->
  List.filter (fun j => String.eqb (job_id j) jid)
    (map (fun j => if String.eqb (job_id j) id then applyJobPatch p j else j) l)
  = List.filter (fun j => String.eqb (job_id j) jid) l.
Proof.
  intros Hne. induction l as [|j l IH]; simpl; [reflexivity|].
  destruct (String.eqb_spec (job_id j) id) as [E|E]; simpl.
  - destruct (String.eqb_spec (job_id j) jid) as [E'|E']; [congruence | exact IH].
  - destruct (String.eqb (job_id j) jid); now rewrite IH.
Qed.

Lemma tracked_update (jid : string) (w0 w : World) (id : string) (p : JobPatch) :
  tracked jid w0 w ->
  tracked jid w0
    (advance (JobUpdate id p) Applied
       (setJobs (map (fun j => if String.eqb (job_id j) id then applyJobPatch p j else j)
                   (import_jobs (store w)))
          (store w)) w).
Proof.
  intros (new & Hc & Hf).
  exists (new ++ [{| call := JobUpdate id p; outcome := Applied |}]).
  split; [simpl; now rewrite Hc, app_assoc|].
  unfold storedStatus in *. simpl. rewrite statusAfter_app. simpl.
  unfold stepStatus. simpl.
  destruct (String.eqb_spec id jid) as [->|Hne].
  - rewrite filter_patch.
    rewrite Forall_forall in Hf. apply Forall_forall. intros x Hx.
    apply list_elem_of_In, in_map_iff in Hx as (j' & <- & Hj').
    apply in_map_iff in Hj' as (j & <- & Hj).
    assert (statusAfter jid None new = Some (job_status j)) as E.
    { apply Hf. apply list_elem_of_In, in_map_iff. eauto. }
    rewrite E, applyJobPatch_status. now destruct (set_status p).
  - rewrite filter_patch_other; [exact Hf | exact Hne].
Qed.

Lemma preserves_request {A : Type} (I : World -> Prop) (c : Call)
  (run : World -> Answer A * Store) :
  (forall w o, I w -> o <> Applied -> I (advance c o (store w) w)) ->
  (forall w, I w -> nextFault w = Applied -> I (advance c Applied (snd (run w)) w)) ->
  preserves I (request c run).
Proof.
  intros Hsame Happ w Hw. unfold request.
  destruct (nextFault w) eqn:F; simpl;
    [apply Happ | apply Hsame | apply Hsame]; try assumption; discriminate.
Qed.

Section TrackedFacts.

Variable dateParses : string -> bool.
Variable ilike : string -> string -> bool.

Ltac tracked_side :=
  intros; simpl;
  first
    [ assumption
    | apply tracked_off; [assumption | reflexivity | ];
      simpl;
      try match goal with
          | |- context [List.filter ?f ?l] => destruct (List.filter f l) as [|? [|? ?]]; simpl
          end;
      reflexivity
    | apply tracked_skipped; assumption
    | apply tracked_update; assumption ].

Lemma processImportBody_tracked (jid jobId : string) (w0 : World) (rows : list ExcelRow) :
  preserves (fun s => tracked jid w0 (world s))
    (processImportBody dateParses ilike jobId rows).
Proof.
  assert (forall i, preserves (fun s => tracked jid w0 (world s))
                      (loop dateParses ilike jobId rows i)) as L.
  { induction rows as [|r rows' IH]; intros i; simpl.
    - apply preserves_ret.
    - apply preserves_bind; [pres; tracked_side | intros _; apply IH]. }
  unfold processImportBody, importRows.
  repeat first [apply L | pres_step]; tracked_side.
Qed.

Lemma reject_tracked (jid id msg answer : string) (d : ErrorData) (w0 : World) (code : nat) :
  preserves (tracked jid w0)
    (let* t := now in
     updateJob id (rejectPatch msg d t) ;;
     respond code answer).
Proof.
  apply preserves_bind; [apply preserves_now | intros t].
  apply preserves_bind; [|intros _; apply preserves_ret].
  unfold updateJob. apply preserves_request; tracked_side.
Qed.

Lemma postExcel_tracked (req : Request) (w0 : World) :
  Forall (fun j => job_id j <> genId (clock w0)) (import_jobs (store w0)) ->
  tracked (genId (clock w0)) w0 (snd (postExcel req w0)).
Proof.
  intros Hfresh. set (jid := genId (clock w0)).
  assert (storedStatus jid (store w0) = []) as Hnone.
  { unfold storedStatus. induction (import_jobs (store w0)) as [|j l IH]; [reflexivity|].
    inversion Hfresh as [|? ? Hj Hl]; subst. simpl.
    destruct (String.eqb_spec (job_id j) jid); [contradiction | now apply IH]. }
  assert (tracked jid w0 w0) as T0.
  { exists []. rewrite app_nil_r, Hnone. split; [reflexivity | constructor]. }
  apply (hoare_tryCatch (fun w => w = w0) (fun _ => tracked jid w0) (fun _ => tracked jid w0));
    [ | | auto | auto | reflexivity].
  - destruct (req_file req) as [file|]; [|now intros w ->].
    destruct (negb (truthyOpt (req_user_id req))); [now intros w ->|]. cbv zeta.
    apply (hoare_bind _ (fun _ => tracked jid w0)); [ | | auto | auto].
    + unfold insertJob. apply hoare_request; intros w; intros; subst w.
      * exists [{| call := JobInsert (originalname file) (path file) pending
                             (orEmpty (req_user_id req));
                   outcome := Applied |}].
        split; [reflexivity|]. unfold storedStatus in *. simpl.
        rewrite List.filter_app, map_app, Hnone. simpl.
        fold jid. rewrite String.eqb_refl. simpl. repeat constructor.
      * apply tracked_skipped; [exact T0 | discriminate].
      * apply tracked_skipped; [exact T0 | discriminate].
    + intros ins. apply preserves_hoare.
      destruct (ans_error ins); [apply preserves_ret|].
      destruct (ans_data ins) as [importJob|]; [|apply preserves_ret].
      destruct (parseExcelFile (content file)) as [parseError|rows];
        [apply reject_tracked|].
      destruct (Nat.eqb (length rows) 0); [apply reject_tracked|].
      destruct (Nat.ltb 5000 (length rows)); [apply reject_tracked | apply preserves_ret].
  - intros e. apply preserves_hoare, preserves_ret.
Qed.

(** The status that the calls of a submission and its run give to the job
    the submission creates is the status stored for that job at the end,
    provided no job record had its id before. *)
Lemma submitAndRun_tracked (req : Request) (w : World) :
  Forall (fun j => job_id j <> genId (clock w)) (import_jobs (store w)) ->
  tracked (genId (clock w)) w (snd (submitAndRun dateParses ilike req w)).
Proof.
  intros Hfresh. pose proof (postExcel_tracked req w Hfresh) as T.
  unfold submitAndRun, bind.
  destruct (postExcel req w) as [[[resp [l|]]| |e] w1]; simpl in *; try exact T.
  unfold tryCatch.
  pose proof (processImportBody_tracked (genId (clock w)) (launch_job l) w (launch_rows l)
                (initialRun w1) T) as T2.
  unfold processImport.
  destruct (processImportBody dateParses ilike (launch_job l) (launch_rows l) (initialRun w1))
    as [[[]| |e] s2]; simpl in *; exact T2.
Qed.

End TrackedFacts.

Section StatusTheorem.

Variable dateParses : string -> bool.
Variable ilike : string -> string -> bool.

(** C2: in the calls that a submission and the run it launches make on
    the service, taken in order, the job record is created once, in
    pending; every later write on a job record is a write on that record,
    made while its stored status is not completed or failed, and a write
    that sets a status sets one that is not earlier than the stored one in
    the order pending, processing, then completed or failed.  So the
    stored status never goes back, and once it is completed or failed the
    record is not written again.  The status that these calls give to the
    job is the one found in its record at the end, when no other record
    had its id. *)
Theorem status_moves_forward (req : Request) (w : World) :
  let jid := genId (clock w) in
  let w' := snd (submitAndRun dateParses ilike req w) in
  let new := drop (length (calls w)) (calls w') in
  forwardOnly jid None new = true /\
  (Forall (fun j => job_id j <> jid) (import_jobs (store w)) ->
   Forall (fun st => statusAfter jid None new = Some st) (storedStatus jid (store w'))).
Proof.
  intros jid w' new. split.
  - subst jid w' new.
    destruct (postExcel_handled req w) as (resp & launch & E & H).
    unfold submitAndRun, bind.
    destruct (postExcel req w) as [res w1]. simpl in E, H. subst res.
    cbn [snd fst]. destruct launch as [l|].
    + destruct H as [Hj H].
      pose proof (processImport_sound dateParses ilike (genId (clock w)) (launch_by l)
                    w w1 (launch_rows l) H) as [cur S].
      rewrite Hj. unfold tryCatch.
      destruct (processImport dateParses ilike (genId (clock w)) (launch_rows l)
                  (launch_by l) w1) as [[[]| |e] w2]; simpl in *;
        eapply track_forward; exact S.
    + destruct H as [cur S]. simpl. eapply track_forward. exact S.
  - intros Hfresh.
    destruct (submitAndRun_tracked dateParses ilike req w Hfresh) as (new' & Hc & Hf).
    subst new w'. rewrite Hc, drop_app_length. exact Hf.
Qed.

End StatusTheorem.

(** ** Submission limits *)

Lemma postExcel_created (req : Request) (w : World) (file : UploadedFile)
  (rows : list ExcelRow) :
  req_file req = Some file ->
  truthyOpt (req_user_id req) = true ->
  nextFault w = Applied ->
  parseExcelFile (content file) = inr rows ->
  let userId := orEmpty (req_user_id req) in
  let w1 := advance (JobInsert (originalname file) (path file) pending userId) Applied
              (setJobs (import_jobs (store w) ++ [newJob w file userId]) (store w)) w in
  postExcel req w =
  tryCatch
    (if Nat.eqb (length rows) 0 then
       let* t := now in
       updateJob (genId (clock w))
         (rejectPatch "No valid data rows found in Excel file" DataEmpty t) ;;
       respond 400 "No valid data found in Excel file"
     else if Nat.ltb 5000 (length rows) then
       let* t := now in
       updateJob (genId (clock w))
         (rejectPatch "File contains too many records. Maximum allowed: 5,000"
            (DataTotalRows (length rows)) t) ;;
       respond 400
         ("File contains " +:+ showNat (length rows) +:+ " records. Maximum allowed: 5,000")
     else
       ret ({| res_status := 201;
               res_body := Started (genId (clock w)) (length rows)
                             "Import job started successfully" |},
            Some {| launch_job := genId (clock w);
                    launch_rows := rows;
                    launch_by := userId |}))
    (fun _ => respond 500 "Internal server error") w1.
Proof.
  intros Hf Hu Hn Hp userId w1.
  unfold postExcel. rewrite Hf, Hu. cbn [negb]. cbv zeta.
  unfold tryCatch at 1. unfold bind at 1. unfold insertJob, request. rewrite Hn.
  cbn [fst snd ans_error ans_data answered job_id]. rewrite Hp.
  reflexivity.
Qed.

Lemma reject_run (jid msg answer : string) (d : ErrorData) (w1 : World) :
  let p := rejectPatch msg d (clock w1) in
  let out :=
    tryCatch
      (let* t := now in
       updateJob jid (rejectPatch msg d t) ;;
       respond 400 answer)
      (fun _ => respond 500 "Internal server error") w1 in
  calls (snd out) = calls w1 ++ [{| call := JobUpdate jid p; outcome := nextFault w1 |}] /\
  (exists resp, fst out = Normal (resp, None) /\
                (res_status resp = 400 \/ res_status resp = 500)) /\
  store (snd out) =
    match nextFault w1 with
    | Applied =>
        setJobs (map (fun j => if String.eqb (job_id j) jid then applyJobPatch p j else j)
                   (import_jobs (store w1)))
          (store w1)
    | _ => store w1
    end.
Proof.
  intros p out. subst out p. unfold tryCatch, bind, now, updateJob, request.
  cbn [fst snd]. destruct (nextFault w1); cbn; (split; [reflexivity|]);
    (split; [|reflexivity]); eexists; (split; [reflexivity|]); auto.
Qed.

(** C4, as the code has it: when the job record can be created, it is
    created in pending before the file is parsed, and that is the first
    call of the handler.  A submission of 0 parsed rows, and one of more
    than 5,000, is then rejected: no run is started, the answer is an
    error, and the only other call is one update of that job record, which
    sets the status failed and an error log of one entry at row 0.  A
    submission of 1 to 5,000 parsed rows, so one of exactly 5,000, is
    accepted: the answer is 201 with the id of the job and the number of
    rows, a run is started on those rows for that job, and the handler
    makes no other call. *)
Theorem start_import_limits (req : Request) (w : World) (file : UploadedFile)
  (rows : list ExcelRow) :
  req_file req = Some file ->
  truthyOpt (req_user_id req) = true ->
  nextFault w = Applied ->
  parseExcelFile (content file) = inr rows ->
  let userId := orEmpty (req_user_id req) in
  let jid := genId (clock w) in
  let out := postExcel req w in
  let new := drop (length (calls w)) (calls (snd out)) in
  let created := {| call := JobInsert (originalname file) (path file) pending userId;
                    outcome := Applied |} in
  length (import_jobs (store (snd out))) = S (length (import_jobs (store w))) /\
  (length rows = 0 \/ 5000 < length rows ->
   (exists resp, fst out = Normal (resp, None) /\
                 (res_status resp = 400 \/ res_status resp = 500)) /\
   (exists msg d t o,
      new = [created; {| call := JobUpdate jid (rejectPatch msg d t); outcome := o |}] /\
      set_status (rejectPatch msg d t) = Some failed /\
      set_error_log (rejectPatch msg d t) = Some [{| row := 0; error := msg; data := d |}])) /\
  (1 <= length rows <= 5000 ->
   fst out = Normal ({| res_status := 201;
                        res_body := Started jid (length rows)
                                      "Import job started successfully" |},
                     Some {| launch_job := jid; launch_rows := rows; launch_by := userId |}) /\
   new = [created] /\
   import_jobs (store (snd out)) = import_jobs (store w) ++ [newJob w file userId]).
Proof.
  intros Hf Hu Hn Hp userId jid out new created.
  subst out new. rewrite (postExcel_created req w file rows Hf Hu Hn Hp).
  fold userId. fold jid.
  set (w1 := advance (JobInsert (originalname file) (path file) pending userId) Applied
               (setJobs (import_jobs (store w) ++ [newJob w file userId]) (store w)) w).
  assert (calls w1 = calls w ++ [created]) as Hc1 by reflexivity.
  assert (length (import_jobs (store w1)) = S (length (import_jobs (store w)))) as Hl1.
  { subst w1. simpl. rewrite length_app. simpl. lia. }
  destruct (Nat.eqb_spec (length rows) 0) as [E0|N0].
  - pose proof (reject_run jid "No valid data rows found in Excel file"
                  "No valid data found in Excel file" DataEmpty w1) as (Hc & Hr & Hs).
    cbv zeta in Hc, Hr, Hs. split; [|split].
    + rewrite Hs. destruct (nextFault w1); simpl; [rewrite length_map|..]; exact Hl1.
    + intros _. split; [exact Hr|].
      exists "No valid data rows found in Excel file", DataEmpty, (clock w1), (nextFault w1).
      split; [|split; reflexivity].
      rewrite Hc, Hc1, <- app_assoc, drop_app_length. reflexivity.
    + intros [H _]. lia.
  - destruct (Nat.ltb_spec 5000 (length rows)) as [Hbig|Hok].
    + pose proof (reject_run jid "File contains too many records. Maximum allowed: 5,000"
                    ("File contains " +:+ showNat (length rows)
                     +:+ " records. Maximum allowed: 5,000")
                    (DataTotalRows (length rows)) w1) as (Hc & Hr & Hs).
      cbv zeta in Hc, Hr, Hs. split; [|split].
      * rewrite Hs. destruct (nextFault w1); simpl; [rewrite length_map|..]; exact Hl1.
      * intros _. split; [exact Hr|].
        exists "File contains too many records. Maximum allowed: 5,000",
          (DataTotalRows (length rows)), (clock w1), (nextFault w1).
        split; [|split; reflexivity].
        rewrite Hc, Hc1, <- app_assoc, drop_app_length. reflexivity.
      * intros [_ H]. lia.
    + unfold tryCatch, ret. cbn [fst snd]. split; [exact Hl1|]. split.
      * intros [H|H]; lia.
      * intros _. split; [reflexivity|]. split; [|reflexivity].
        rewrite Hc1, drop_app_length. reflexivity.
Qed.

(** ** The pipeline on the sample submissions *)

(** A row that fails validation: the turn of the loop adds the error of
    the validator, tagged with the index of the row plus 2, and does
    nothing else; no call is made on the service and the count of
    processed rows stays as it is. *)
Lemma iteration_invalid_row (dateParses : string -> bool) (ilike : string -> string -> bool)
  (jobId : string) (r : ExcelRow) (i : nat) (s : Run) (e : ImportError) :
  validateRow dateParses r (i + 2) = Some e ->
  iteration dateParses ilike jobId r i s = (Normal tt, setErrors (errors s ++ [e]) s)
  /\ row e = i + 2.
Proof.
  intros H. split.
  - unfold iteration, tryBlock, loopBody. rewrite H. reflexivity.
  - pose proof (validateRow_checks dateParses r (i + 2)) as C. rewrite H in C.
    destruct (firstViolation (checks dateParses r));
      [injection C as ->; reflexivity | discriminate].
Qed.

(** C1 on the code: a row that fails validation is added to [errors] and
    leaves the iteration by [continue], so it is counted in
    [failed_records] (the length of [errors]) and not in
    [processed_records]: the turn of the loop on such a row adds one to
    the first and leaves the second and the count of successes as they
    are.  After the run on one row with a malformed email the stored
    counters are processed 0, successful 0, failed 1; after a run on that
    row followed by ten valid rows the progress write and the final write
    both store processed 10, successful 10, failed 1. *)
Theorem counters_diverge_after_invalid_row :
  (forall dateParses ilike jobId r i s e,
     validateRow dateParses r (i + 2) = Some e ->
     let s' := snd (iteration dateParses ilike jobId r i s) in
     length (errors s') = S (length (errors s)) /\
     processedCount s' = processedCount s /\
     successCount s' = successCount s) /\
  map counters (import_jobs (store (submitted sheetBadEmail))) = [(completed, 0, 0, 1)] /\
  map (fun e => match call e with
                | JobUpdate _ p =>
                    (set_processed_records p, set_successful_records p,
                     set_failed_records p)
                | _ => (None, None, None)
                end)
    (List.filter isProgress (calls (submitted sheetBadThenTen)))
  = [(Some 10, Some 10, Some 1)] /\
  map counters (import_jobs (store (submitted sheetBadThenTen))) = [(completed, 10, 10, 1)].
Proof.
  split.
  - intros dateParses ilike jobId r i s e H s'. subst s'.
    rewrite (proj1 (iteration_invalid_row dateParses ilike jobId r i s e H)).
    simpl. rewrite length_app. simpl. repeat split. lia.
  - vm_compute. repeat split.
Qed.

(** C3 on the code: a row that fails validation gets exactly one error
    entry, no call is made on the service for it (so no member is created
    or updated), and the row number of the entry is the index of the row
    among the parsed rows plus 2.  That is the row of the sheet only when
    the parser kept every row before it: in a sheet whose row 2 has no
    phone and whose row 3 has a malformed email, row 2 is left out by the
    parser, the row of sheet row 3 is the first parsed row, and its error
    entry is tagged with row 2. *)
Theorem error_row_is_parsed_index :
  (forall dateParses ilike jobId r i s e,
     validateRow dateParses r (i + 2) = Some e ->
     let s' := snd (iteration dateParses ilike jobId r i s) in
     errors s' = errors s ++ [e] /\ row e = i + 2 /\ world s' = world s) /\
  In (3, dataCells "John" "Doe" "not-an-email" "+1234567890" "Doe Family")
    sheetGapThenBadEmail /\
  eachRow sheetGapThenBadEmail =
    [mapRow (dataCells "John" "Doe" "not-an-email" "+1234567890" "Doe Family")] /\
  map job_error_log (import_jobs (store (submitted sheetGapThenBadEmail))) =
    [Some [{| row := 2;
              error := "Invalid email format";
              data := DataRow (mapRow (dataCells "John" "Doe" "not-an-email"
                                         "+1234567890" "Doe Family")) |}]] /\
  user_profiles (store (submitted sheetGapThenBadEmail)) = [] /\
  List.filter (fun e => match call e with
                        | UserInsert _ | UserUpdate _ _ => true
                        | _ => false
                        end)
    (calls (submitted sheetGapThenBadEmail)) = [].
Proof.
  split.
  - intros dateParses ilike jobId r i s e H s'. subst s'.
    destruct (iteration_invalid_row dateParses ilike jobId r i s e H) as [-> Hr].
    simpl. auto.
  - split; [right; right; left; reflexivity|]. vm_compute. repeat split.
Qed.

(** C4 as stated fails: a submission whose parsed row count is 0 is
    rejected after the job record has been created; the rejection leaves
    that record, marked failed, in the table. *)
Lemma empty_submission_creates_job :
  parseExcelFile (Workbook (Some sheetEmpty)) = inr [] /\
  import_jobs (store (freshWorld emptyStore [])) = [] /\
  fst (postExcel (upload sheetEmpty) (freshWorld emptyStore [])) =
    Normal ({| res_status := 400;
               res_body := Failure "No valid data found in Excel file" |}, None) /\
  map (fun j => (job_id j, job_status j))
    (import_jobs (store (snd (postExcel (upload sheetEmpty) (freshWorld emptyStore [])))))
  = [("id-0", failed)] /\
  ~ (import_jobs (store (snd (postExcel (upload sheetEmpty) (freshWorld emptyStore []))))
     = import_jobs (store (freshWorld emptyStore []))).
Proof. vm_compute. repeat split. discriminate. Qed.

Lemma start_import_limits_witness :
  req_file (upload (sheetOf 5000)) =
    Some {| originalname := "members.xlsx"; path := "uploads/members.xlsx";
            content := Workbook (Some (sheetOf 5000)) |} /\
  truthyOpt (req_user_id (upload (sheetOf 5000))) = true /\
  nextFault (freshWorld emptyStore []) = Applied /\
  parseExcelFile (Workbook (Some (sheetOf 5000))) = inr (eachRow (sheetOf 5000)) /\
  length (eachRow (sheetOf 5000)) = 5000 /\
  fst (postExcel (upload (sheetOf 5000)) (freshWorld emptyStore [])) =
    Normal ({| res_status := 201;
               res_body := Started "id-0" (length (eachRow (sheetOf 5000)))
                             "Import job started successfully" |},
            Some {| launch_job := "id-0";
                    launch_rows := eachRow (sheetOf 5000);
                    launch_by := "admin-1" |}).
Proof.
  assert (length (eachRow (sheetOf 5000)) = 5000) as L by (vm_compute; reflexivity).
  do 4 (split; [reflexivity|]). split; [exact L|].
  apply (start_import_limits (upload (sheetOf 5000)) (freshWorld emptyStore [])
           {| originalname := "members.xlsx"; path := "uploads/members.xlsx";
              content := Workbook (Some (sheetOf 5000)) |}
           (eachRow (sheetOf 5000)) eq_refl eq_refl eq_refl eq_refl).
  rewrite L. lia.
Defined.

(** ** The scenarios of the specification *)

Example blood_group_AB_passes : validateRow isoDate (withBloodGroup "AB+" johnRow) 2 = None.
Proof. reflexivity. Qed.

Example blood_group_Z_fails :
  validateRow isoDate (withBloodGroup "Z+" johnRow) 2 =
  Some {| row := 2; error := "Invalid blood group";
          data := DataRow (withBloodGroup "Z+" johnRow) |}.
Proof. reflexivity. Qed.

(** Two rows of one family, written with different case, the first one
    head of the family; of the groups they name only Choir exists. *)
Example does_family_and_groups :
  map (fun u => (user_id u, user_family_id u))
    (user_profiles (store (submittedOn storeWithChoir sheetDoes)))
  = [("id-4", Some "id-6"); ("id-11", Some "id-6")] /\
  families (store (submittedOn storeWithChoir sheetDoes))
  = [{| family_id := "id-6"; family_name := "Doe Family";
        family_head_of_family_id := Some "id-4"; family_address := None;
        family_phone := Some "+1234567890" |}] /\
  group_memberships (store (submittedOn storeWithChoir sheetDoes))
  = [{| gm_group_id := "g-choir"; gm_user_id := "id-4";
        gm_status := "pending"; gm_role := "member" |};
     {| gm_group_id := "g-choir"; gm_user_id := "id-11";
        gm_status := "pending"; gm_role := "member" |}] /\
  map (fun j => (counters j, job_error_log j))
    (import_jobs (store (submittedOn storeWithChoir sheetDoes)))
  = [((completed, 2, 2, 0), Some [])].
Proof. vm_compute. repeat split. Qed.

(** What [forwardOnly] refuses: a status that goes back, a write after a
    terminal status, a write on another job record. *)
Example forwardOnly_refuses_regress :
  forwardOnly "id-0" None
    [appliedCall (JobInsert "f" "u" pending "a");
     appliedCall (JobUpdate "id-0" (statusPatch processing));
     appliedCall (JobUpdate "id-0" (statusPatch pending))] = false.
Proof. reflexivity. Qed.

Example forwardOnly_refuses_write_after_end :
  forwardOnly "id-0" None
    [appliedCall (JobInsert "f" "u" pending "a");
     appliedCall (JobUpdate "id-0" (statusPatch completed));
     appliedCall (JobUpdate "id-0" (statusPatch failed))] = false.
Proof. reflexivity. Qed.

Example forwardOnly_refuses_other_job :
  forwardOnly "id-0" None
    [appliedCall (JobInsert "f" "u" pending "a");
     appliedCall (JobUpdate "id-7" (statusPatch processing))] = false.
Proof. reflexivity. Qed.

Example forwardOnly_accepts_rejected_end :
  forwardOnly "id-0" None
    [appliedCall (JobInsert "f" "u" pending "a");
     appliedCall (JobUpdate "id-0" (statusPatch processing));
     {| call := JobUpdate "id-0" (statusPatch completed);
        outcome := Rejected (JsError "fetch failed") |};
     appliedCall (JobUpdate "id-0" (statusPatch failed))] = true.
Proof. reflexivity. Qed.

(** ** The theorems with hypotheses, at sample inputs *)

(** C7 as stated fails: the first row of the run with the family name
    fails validation and is skipped; the family is created at the turn of
    the second row, and stored with the address and phone of that row,
    not of the first. *)
Lemma first_row_of_a_family_may_seed_nothing :
  parseExcelFile (Workbook (Some sheetBadThenJane)) = inr [johnBadEmail; janeAtHome] /\
  toLowerCase (familyName johnBadEmail) = toLowerCase (familyName janeAtHome) /\
  families emptyStore = [] /\
  map familyCore (families (store (submitted sheetBadThenJane))) =
    [("id-6", "doe family", Some "2 Second Street", Some "+1234567891")] /\
  (orNull (address johnBadEmail), Some (phone johnBadEmail)) =
    (Some "1 First Street", Some "+1234567890") /\
  ~ In (orNull (address johnBadEmail), Some (phone johnBadEmail))
       (map (fun f => (family_address f, family_phone f))
          (families (store (submitted sheetBadThenJane)))).
Proof.
  vm_compute. repeat split. intros [H|[]]. discriminate.
Qed.

Lemma same_family_within_run_witness :
  toLowerCase (familyName johnRow) = toLowerCase (familyName janeAtHome) /\
  fst (loop isoDate ilikePlain "job" [johnBadEmail] 0 startOfRun) = Normal tt /\
  validateRow isoDate janeAtHome (0 + length [johnBadEmail] + 2) = None /\
  resolveMember janeAtHome (0 + length [johnBadEmail] + 2)
    (snd (loop isoDate ilikePlain "job" [johnBadEmail] 0 startOfRun)) =
    (Normal "id-1",
     snd (resolveMember janeAtHome 3
            (snd (loop isoDate ilikePlain "job" [johnBadEmail] 0 startOfRun)))) /\
  (forall u2 s2a,
     resolveMember johnRow 4
       (snd (loop isoDate ilikePlain "job" ([johnBadEmail] ++ janeAtHome :: []) 0 startOfRun))
     = (Normal u2, s2a) ->
     resolveFamily ilikePlain johnRow 4 s2a = (Normal (Some "id-3"), s2a)).
Proof.
  assert (fst (loop isoDate ilikePlain "job" [johnBadEmail] 0 startOfRun) = Normal tt) as Hpre
    by (vm_compute; reflexivity).
  assert (validateRow isoDate janeAtHome (0 + length [johnBadEmail] + 2) = None) as Hv
    by (vm_compute; reflexivity).
  assert (resolveMember janeAtHome (0 + length [johnBadEmail] + 2)
            (snd (loop isoDate ilikePlain "job" [johnBadEmail] 0 startOfRun)) =
          (Normal "id-1",
           snd (resolveMember janeAtHome 3
                  (snd (loop isoDate ilikePlain "job" [johnBadEmail] 0 startOfRun))))) as Hm
    by (vm_compute; reflexivity).
  split; [vm_compute; reflexivity|]. split; [exact Hpre|]. split; [exact Hv|].
  split; [exact Hm|].
  destruct (same_family_within_run isoDate ilikePlain "job" [johnBadEmail] [] janeAtHome
              johnRow 0 4 startOfRun "id-1" _ eq_refl Hpre Hv Hm) as [H1 H2].
  destruct H2 as (s1b & Hf & T & _);
    [vm_compute; reflexivity | vm_compute; repeat constructor | vm_compute; lia |].
  exact (proj1 (H1 _ s1b Hf T)).
Defined.

Lemma assignGroups_upserts_witness :
  ["Choir"; " Youth Group"] <> [] /\
  Forall commaFree ["Choir"; " Youth Group"] /\
  orEmpty (groupMemberships johnInChoir) = joinComma ["Choir"; " Youth Group"] /\
  map call
    (drop (length (calls (world choirRun)))
       (calls (world (snd (assignGroups johnInChoir "u-1" choirRun))))) =
    [MembershipUpsert "g-choir" "u-1" "pending" "member"] /\
  group_memberships (store (world (snd (assignGroups johnInChoir "u-1" choirRun)))) =
    [pendingMember "g-choir" "u-1"].
Proof.
  assert (["Choir"; " Youth Group"] <> []) as Hne by discriminate.
  assert (Forall commaFree ["Choir"; " Youth Group"]) as Hfree
    by (repeat constructor).
  assert (orEmpty (groupMemberships johnInChoir) = joinComma ["Choir"; " Youth Group"]) as Hcell
    by reflexivity.
  split; [exact Hne|]. split; [exact Hfree|]. split; [exact Hcell|].
  destruct (assignGroups_upserts johnInChoir "u-1" choirRun ["Choir"; " Youth Group"]
              Hne Hfree Hcell) as (_ & Hcalls & _).
  split; [apply Hcalls|]; vm_compute; reflexivity.
Defined.

Lemma resolveMember_updates_existing_witness :
  selectUser (email johnRow) (phone johnRow) (freshWorld storeWithJohn []) =
    (Normal (answered johnStored),
     snd (selectUser (email johnRow) (phone johnRow) (freshWorld storeWithJohn []))) /\
  ans_data (answered johnStored) = Some johnStored /\
  map user_email
    (user_profiles (store (world (snd (resolveMember johnRow 2
                                         (initialRun (freshWorld storeWithJohn [])))))))
  = [Some "john.doe@email.com"].
Proof.
  assert (selectUser (email johnRow) (phone johnRow) (freshWorld storeWithJohn []) =
          (Normal (answered johnStored),
           snd (selectUser (email johnRow) (phone johnRow) (freshWorld storeWithJohn []))))
    as H by (vm_compute; reflexivity).
  split; [exact H|]. split; [reflexivity|].
  pose proof (resolveMember_updates_existing johnRow 2
                (initialRun (freshWorld storeWithJohn [])) (answered johnStored) _ johnStored
                H eq_refl) as (_ & _ & _ & _ & E & _).
  exact E.
Defined.

(** * Further properties *)

(** ** The strings that the validators accept *)

Lemma append_cons (c : ascii) (a b : string) : String c a +:+ b = String c (a +:+ b).
Proof. reflexivity. Qed.

Lemma append_nil_l (b : string) : "" +:+ b = b.
Proof. reflexivity. Qed.

Lemma append_nil_r (s : string) : s +:+ "" = s.
Proof. induction s as [|c s IH]; [reflexivity | now rewrite append_cons, IH]. Qed.

Lemma append_assoc (a b c : string) : (a +:+ b) +:+ c = a +:+ (b +:+ c).
Proof. induction a as [|x a IH]; [reflexivity | now rewrite !append_cons, IH]. Qed.

Lemma append_empty (a b : string) : a +:+ b = "" -> a = "" /\ b = "".
Proof. destruct a; [now split | discriminate]. Qed.

Lemma matches_class (p : ascii -> bool) (s : string) :
  matches (Class p) s <-> exists c, s = String c "" /\ p c = true.
Proof.
  split.
  - inversion 1; subst. eauto.
  - intros (c & -> & H). now constructor.
Qed.

Lemma matches_cat (a b : regex) (s : string) :
  matches (Cat a b) s <-> exists s1 s2, s = s1 +:+ s2 /\ matches a s1 /\ matches b s2.
Proof.
  split.
  - inversion 1; subst. eauto.
  - intros (s1 & s2 & -> & H1 & H2). now constructor.
Qed.

Lemma matches_alt (a b : regex) (s : string) :
  matches (Alt a b) s <-> matches a s \/ matches b s.
Proof.
  split.
  - inversion 1; subst; auto.
  - intros [H|H]; [now apply MAltL | now apply MAltR].
Qed.

Lemma nullable_matches (r : regex) : nullable r = true <-> matches r "".
Proof.
  induction r as [| |p|a IHa b IHb|a IHa b IHb|a IHa]; simpl.
  - split; [discriminate | inversion 1].
  - split; [constructor | reflexivity].
  - split; [discriminate | inversion 1].
  - rewrite andb_true_iff, IHa, IHb, matches_cat. split.
    + intros [Ha Hb]. now exists "", "".
    + intros (s1 & s2 & E & H1 & H2). symmetry in E.
      apply append_empty in E as [-> ->]. now split.
  - now rewrite orb_true_iff, IHa, IHb, matches_alt.
  - split; [constructor | reflexivity].
Qed.

Lemma star_cons (a : regex) (c : ascii) (s : string) :
  matches (Star a) (String c s) ->
  exists s1 s2, s = s1 +:+ s2 /\ matches a (String c s1) /\ matches (Star a) s2.
Proof.
  intros H. remember (Star a) as r eqn:R. remember (String c s) as t eqn:T.
  revert s T. induction H as [| | | | | |a' s1 s2 H1 _ H2 IH2]; intros u T; try discriminate.
  injection R as ->. destruct s1 as [|d s1].
  - now apply IH2.
  - rewrite append_cons in T. injection T as -> <-. now exists s1, s2.
Qed.

Lemma matches_star (a : regex) (s : string) :
  matches (Star a) s <->
  s = "" \/ exists s1 s2, s = s1 +:+ s2 /\ matches a s1 /\ matches (Star a) s2.
Proof.
  split.
  - inversion 1; subst; [now left | right; eauto].
  - intros [-> | (s1 & s2 & -> & H1 & H2)]; now constructor.
Qed.

Lemma deriv_matches (r : regex) (c : ascii) (s : string) :
  matches (deriv c r) s <-> matches r (String c s).
Proof.
  revert s. induction r as [| |p|a IHa b IHb|a IHa b IHb|a IHa]; intros s; simpl.
  - split; inversion 1.
  - split; inversion 1.
  - rewrite matches_class. destruct (p c) eqn:P; split.
    + inversion 1; subst. now exists c.
    + intros (d & E & _). injection E as _ ->. constructor.
    + inversion 1.
    + intros (d & E & Hd). injection E as -> _. congruence.
  - assert (matches (Cat (deriv c a) b) s <->
            exists s1 s2, s = s1 +:+ s2 /\ matches a (String c s1) /\ matches b s2) as Hcat.
    { rewrite matches_cat. split; intros (s1 & s2 & -> & H1 & H2); exists s1, s2;
        (split; [reflexivity|]); (split; [now apply IHa | assumption]). }
    destruct (nullable a) eqn:N.
    + rewrite matches_alt, Hcat, IHb, matches_cat. split.
      * intros [(s1 & s2 & -> & H1 & H2) | H1].
        -- now exists (String c s1), s2.
        -- apply nullable_matches in N. now exists "", (String c s).
      * intros (s1 & s2 & E & H1 & H2). destruct s1 as [|d s1].
        -- rewrite append_nil_l in E. subst s2. now right.
        -- rewrite append_cons in E. injection E as -> ->. left. now exists s1, s2.
    + rewrite Hcat, matches_cat. split.
      * intros (s1 & s2 & -> & H1 & H2). now exists (String c s1), s2.
      * intros (s1 & s2 & E & H1 & H2). destruct s1 as [|d s1].
        -- apply nullable_matches in H1. congruence.
        -- rewrite append_cons in E. injection E as -> ->. now exists s1, s2.
  - now rewrite !matches_alt, IHa, IHb.
  - rewrite matches_cat. split.
    + intros (s1 & s2 & -> & H1 & H2). apply IHa in H1.
      exact (MStarApp a (String c s1) s2 H1 H2).
    + intros H. apply star_cons in H as (s1 & s2 & -> & H1 & H2).
      exists s1, s2. split; [reflexivity|]. split; [now apply IHa | assumption].
Qed.

(** The matcher by derivatives decides membership. *)
Lemma test_matches (r : regex) (s : string) : test r s = true <-> matches r s.
Proof.
  revert r. induction s as [|c s IH]; intros r; simpl.
  - apply nullable_matches.
  - rewrite IH. apply deriv_matches.
Qed.

Lemma matches_star_class (p : ascii -> bool) (s : string) :
  matches (Star (Class p)) s <-> every p s = true.
Proof.
  split.
  - intros H. remember (Star (Class p)) as r eqn:R.
    induction H as [| | | | | |a s1 s2 H1 _ H2 IH2]; try discriminate; [reflexivity|].
    injection R as ->. apply matches_class in H1 as (c & -> & Hc).
    rewrite append_cons, append_nil_l. simpl. rewrite Hc. now apply IH2.
  - induction s as [|c s IH]; simpl; [constructor|].
    rewrite andb_true_iff. intros [Hc Hs].
    exact (MStarApp (Class p) (String c "") s (MClass p c Hc) (IH Hs)).
Qed.

Lemma matches_plus_class (p : ascii -> bool) (s : string) :
  matches (Plus (Class p)) s <-> s <> "" /\ every p s = true.
Proof.
  unfold Plus. rewrite matches_cat. split.
  - intros (s1 & s2 & -> & H1 & H2). apply matches_class in H1 as (c & -> & Hc).
    apply matches_star_class in H2. rewrite append_cons, append_nil_l. simpl.
    rewrite Hc, H2. now split.
  - destruct s as [|c s]; [now intros [[] _]|]. simpl. rewrite andb_true_iff.
    intros (_ & Hc & Hs). exists (String c ""), s. split; [reflexivity|].
    split; [now constructor | now apply matches_star_class].
Qed.

Lemma matches_atLeast_class (n : nat) (p : ascii -> bool) (s : string) :
  matches (AtLeast n (Class p)) s <-> n <= String.length s /\ every p s = true.
Proof.
  revert s. induction n as [|n IH]; intros s; simpl.
  - rewrite matches_star_class. split; [intros H; split; [lia | exact H] | now intros [_ H]].
  - rewrite matches_cat. split.
    + intros (s1 & s2 & -> & H1 & H2). apply matches_class in H1 as (c & -> & Hc).
      apply IH in H2 as [Hn Hs]. rewrite append_cons, append_nil_l. simpl.
      rewrite Hc, Hs. split; [lia | reflexivity].
    + destruct s as [|c s]; simpl; [lia|]. rewrite andb_true_iff.
      intros (Hn & Hc & Hs). exists (String c ""), s. split; [reflexivity|].
      split; [now constructor | apply IH; split; [lia | exact Hs]].
Qed.

(** X1: [validateEmail] accepts exactly the strings of the form a@b.c in
    which a, b and c are not empty and hold neither white space nor an at
    sign; b and c may hold dots. *)
Theorem validateEmail_shape (e : string) :
  validateEmail e = true <->
  exists a b c,
    e = a +:+ "@" +:+ b +:+ "." +:+ c /\
    a <> "" /\ b <> "" /\ c <> "" /\
    every notSpaceAt a = true /\ every notSpaceAt b = true /\ every notSpaceAt c = true.
Proof.
  unfold validateEmail, emailRegex. rewrite test_matches. split.
  - intros H.
    apply matches_cat in H as (a & r1 & -> & Ha & H).
    apply matches_cat in H as (x & r2 & -> & Hx & H).
    apply matches_cat in H as (b & r3 & -> & Hb & H).
    apply matches_cat in H as (y & c & -> & Hy & Hc).
    apply matches_plus_class in Ha as [Ha Ha'], Hb as [Hb Hb'], Hc as [Hc Hc'].
    apply matches_class in Hx as (cx & -> & Hx), Hy as (cy & -> & Hy).
    apply Ascii.eqb_eq in Hx, Hy. subst cx cy. exists a, b, c. repeat split; auto.
  - intros (a & b & c & -> & Ha & Hb & Hc & Ha' & Hb' & Hc').
    apply matches_cat. exists a, ("@" +:+ b +:+ "." +:+ c). split; [reflexivity|].
    split; [now apply matches_plus_class|].
    apply matches_cat. exists "@", (b +:+ "." +:+ c). split; [reflexivity|].
    split; [now constructor|].
    apply matches_cat. exists b, ("." +:+ c). split; [reflexivity|].
    split; [now apply matches_plus_class|].
    apply matches_cat. exists ".", c. split; [reflexivity|].
    split; [now constructor | now apply matches_plus_class].
Qed.

(** X2: [validatePhone] accepts exactly the strings made of an optional
    plus sign followed by at least ten characters, each of them a digit,
    white space, a hyphen or a parenthesis. *)
Theorem validatePhone_shape (p : string) :
  validatePhone p = true <->
  exists body,
    (p = body \/ p = "+" +:+ body) /\
    10 <= String.length body /\ every phoneChar body = true.
Proof.
  unfold validatePhone, phoneRegex. rewrite test_matches. split.
  - intros H. apply matches_cat in H as (s1 & body & -> & H1 & H2).
    apply matches_atLeast_class in H2 as [Hn Hb]. exists body.
    split; [|now split]. apply matches_alt in H1 as [H|H].
    + inversion H; subst. now left.
    + apply matches_class in H as (c & -> & Hc). apply Ascii.eqb_eq in Hc. subst c. now right.
  - intros (body & E & Hn & Hb). apply matches_cat. destruct E as [-> | ->].
    + exists "", body. split; [reflexivity|].
      split; [apply MAltL; constructor | now apply matches_atLeast_class].
    + exists "+", body. split; [reflexivity|].
      split; [apply MAltR; now constructor | now apply matches_atLeast_class].
Qed.

(** ** Parsed rows and the template *)

Lemma eachRow_app (a b : Worksheet) : eachRow (a ++ b) = eachRow a ++ eachRow b.
Proof.
  induction a as [|[n c] a IH]; simpl; [reflexivity|].
  destruct (Nat.eqb n 1); [exact IH|].
  destruct (hasRequired (mapRow c)); simpl; now rewrite IH.
Qed.

Lemma eachRow_required (ws : Worksheet) :
  Forall (fun r => hasRequired r = true) (eachRow ws).
Proof.
  induction ws as [|[n c] ws IH]; simpl; [constructor|].
  destruct (Nat.eqb n 1); [exact IH|].
  destruct (hasRequired (mapRow c)) eqn:R; [now constructor | exact IH].
Qed.

Section ParsedRows.

Variable dateParses : string -> bool.

(** X3: a row that [parseExcelFile] returns never fails one of the five
    required-field checks of [validateRow]: when validation of such a row
    gives an error, its message is one of the five format messages; and
    the row is valid exactly when its email, phone, blood group, date of
    birth and gender pass their format checks. *)
Theorem parsed_rows_fail_on_format_only (f : FileContent) (rows : list ExcelRow)
  (r : ExcelRow) (n : nat) :
  parseExcelFile f = inr rows ->
  In r rows ->
  (forall e, validateRow dateParses r n = Some e -> In (error e) formatMessages) /\
  (validateRow dateParses r n = None <->
   validateEmail (email r) = true /\ validatePhone (phone r) = true /\
   whenPresent (bloodGroup r) (includes validGroups) = true /\
   whenPresent (dateOfBirth r) dateParses = true /\
   whenPresent (gender r) (includes validGenders) = true).
Proof.
  intros Hp Hr.
  assert (hasRequired r = true) as R.
  { destruct f as [msg|[ws|]]; simpl in Hp; try discriminate. injection Hp as <-.
    exact (proj1 (List.Forall_forall _ _) (eachRow_required ws) r Hr). }
  unfold hasRequired in R. rewrite !andb_true_iff in R.
  destruct R as ((((R1 & R2) & R3) & R4) & R5).
  rewrite validateRow_checks. unfold checks. rewrite !present_truthy, R1, R2, R3, R4, R5.
  cbn [firstViolation].
  destruct (validateEmail (email r)), (validatePhone (phone r)),
    (whenPresent (bloodGroup r) (includes validGroups)),
    (whenPresent (dateOfBirth r) dateParses),
    (whenPresent (gender r) (includes validGenders));
    (split; [intros e [= <-]; simpl; tauto || (intros e; discriminate) | ]);
    try (split; [discriminate | intros (? & ? & ? & ? & ?); discriminate]);
    try (split; [reflexivity || (intros _; repeat split) | reflexivity]).
Qed.

End ParsedRows.

Lemma field_cell (o : gmap string string) (k : string) (cells : Cells) (i : nat) :
  cell cells i = o !! k -> cellTrim cells i = field o k.
Proof. unfold cellTrim, field. now intros ->. Qed.

Lemma mapRow_addRow (o : gmap string string) :
  mapRow (addRow templateColumns o) = rowOfObject o.
Proof.
  unfold mapRow, rowOfObject, cellTrim, field, cell, addRow, templateColumns.
  cbn [map nth_error key].
  destruct (o !! "firstName"), (o !! "lastName"), (o !! "email"), (o !! "phone"),
    (o !! "familyName"); cbn [orEmpty];
  f_equal;
    try (destruct (o !! "dateOfBirth"); reflexivity);
    try (destruct (o !! "gender"); reflexivity);
    try (destruct (o !! "bloodGroup"); reflexivity);
    try (destruct (o !! "address"); reflexivity);
    try (destruct (o !! "emergencyContactName"); reflexivity);
    try (destruct (o !! "emergencyContactPhone"); reflexivity);
    try (destruct (o !! "groupMemberships"); reflexivity);
    try (destruct (o !! "notes"); reflexivity);
    try (destruct (o !! "role"); reflexivity);
    try (destruct (o !! "headOfFamily") as [h|]; cbn [orEmpty];
         [now rewrite trim_toLowerCase | reflexivity]).
Qed.

Lemma sampleJohn_row :
  rowOfObject sampleJohn =
  {| firstName := "John"; lastName := "Doe"; email := "john.doe@email.com";
     phone := "+1234567890"; dateOfBirth := Some "1985-06-15"; gender := Some "Male";
     bloodGroup := Some "A+"; address := Some "123 Main St, City, State";
     emergencyContactName := Some "Jane Doe";
     emergencyContactPhone := Some "+1234567891"; familyName := "Doe Family";
     headOfFamily := true; groupMemberships := Some "Choir, Youth Group";
     role := Some member; notes := Some "Active member since 2020" |}.
Proof. vm_compute. reflexivity. Qed.

Lemma sampleJane_row :
  rowOfObject sampleJane =
  {| firstName := "Jane"; lastName := "Doe"; email := "jane.doe@email.com";
     phone := "+1234567891"; dateOfBirth := Some "1987-08-20"; gender := Some "Female";
     bloodGroup := Some "B+"; address := Some "123 Main St, City, State";
     emergencyContactName := Some "John Doe";
     emergencyContactPhone := Some "+1234567890"; familyName := "Doe Family";
     headOfFamily := false; groupMemberships := Some "Choir";
     role := Some member; notes := Some "Spouse of John" |}.
Proof. vm_compute. reflexivity. Qed.

(** X4: the columns of the template are the cells that the parser reads:
    a row object written under the template's columns comes back from
    [mapRow] field by field, each field read at its key and trimmed, the
    email lower-cased, the head-of-family and role cells interpreted.  And
    the workbook of [generateTemplate], read by [parseExcelFile], gives its
    two sample rows, both of which pass [validateRow] when the date parser
    accepts their two dates. *)
Theorem template_is_importable (dateParses : string -> bool) :
  dateParses "1985-06-15" = true ->
  dateParses "1987-08-20" = true ->
  (forall o, mapRow (addRow templateColumns o) = rowOfObject o) /\
  parseExcelFile (saved generateTemplate) =
    inr [rowOfObject sampleJohn; rowOfObject sampleJane] /\
  validateRow dateParses (rowOfObject sampleJohn) 2 = None /\
  validateRow dateParses (rowOfObject sampleJane) 3 = None.
Proof.
  intros D1 D2. split; [exact mapRow_addRow|]. split.
  - unfold saved, generateTemplate, membersSheet. cbn [head parseExcelFile eachRow Nat.eqb].
    rewrite !mapRow_addRow, sampleJohn_row, sampleJane_row. reflexivity.
  - rewrite sampleJohn_row, sampleJane_row. unfold validateRow, validateDate.
    cbn [dateOfBirth truthyOpt truthy negb orEmpty]. rewrite D1, D2. split; reflexivity.
Qed.

Lemma template_is_importable_witness :
  isoDate "1985-06-15" = true /\
  validateRow isoDate (rowOfObject sampleJane) 3 = None.
Proof.
  split; [reflexivity|].
  apply (template_is_importable isoDate); reflexivity.
Defined.

(** ** The outcome of a row *)

Lemma rowSpec_ret {A : Type} (k : nat) (a : A) : rowSpec k 0 (ret a).
Proof. intros s. exists []. simpl. rewrite app_nil_r. repeat split; lia. Qed.

Lemma rowSpec_bind {A B : Type} (k d : nat) (m : M Run A) (f : A -> M Run B) :
  rowSpec k 0 m -> (forall a, rowSpec k d (f a)) -> rowSpec k d (bind m f).
Proof.
  intros Hm Hf s. destruct (Hm s) as (n1 & C1 & H1). unfold bind.
  destruct (m s) as [[a| |x] s1]; simpl in *.
  - destruct H1 as (E & Sc & Pc). destruct (Hf a s1) as (n2 & C2 & H2).
    exists (n1 ++ n2). split; [now rewrite C2, C1, app_assoc|].
    destruct (f a s1) as [[b| |y] s2]; simpl in *.
    + destruct H2 as (E' & Sc' & Pc'). repeat split; [congruence | lia | lia].
    + destruct H2 as ((e & He & E') & Sc' & Pc'). split; [exists e; split; congruence|].
      split; lia.
    + destruct H2 as (T & pre & c & ->). split.
      * unfold tally in *. injection T as -> -> ->. f_equal; [f_equal|]; [exact E | lia | lia].
      * exists (n1 ++ pre), c. now rewrite app_assoc.
  - exists n1. now split.
  - exists n1. now split.
Qed.

Lemma rowSpec_get (k : nat) : rowSpec k 0 get.
Proof. intros s. exists []. simpl. rewrite app_nil_r. repeat split; lia. Qed.

Lemma rowSpec_modify (k : nat) (f : Run -> Run) :
  (forall s, tally (f s) = tally s /\ world (f s) = world s) -> rowSpec k 0 (modify f).
Proof.
  intros H s. exists []. simpl. destruct (H s) as [T ->]. rewrite app_nil_r.
  unfold tally in T. injection T as -> -> ->. repeat split; lia.
Qed.

Lemma rowSpec_report {A : Type} (k : nat) (e : ImportError) :
  row e = k -> rowSpec k 0 (pushError e ;; @continue Run A).
Proof.
  intros H s. exists []. simpl. rewrite app_nil_r.
  split; [reflexivity|]. split; [now exists e | split; reflexivity].
Qed.

Lemma wellFormed_single {A : Type} (l : list A) : wellFormed (single l).
Proof. destruct l as [|x [|y l]]; [right | left | right]; eexists; reflexivity. Qed.

Lemma endsRejected_cons (x : Exception) (e : Event) (n : list Event) :
  endsRejected x n -> endsRejected x (e :: n).
Proof. intros (pre & c & ->). now exists (e :: pre), c. Qed.

Lemma rowSpec_after_call {B : Type} (k d : nat) (m : M Run B) (e : Event) (s s1 : Run) :
  rowSpec k d m ->
  calls (world s1) = calls (world s) ++ [e] ->
  tally s1 = tally s ->
  exists new,
    calls (world (snd (m s1))) = calls (world s) ++ new /\
    match fst (m s1) with
    | Normal _ =>
        errors (snd (m s1)) = errors s /\
        successCount (snd (m s1)) = successCount s + d /\
        processedCount (snd (m s1)) = processedCount s
    | ContinueLoop =>
        (exists e, row e = k /\ errors (snd (m s1)) = errors s ++ [e]) /\
        successCount (snd (m s1)) = successCount s /\
        processedCount (snd (m s1)) = processedCount s
    | Thrown x =>
        tally (snd (m s1)) = tally s /\ endsRejected x new
    end.
Proof.
  intros Hm C T. destruct (Hm s1) as (n & C1 & H). exists (e :: n).
  split; [rewrite C1, C; now rewrite <- app_assoc|].
  unfold tally in T. injection T as E Sc Pc.
  destruct (fst (m s1)).
  - now rewrite <- E, <- Sc, <- Pc.
  - now rewrite <- E, <- Sc, <- Pc.
  - destruct H as [H1 H2]. split; [|now apply endsRejected_cons].
    rewrite H1. unfold tally. now rewrite E, Sc, Pc.
Qed.

Lemma rowSpec_call {A B : Type} (k d : nat) (c : Call) (run : World -> Answer A * Store)
  (f : Answer A -> M Run B) :
  (forall w, wellFormed (fst (run w))) ->
  (forall a, wellFormed a -> rowSpec k d (f a)) ->
  rowSpec k d (bind (await (request c run)) f).
Proof.
  intros Hw Hf s. unfold bind, await, request.
  destruct (nextFault (world s)) as [|msg|x] eqn:F; cbn [fst snd].
  - apply (rowSpec_after_call k d _ {| call := c; outcome := Applied |});
      [apply Hf, Hw | reflexivity | reflexivity].
  - apply (rowSpec_after_call k d _ {| call := c; outcome := Refused msg |});
      [apply Hf; right; eauto | reflexivity | reflexivity].
  - exists [{| call := c; outcome := Rejected x |}]. split; [reflexivity|].
    split; [reflexivity|]. now exists [], c.
Qed.

Lemma rowSpec_call_ignored {A B : Type} (k d : nat) (c : Call)
  (run : World -> Answer A * Store) (f : Answer A -> M Run B) :
  (forall a, rowSpec k d (f a)) ->
  rowSpec k d (bind (await (request c run)) f).
Proof.
  intros Hf s. unfold bind, await, request.
  destruct (nextFault (world s)) as [|msg|x] eqn:F; cbn [fst snd].
  - apply (rowSpec_after_call k d _ {| call := c; outcome := Applied |});
      [apply Hf | reflexivity | reflexivity].
  - apply (rowSpec_after_call k d _ {| call := c; outcome := Refused msg |});
      [apply Hf | reflexivity | reflexivity].
  - exists [{| call := c; outcome := Rejected x |}]. split; [reflexivity|].
    split; [reflexivity|]. now exists [], c.
Qed.

Lemma rowSpec_forOf {A : Type} (k : nat) (l : list A) (body : A -> M Run unit) :
  (forall x, rowSpec k 0 (body x)) -> rowSpec k 0 (forOf l body).
Proof.
  intros H. induction l as [|x l IH]; simpl.
  - apply rowSpec_ret.
  - apply rowSpec_bind; [apply H | intros _; exact IH].
Qed.

Section RowOutcome.

Variable dateParses : string -> bool.
Variable ilike : string -> string -> bool.

Lemma resolveMember_rowSpec (r : ExcelRow) (k : nat) : rowSpec k 0 (resolveMember r k).
Proof.
  unfold resolveMember, selectUser. apply rowSpec_call; [intros w; apply wellFormed_single|].
  intros a _. destruct (ans_data a) as [u|].
  - unfold updateUserSingle. apply rowSpec_call.
    + intros w. destruct (List.filter _ _) as [|x [|y l]]; simpl;
        [right | left | right]; eexists; reflexivity.
    + intros upd _. destruct (ans_error upd); [now apply rowSpec_report | apply rowSpec_ret].
  - unfold insertUser. apply rowSpec_call; [intros w; left; eexists; reflexivity|].
    intros ins [[x ->]|[msg ->]]; simpl; [apply rowSpec_ret | now apply rowSpec_report].
Qed.

Lemma resolveFamily_rowSpec (r : ExcelRow) (k : nat) : rowSpec k 0 (resolveFamily ilike r k).
Proof.
  unfold resolveFamily. apply rowSpec_bind; [apply rowSpec_get|]. intros f.
  destruct (negb _); [|apply rowSpec_ret].
  unfold selectFamily. apply rowSpec_call; [intros w; apply wellFormed_single|].
  intros a _. apply rowSpec_bind.
  - destruct (ans_data a) as [fam|]; [apply rowSpec_ret|].
    unfold insertFamily. apply rowSpec_call; [intros w; left; eexists; reflexivity|].
    intros ins [[x ->]|[msg ->]]; simpl; [apply rowSpec_ret | now apply rowSpec_report].
  - intros fid. apply rowSpec_bind; [|intros _; apply rowSpec_ret].
    destruct (truthy fid); [apply rowSpec_modify; now split | apply rowSpec_ret].
Qed.

Lemma linkFamily_rowSpec (r : ExcelRow) (k : nat) (u : string) (f : option string) :
  rowSpec k 0 (linkFamily r u f).
Proof.
  unfold linkFamily. destruct (_ && _); [|apply rowSpec_ret].
  unfold updateUser. apply rowSpec_call_ignored. intros _.
  destruct (_ && _); [|apply rowSpec_ret].
  unfold setFamilyHead. apply rowSpec_call_ignored. intros _. apply rowSpec_ret.
Qed.

Lemma assignGroups_rowSpec (r : ExcelRow) (k : nat) (u : string) :
  rowSpec k 0 (assignGroups r u).
Proof.
  unfold assignGroups. destruct (_ && _); [|apply rowSpec_ret].
  apply rowSpec_forOf. intros nm. unfold joinGroup.
  apply rowSpec_bind; [apply rowSpec_get|]. intros f.
  destruct (truthyOpt _); [|apply rowSpec_ret].
  unfold upsertMembership. apply rowSpec_call_ignored. intros _. apply rowSpec_ret.
Qed.

Lemma validateRow_row (r : ExcelRow) (k : nat) (e : ImportError) :
  validateRow dateParses r k = Some e -> row e = k.
Proof.
  rewrite validateRow_checks. destruct (firstViolation _); [|discriminate].
  now intros [= <-].
Qed.

Lemma tryBlock_rowSpec (r : ExcelRow) (k : nat) : rowSpec k 1 (tryBlock dateParses ilike r k).
Proof.
  unfold tryBlock. destruct (validateRow dateParses r k) as [e|] eqn:V.
  - intros s. exists []. simpl. rewrite app_nil_r. apply validateRow_row in V.
    split; [reflexivity|]. split; [now exists e | split; reflexivity].
  - apply rowSpec_bind; [apply resolveMember_rowSpec|]. intros u.
    apply rowSpec_bind; [apply resolveFamily_rowSpec|]. intros f.
    apply rowSpec_bind; [apply linkFamily_rowSpec|]. intros _.
    apply rowSpec_bind; [apply assignGroups_rowSpec|]. intros _.
    intros s. exists []. simpl. rewrite app_nil_r. repeat split; lia.
Qed.

End RowOutcome.

Lemma flushProgress_outcome (jobId : string) (s : Run) :
  exists new,
    calls (world (snd (flushProgress jobId s))) = calls (world s) ++ new /\
    tally (snd (flushProgress jobId s)) = tally s /\
    endsWell jobId new (fst (flushProgress jobId s)) (snd (flushProgress jobId s)).
Proof.
  unfold flushProgress, bind, get. destruct (Nat.eqb_spec (processedCount s mod 10) 0) as [E|E];
    [|exists []; simpl; now rewrite app_nil_r].
  unfold await, updateJob, request.
  destruct (nextFault (world s)); simpl; eexists; (split; [reflexivity|]);
    (split; [reflexivity|]); try exact I.
  split; [exact E|]. now exists [].
Qed.

Section TurnFacts.

Variable dateParses : string -> bool.
Variable ilike : string -> string -> bool.

Lemma iteration_eq (jobId : string) (r : ExcelRow) (i : nat) (s : Run) :
  iteration dateParses ilike jobId r i s =
  match tryBlock dateParses ilike r (i + 2) s with
  | (Normal _, s1) =>
      loopBody (flushProgress jobId) (setProcessedCount (S (processedCount s1)) s1)
  | (ContinueLoop, s1) => (Normal tt, s1)
  | (Thrown x, s1) =>
      loopBody (flushProgress jobId)
        (setProcessedCount (S (processedCount s1))
           (setErrors (errors s1 ++ [processingError r (i + 2) x]) s1))
  end.
Proof.
  unfold iteration, loopBody, bind, tryCatch, catchBlock, pushError, modify, ret.
  cbv zeta. destruct (tryBlock dateParses ilike r (i + 2) s) as [[v| |x] s1]; reflexivity.
Qed.

Lemma loopBody_flush (jobId : string) (s : Run) :
  loopBody (flushProgress jobId) s = flushProgress jobId s.
Proof.
  destruct (flushProgress_outcome jobId s) as (n & _ & _ & H). unfold loopBody.
  destruct (flushProgress jobId s) as [[[]| |x] s']; simpl in *;
    [reflexivity | contradiction | reflexivity].
Qed.

Lemma flushRejected_app (jobId : string) (x : Exception) (a b : list Event) (s' : Run) :
  flushRejected jobId x b s' -> flushRejected jobId x (a ++ b) s'.
Proof. intros (H & pre & ->). split; [exact H|]. exists (a ++ pre). now rewrite app_assoc. Qed.

Lemma endsWell_app (jobId : string) (a b : list Event) (res : Result unit) (s' : Run) :
  endsWell jobId b res s' -> endsWell jobId (a ++ b) res s'.
Proof. destruct res; simpl; auto. apply flushRejected_app. Qed.

Lemma hasRejected_app_l (x : Exception) (a b : list Event) :
  hasRejected x a -> hasRejected x (a ++ b).
Proof.
  intros (pre & c & post & ->). exists pre, c, (post ++ b). now rewrite <- app_assoc.
Qed.

Lemma hasRejected_app_r (x : Exception) (a b : list Event) :
  hasRejected x b -> hasRejected x (a ++ b).
Proof.
  intros (pre & c & post & ->). exists (a ++ pre), c, post. now rewrite <- app_assoc.
Qed.

Lemma iteration_outcome (jobId : string) (r : ExcelRow) (i : nat) (s : Run) :
  exists new,
    calls (world (snd (iteration dateParses ilike jobId r i s))) = calls (world s) ++ new /\
    Turn r i new s (snd (iteration dateParses ilike jobId r i s)) /\
    endsWell jobId new (fst (iteration dateParses ilike jobId r i s))
      (snd (iteration dateParses ilike jobId r i s)).
Proof.
  rewrite iteration_eq.
  destruct (tryBlock_rowSpec dateParses ilike r (i + 2) s) as (n1 & C1 & T).
  destruct (tryBlock dateParses ilike r (i + 2) s) as [[v| |x] s1]; cbn [fst snd] in T, C1.
  - destruct T as (E & Sc & Pc). rewrite loopBody_flush.
    destruct (flushProgress_outcome jobId (setProcessedCount (S (processedCount s1)) s1))
      as (n2 & C2 & F & R).
    exists (n1 ++ n2). split; [rewrite C2; simpl; now rewrite C1, app_assoc|].
    split; [|now apply endsWell_app].
    unfold tally in F. injection F as F1 F2 F3. simpl in F1, F2, F3.
    apply Succeeded; [congruence | lia | lia].
  - destruct T as ((e & He & E) & Sc & Pc). exists n1. split; [exact C1|].
    split; [|exact I]. now apply (Reported r i n1 s s1 e).
  - destruct T as (T & pre & c & ->). unfold tally in T. injection T as E Sc Pc.
    rewrite loopBody_flush.
    destruct (flushProgress_outcome jobId
                (setProcessedCount (S (processedCount s1))
                   (setErrors (errors s1 ++ [processingError r (i + 2) x]) s1)))
      as (n2 & C2 & F & R).
    exists ((pre ++ [{| call := c; outcome := Rejected x |}]) ++ n2).
    split; [rewrite C2; simpl; rewrite C1, <- !app_assoc; reflexivity|].
    split; [|now apply endsWell_app].
    unfold tally in F. injection F as F1 F2 F3. simpl in F1, F2, F3.
    apply (Caught r i _ s _ x); [congruence | lia | lia |].
    apply hasRejected_app_l. exists pre, c, []. reflexivity.
Qed.

End TurnFacts.

Section Accounting.

Variable dateParses : string -> bool.
Variable ilike : string -> string -> bool.

Lemma tryBlock_emits (P : Event -> Prop) (w0 : World) (r : ExcelRow) (k : nat) :
  (forall c o, offJob c = true -> P {| call := c; outcome := o |}) ->
  preserves (emits P w0) (tryBlock dateParses ilike r k).
Proof.
  intros H. pres; intros; simpl; try assumption;
    apply emits_advance; try assumption; now apply H.
Qed.

Lemma emits_tally (P : Event -> Prop) (w0 : World) (s : Run) (f : Run -> Run) :
  world (f s) = world s -> emits P w0 s -> emits P w0 (f s).
Proof. intros E (new & Hc & Hf). exists new. now rewrite E. Qed.

Lemma flushProgress_emits (P : Event -> Prop) (w0 : World) (jobId : string) (s : Run) :
  emits P w0 s ->
  (forall o, P {| call := JobUpdate jobId (progressPatch s); outcome := o |}) ->
  emits P w0 (snd (flushProgress jobId s)).
Proof.
  intros He Hp. unfold flushProgress, bind, get.
  destruct (Nat.eqb _ 0); [|exact He].
  unfold await, updateJob, request.
  destruct (nextFault (world s)); cbn [fst snd]; now apply emits_advance.
Qed.

Lemma iteration_accounts (total : nat) (w0 : World) (jobId : string) (r : ExcelRow)
  (i : nat) (s : Run) :
  i < total -> emits (accounted total) w0 s -> afterRows i s ->
  emits (accounted total) w0 (snd (iteration dateParses ilike jobId r i s)) /\
  afterRows (S i) (snd (iteration dateParses ilike jobId r i s)).
Proof.
  intros Hi He (A1 & A2 & A3).
  destruct (iteration_outcome dateParses ilike jobId r i s) as (nw & _ & T & _).
  split.
  - rewrite iteration_eq.
    pose proof (tryBlock_emits (accounted total) w0 r (i + 2)
                  (fun c o H => ltac:(destruct c; simpl in *; (discriminate || exact I))) s He)
      as He1.
    destruct (tryBlock_rowSpec dateParses ilike r (i + 2) s) as (n1 & _ & R).
    destruct (tryBlock dateParses ilike r (i + 2) s) as [[v| |x] s1]; cbn [fst snd] in *.
    + destruct R as (E & Sc & Pc). rewrite loopBody_flush.
      apply flushProgress_emits.
      * apply (emits_tally _ _ s1 (setProcessedCount _)); [reflexivity | exact He1].
      * intros o. unfold accounted. simpl. rewrite E.
        split; [lia|]. split; [lia|]. split; [lia | discriminate].
    + exact He1.
    + destruct R as (T' & _). unfold tally in T'. injection T' as E Sc Pc.
      rewrite loopBody_flush. apply flushProgress_emits.
      * apply (emits_tally _ _ _ (setProcessedCount _)); [reflexivity|].
        apply (emits_tally _ _ _ (setErrors _)); [reflexivity | exact He1].
      * intros o. unfold accounted. simpl. rewrite E, length_app. simpl.
        split; [lia|]. split; [lia|]. split; [lia | discriminate].
  - destruct T as [E Sc Pc | e _ E Sc Pc | x E Sc Pc _]; unfold afterRows; rewrite E, Sc, Pc;
      rewrite ?length_app; simpl; lia.
Qed.

Lemma loop_accounts (total : nat) (w0 : World) (jobId : string) (rows : list ExcelRow)
  (i : nat) (s : Run) :
  i + length rows <= total -> emits (accounted total) w0 s -> afterRows i s ->
  emits (accounted total) w0 (snd (loop dateParses ilike jobId rows i s)) /\
  (exists n, n <= i + length rows /\ afterRows n (snd (loop dateParses ilike jobId rows i s))) /\
  match fst (loop dateParses ilike jobId rows i s) with
  | Normal _ => afterRows (i + length rows) (snd (loop dateParses ilike jobId rows i s))
  | ContinueLoop => False
  | Thrown _ => True
  end.
Proof.
  revert i s. induction rows as [|r rows IH]; intros i s Hi He Ha; simpl.
  - rewrite Nat.add_0_r. split; [exact He|]. split; [|exact Ha]. exists i. split; [lia | exact Ha].
  - simpl in Hi.
    destruct (iteration_accounts total w0 jobId r i s) as [He1 Ha1]; [lia | assumption..|].
    destruct (iteration_outcome dateParses ilike jobId r i s) as (nw & _ & _ & R).
    unfold bind.
    destruct (iteration dateParses ilike jobId r i s) as [[[]| |x] s1]; cbn [fst snd] in *.
    + destruct (IH (S i) s1) as (H1 & (n & Hn & H2) & H3); [lia | assumption..|].
      split; [exact H1|]. split; [exists n; split; [lia | exact H2]|].
      destruct (fst (loop dateParses ilike jobId rows (S i) s1)); auto.
      now replace (i + S (length rows)) with (S i + length rows) by lia.
    + contradiction.
    + split; [exact He1|]. split; [|exact I]. exists (S i). split; [lia | exact Ha1].
Qed.

Lemma finish_accounts (total : nat) (w0 : World) (jobId : string) (st : JobStatus) :
  hoare (fun s => emits (accounted total) w0 s /\
                  (exists n, n <= total /\ afterRows n s) /\
                  (st = completed -> afterRows total s))
    (finish jobId st)
    (fun _ s => emits (accounted total) w0 s /\ exists n, n <= total /\ afterRows n s).
Proof.
  intros s (He & (n & Hn & A1 & A2 & A3) & Hc).
  assert (forall t o, accounted total {| call := JobUpdate jobId (finalPatch st s t);
                                         outcome := o |}) as Hp.
  { intros t o. unfold accounted. simpl. split; [lia|]. split; [lia|]. split; [lia|].
    intros [= ->]. destruct (Hc eq_refl) as (_ & _ & Hc'). lia. }
  unfold finish, bind, get, await, now, updateJob, request. cbn [fst snd].
  destruct (nextFault (world (setWorld (world s) s))); cbn [fst snd];
    (split; [apply emits_advance; [now rewrite setWorld_same | apply Hp]
            | exists n; split; [exact Hn | repeat split; assumption]]).
Qed.

Lemma importRows_accounts (w0 : World) (jobId : string) (rows : list ExcelRow) :
  hoare (fun s => emits (accounted (length rows)) w0 s /\ afterRows 0 s)
    (importRows dateParses ilike jobId rows)
    (fun res s => emits (accounted (length rows)) w0 s /\
                  (exists n, n <= length rows /\ afterRows n s) /\
                  match res with
                  | Normal _ => afterRows (length rows) s
                  | _ => True
                  end).
Proof.
  assert (forall A (m : M Run A),
             preserves (fun s => emits (accounted (length rows)) w0 s /\ afterRows 0 s) m ->
             forall k : A -> M Run unit,
             (forall a, hoare (fun s => emits (accounted (length rows)) w0 s /\ afterRows 0 s)
                          (k a)
                          (fun res s => emits (accounted (length rows)) w0 s /\
                                        (exists n, n <= length rows /\ afterRows n s) /\
                                        match res with
                                        | Normal _ => afterRows (length rows) s
                                        | _ => True
                                        end)) ->
             hoare (fun s => emits (accounted (length rows)) w0 s /\ afterRows 0 s)
               (bind m k)
               (fun res s => emits (accounted (length rows)) w0 s /\
                             (exists n, n <= length rows /\ afterRows n s) /\
                             match res with
                             | Normal _ => afterRows (length rows) s
                             | _ => True
                             end)) as Step.
  { intros A m Hm k Hk. apply hoare_after; [exact Hm | exact Hk | |];
      intros; (split; [tauto|]); (split; [exists 0; split; [lia | tauto] | exact I]). }
  unfold importRows. apply Step.
  { pres; intros r0; intros; simpl; destruct_and?; (split; [|assumption]);
      try assumption; apply emits_advance; try assumption; exact I. }
  intros _. apply Step.
  { pres; intros r0; intros; simpl; destruct_and?; (split; [|assumption]);
      try assumption; apply emits_advance; try assumption; exact I. }
  intros _ s [He Ha].
  destruct (loop_accounts (length rows) w0 jobId rows 0 s) as (H1 & H2 & H3);
    [simpl; lia | assumption..|].
  split; [exact H1|]. split; [exact H2|].
  destruct (fst (loop dateParses ilike jobId rows 0 s)); auto.
Qed.

(** X5: in every update of the job that a run on [rows] writes with the
    three counters, the progress writes and the final update alike,
    successful is at most processed, processed is at most the number of
    rows, successful plus failed is at most the number of rows; and in the
    update that sets the status completed, successful plus failed is
    exactly the number of rows. *)
Theorem counters_account_for_rows (jobId createdBy : string) (rows : list ExcelRow)
  (w : World) :
  Forall (accounted (length rows))
    (drop (length (calls w))
       (calls (snd (processImport dateParses ilike jobId rows createdBy w)))).
Proof.
  unfold processImport. cbn [snd]. apply (emits_drop (accounted (length rows)) w).
  assert (hoare (fun s => emits (accounted (length rows)) w s /\ afterRows 0 s)
            (processImportBody dateParses ilike jobId rows)
            (fun _ s => emits (accounted (length rows)) w s)) as H.
  { unfold processImportBody.
    apply hoare_tryCatch
      with (Q1 := fun _ s => emits (accounted (length rows)) w s /\
                             exists n, n <= length rows /\ afterRows n s).
    - eapply hoare_bind.
      + apply importRows_accounts.
      + intros a. eapply hoare_conseq; [apply (finish_accounts (length rows) w jobId completed) | |].
        * intros s (He & Hn & Ha). split; [exact He|]. split; [exact Hn | intros _; exact Ha].
        * intros r s H. exact H.
      + intros s (He & Hn & _). now split.
      + intros e s (He & Hn & _). now split.
    - intros e. eapply hoare_bind.
      + eapply hoare_conseq; [apply (finish_accounts (length rows) w jobId failed) | |].
        * intros s (He & Hn). split; [exact He|]. split; [exact Hn | discriminate].
        * intros r s H. exact H.
      + intros a s [He _]. exact He.
      + intros s [He _]. exact He.
      + intros x s [He _]. exact He.
    - intros a s [He _]. exact He.
    - intros s [He _]. exact He. }
  apply H. split; [apply (emits_start _ (initialRun w))|].
  unfold afterRows. simpl. lia.
Qed.

End Accounting.

(** ** The order of the error entries *)

Lemma inRowOrder_snoc (hi : nat) (l : list ImportError) (e : ImportError) :
  2 <= hi -> inRowOrder hi l -> row e = hi -> inRowOrder (S hi) (l ++ [e]).
Proof.
  intros H2 [Hs Hb] He. split.
  - rewrite map_app. simpl. rewrite He. clear He.
    induction l as [|x l IH]; simpl.
    + repeat constructor.
    + inversion Hs; subst. inversion Hb; subst. constructor; [now apply IH|].
      apply List.Forall_app. split; [assumption|]. constructor; [lia | constructor].
  - apply List.Forall_app. split.
    + eapply List.Forall_impl; [|exact Hb]. simpl. intros; lia.
    + constructor; [lia | constructor].
Qed.

Lemma inRowOrder_le (hi hi' : nat) (l : list ImportError) :
  hi <= hi' -> inRowOrder hi l -> inRowOrder hi' l.
Proof.
  intros H [Hs Hb]. split; [exact Hs|].
  eapply List.Forall_impl; [|exact Hb]. simpl. intros; lia.
Qed.

Section RowOrder.

Variable dateParses : string -> bool.
Variable ilike : string -> string -> bool.

Lemma loop_rowOrder (jobId : string) (rows : list ExcelRow) (i : nat) (s : Run) :
  inRowOrder (i + 2) (errors s) ->
  inRowOrder (i + length rows + 2) (errors (snd (loop dateParses ilike jobId rows i s))).
Proof.
  revert i s. induction rows as [|r rows IH]; intros i s H; simpl.
  - now rewrite Nat.add_0_r.
  - destruct (iteration_outcome dateParses ilike jobId r i s) as (nw & _ & T & _).
    assert (inRowOrder (S i + 2) (errors (snd (iteration dateParses ilike jobId r i s)))) as H1.
    { destruct T as [E _ _ | e He E _ _ | x E _ _ _]; rewrite E.
      - eapply inRowOrder_le; [|exact H]. lia.
      - apply (inRowOrder_snoc (i + 2)); [lia | exact H | exact He].
      - apply (inRowOrder_snoc (i + 2)); [lia | exact H | reflexivity]. }
    unfold bind.
    destruct (iteration dateParses ilike jobId r i s) as [[[]| |x] s1]; cbn [fst snd] in *.
    + replace (i + S (length rows) + 2) with (S i + length rows + 2) by lia. now apply IH.
    + eapply inRowOrder_le; [|exact H1]. lia.
    + eapply inRowOrder_le; [|exact H1]. lia.
Qed.

Lemma progressWrite_rowOrder (total : nat) (e : Event) :
  progressWrite e -> logInRowOrder total e.
Proof.
  unfold progressWrite, logInRowOrder. destruct (call e); auto.
  intros (_ & _ & _ & -> & _). exact I.
Qed.

Lemma finish_rowOrder (total : nat) (w0 : World) (jobId : string) (st : JobStatus) :
  preserves (fun s => emits (logInRowOrder total) w0 s /\ inRowOrder (total + 2) (errors s))
    (finish jobId st).
Proof.
  intros s [He Ho]. unfold finish, bind, get, await, now, updateJob, request. cbn [fst snd].
  destruct (nextFault (world (setWorld (world s) s))); cbn [fst snd];
    (split; [apply emits_advance; [now rewrite setWorld_same | exact Ho] | exact Ho]).
Qed.

Lemma importRows_rowOrder (w0 : World) (jobId : string) (rows : list ExcelRow) :
  hoare (fun s => emits (logInRowOrder (length rows)) w0 s /\ inRowOrder 2 (errors s))
    (importRows dateParses ilike jobId rows)
    (fun _ s => emits (logInRowOrder (length rows)) w0 s /\
                inRowOrder (length rows + 2) (errors s)).
Proof.
  assert (forall s, emits (logInRowOrder (length rows)) w0 s /\ inRowOrder 2 (errors s) ->
                    emits (logInRowOrder (length rows)) w0 s /\
                    inRowOrder (length rows + 2) (errors s)) as Weak.
  { intros s [He Ho]. split; [exact He|]. eapply inRowOrder_le; [|exact Ho]. lia. }
  unfold importRows.
  apply hoare_after; [| |intros s; apply Weak | intros e s; apply Weak].
  { pres; intros r0; intros; simpl; destruct_and?; (split; [|assumption]);
      try assumption; apply emits_advance; try assumption; exact I. }
  intros _.
  apply hoare_after; [| |intros s; apply Weak | intros e s; apply Weak].
  { pres; intros r0; intros; simpl; destruct_and?; (split; [|assumption]);
      try assumption; apply emits_advance; try assumption; exact I. }
  intros _ s [He Ho]. split.
  - apply (loop_emits dateParses ilike _ w0 jobId rows 0); [|exact He].
    apply progressWrite_rowOrder.
  - exact (loop_rowOrder jobId rows 0 s Ho).
Qed.

(** X6: every error log that a run writes follows the rows: its row
    numbers increase strictly, so that no row has two entries, and they lie
    between 2 and the number of rows plus 1. *)
Theorem error_log_follows_the_rows (jobId createdBy : string) (rows : list ExcelRow)
  (w : World) :
  Forall (logInRowOrder (length rows))
    (drop (length (calls w))
       (calls (snd (processImport dateParses ilike jobId rows createdBy w)))).
Proof.
  unfold processImport. cbn [snd]. apply (emits_drop (logInRowOrder (length rows)) w).
  assert (hoare (fun s => emits (logInRowOrder (length rows)) w s /\ inRowOrder 2 (errors s))
            (processImportBody dateParses ilike jobId rows)
            (fun _ s => emits (logInRowOrder (length rows)) w s)) as H.
  { unfold processImportBody.
    apply hoare_tryCatch
      with (Q1 := fun _ s => emits (logInRowOrder (length rows)) w s /\
                             inRowOrder (length rows + 2) (errors s)).
    - eapply hoare_bind.
      + apply importRows_rowOrder.
      + intros a. apply preserves_hoare with (I := fun s => _ /\ _), finish_rowOrder.
      + intros s H. exact H.
      + intros e s H. exact H.
    - intros e. eapply hoare_bind.
      + apply preserves_hoare with (I := fun s => _ /\ _), finish_rowOrder.
      + intros a s [He _]. exact He.
      + intros s [He _]. exact He.
      + intros x s [He _]. exact He.
    - intros a s [He _]. exact He.
    - intros s [He _]. exact He. }
  apply H. split; [apply (emits_start _ (initialRun w))|].
  split; simpl; constructor.
Qed.

End RowOrder.

(** ** The end of a run *)

Lemma plain_ret {A : Type} (a : A) : plain (@ret Run A a).
Proof. intros s. exists []. simpl. rewrite app_nil_r. repeat split. constructor. Qed.

Lemma plain_bind {A B : Type} (m : M Run A) (f : A -> M Run B) :
  plain m -> (forall a, plain (f a)) -> plain (bind m f).
Proof.
  intros Hm Hf s. destruct (Hm s) as (n1 & C1 & T1 & H1). unfold bind.
  destruct (m s) as [[a| |x] s1]; simpl in *.
  - destruct (Hf a s1) as (n2 & C2 & T2 & H2). exists (n1 ++ n2).
    split; [now rewrite C2, C1, app_assoc|]. split; [congruence|].
    destruct (fst (f a s1)); auto.
    + apply List.Forall_app. now split.
    + destruct H2 as (pre & c & ->). exists (n1 ++ pre), c. now rewrite app_assoc.
  - contradiction.
  - exists n1. auto.
Qed.

Lemma plain_call {A B : Type} (c : Call) (run : World -> Answer A * Store)
  (f : Answer A -> M Run B) :
  (forall a, plain (f a)) -> plain (bind (await (request c run)) f).
Proof.
  intros Hf. apply plain_bind; [|exact Hf]. intros s. unfold await, request.
  destruct (nextFault (world s)) as [|msg|x]; simpl; eexists; (split; [reflexivity|]);
    (split; [reflexivity|]); try (repeat constructor).
  now exists [], c.
Qed.

Lemma plain_modify (f : Run -> Run) :
  (forall s, tally (f s) = tally s /\ world (f s) = world s) -> plain (modify f).
Proof.
  intros H s. exists []. simpl. destruct (H s) as [-> ->]. rewrite app_nil_r.
  repeat split. constructor.
Qed.

Lemma markProcessing_plain (jobId : string) (rows : list ExcelRow) :
  plain (markProcessing jobId rows).
Proof.
  unfold markProcessing. apply plain_bind.
  - intros s. exists []. simpl. rewrite app_nil_r. repeat split. constructor.
  - intros t. unfold updateJob. apply plain_call. intros _. apply plain_ret.
Qed.

Lemma loadGroups_plain : plain loadGroups.
Proof.
  unfold loadGroups, selectGroups. apply plain_call. intros a.
  destruct (ans_data a); [apply plain_modify; now split | apply plain_ret].
Qed.

Section RunEnds.

Variable dateParses : string -> bool.
Variable ilike : string -> string -> bool.

Lemma loop_ends (jobId : string) (rows : list ExcelRow) (i : nat) (s : Run) :
  exists new,
    calls (world (snd (loop dateParses ilike jobId rows i s))) = calls (world s) ++ new /\
    endsWell jobId new (fst (loop dateParses ilike jobId rows i s))
      (snd (loop dateParses ilike jobId rows i s)).
Proof.
  revert i s. induction rows as [|r rows IH]; intros i s; simpl.
  - exists []. split; [now rewrite app_nil_r | exact I].
  - destruct (iteration_outcome dateParses ilike jobId r i s) as (n1 & C1 & _ & R).
    unfold bind.
    destruct (iteration dateParses ilike jobId r i s) as [[[]| |x] s1]; cbn [fst snd] in *.
    + destruct (IH (S i) s1) as (n2 & C2 & R2). exists (n1 ++ n2).
      split; [now rewrite C2, C1, app_assoc | now apply endsWell_app].
    + contradiction.
    + exists n1. now split.
Qed.

(** X8: the loop over the rows never ends by [continue]: it ends normally
    or it throws, and when it throws, its last call is a progress write,
    made at a count of processed rows that 10 divides, which the service
    rejected with the exception thrown. *)
Theorem loop_stops_only_on_rejected_progress_write (jobId : string)
  (rows : list ExcelRow) (i : nat) (s : Run) :
  exists new,
    calls (world (snd (loop dateParses ilike jobId rows i s))) = calls (world s) ++ new /\
    match fst (loop dateParses ilike jobId rows i s) with
    | Normal _ => True
    | ContinueLoop => False
    | Thrown x =>
        let s' := snd (loop dateParses ilike jobId rows i s) in
        processedCount s' mod 10 = 0 /\
        exists pre,
          new = pre ++ [{| call := JobUpdate jobId (progressPatch s');
                           outcome := Rejected x |}]
    end.
Proof. exact (loop_ends jobId rows i s). Qed.

(** X7: when the [try] block of a row throws, the turn of the loop catches
    the exception: it adds the entry [Processing error: ...] with the
    number of the row, counts the row as processed and not as a success;
    one of the calls of the turn was rejected with that exception; and the
    turn ends normally unless its own progress write is rejected. *)
Theorem row_exception_is_contained (jobId : string) (r : ExcelRow) (i : nat)
  (s s1 : Run) (x : Exception) :
  tryBlock dateParses ilike r (i + 2) s = (Thrown x, s1) ->
  let out := iteration dateParses ilike jobId r i s in
  errors (snd out) = errors s ++ [processingError r (i + 2) x] /\
  successCount (snd out) = successCount s /\
  processedCount (snd out) = S (processedCount s) /\
  exists new,
    calls (world (snd out)) = calls (world s) ++ new /\
    hasRejected x new /\
    match fst out with
    | Normal _ => True
    | ContinueLoop => False
    | Thrown y => flushRejected jobId y new (snd out)
    end.
Proof.
  intros H out. subst out. rewrite iteration_eq, H, loopBody_flush.
  destruct (tryBlock_rowSpec dateParses ilike r (i + 2) s) as (n1 & C1 & T).
  rewrite H in T, C1. cbn [fst snd] in T, C1. destruct T as (T & pre & c & ->).
  unfold tally in T. injection T as E Sc Pc.
  destruct (flushProgress_outcome jobId
              (setProcessedCount (S (processedCount s1))
                 (setErrors (errors s1 ++ [processingError r (i + 2) x]) s1)))
    as (n2 & C2 & F & R).
  unfold tally in F. injection F as F1 F2 F3. simpl in F1, F2, F3.
  split; [congruence|]. split; [lia|]. split; [lia|].
  exists ((pre ++ [{| call := c; outcome := Rejected x |}]) ++ n2).
  split; [rewrite C2; simpl; rewrite C1, <- !app_assoc; reflexivity|].
  split; [apply hasRejected_app_l; exists pre, c, []; reflexivity|].
  exact (endsWell_app jobId (pre ++ [{| call := c; outcome := Rejected x |}]) n2 _ _ R).
Qed.

Lemma flushRejected_ends (jobId : string) (x : Exception) (new : list Event) (s : Run) :
  flushRejected jobId x new s -> endsRejected x new.
Proof. intros (_ & pre & ->). eexists _, _. reflexivity. Qed.

Lemma loop_plain_result (jobId : string) (rows : list ExcelRow) (i : nat) (s : Run) :
  exists new,
    calls (world (snd (loop dateParses ilike jobId rows i s))) = calls (world s) ++ new /\
    match fst (loop dateParses ilike jobId rows i s) with
    | Normal _ => True
    | ContinueLoop => False
    | Thrown x => endsRejected x new
    end.
Proof.
  destruct (loop_ends jobId rows i s) as (new & C & H). exists new. split; [exact C|].
  destruct (fst (loop dateParses ilike jobId rows i s)); auto.
  eapply flushRejected_ends, H.
Qed.

Lemma importRows_result (jobId : string) (rows : list ExcelRow) (s : Run) :
  exists new,
    calls (world (snd (importRows dateParses ilike jobId rows s))) = calls (world s) ++ new /\
    match fst (importRows dateParses ilike jobId rows s) with
    | Normal _ => True
    | ContinueLoop => False
    | Thrown x => endsRejected x new
    end.
Proof.
  unfold importRows.
  destruct (plain_bind (markProcessing jobId rows) (fun _ => loadGroups)
              (markProcessing_plain jobId rows) (fun _ => loadGroups_plain) s)
    as (n1 & C1 & _ & H1).
  rewrite <- (bind_assoc (markProcessing jobId rows) (fun _ => loadGroups)
                (fun _ => loop dateParses ilike jobId rows 0) s).
  rewrite bind_cases.
  destruct (bind (markProcessing jobId rows) (fun _ => loadGroups) s) as [[[]| |x] s1];
    cbn [fst snd] in *.
  - destruct (loop_plain_result jobId rows 0 s1) as (n2 & C2 & H2).
    exists (n1 ++ n2). split; [now rewrite C2, C1, app_assoc|].
    destruct (fst (loop dateParses ilike jobId rows 0 s1)); auto.
    destruct H2 as (pre & c & ->). exists (n1 ++ pre), c. now rewrite app_assoc.
  - contradiction.
  - exists n1. now split.
Qed.

Lemma finish_cases (jobId : string) (st : JobStatus) (s : Run) :
  exists o,
    calls (world (snd (finish jobId st s))) =
      calls (world s) ++ [{| call := JobUpdate jobId (finalPatch st s (clock (world s)));
                             outcome := o |}] /\
    tally (snd (finish jobId st s)) = tally s /\
    o = nextFault (world s) /\
    fst (finish jobId st s) = match o with
                              | Rejected x => Thrown x
                              | _ => Normal tt
                              end.
Proof.
  unfold finish, bind, get, await, now, updateJob, request. cbn [fst snd].
  rewrite setWorld_same.
  destruct (nextFault (world s)) as [|msg|x] eqn:F; cbn [fst snd];
    eexists; (split; [reflexivity|]); (split; [reflexivity|]); split; (exact F || reflexivity).
Qed.

Lemma finalPatch_terminal (st : JobStatus) (s : Run) (t : nat) :
  terminalUpdate st (finalPatch st s t).
Proof. repeat split; discriminate. Qed.

(** How the run ends. *)
Lemma processImportBody_end (jobId : string) (rows : list ExcelRow) (s : Run) :
  let out := processImportBody dateParses ilike jobId rows s in
  exists pre p o,
    calls (world (snd out)) =
      calls (world s) ++ pre ++ [{| call := JobUpdate jobId p; outcome := o |}] /\
    match fst out with
    | Normal _ =>
        answers o /\
        let s1 := snd (importRows dateParses ilike jobId rows s) in
        p = finalPatch completed s1 (clock (world s1))
    | ContinueLoop => False
    | Thrown x =>
        terminalUpdate failed p /\
        hasRejected x (pre ++ [{| call := JobUpdate jobId p; outcome := o |}])
    end.
Proof.
  intros out. subst out. unfold processImportBody, tryCatch. rewrite bind_cases.
  destruct (importRows_result jobId rows s) as (n1 & C1 & H1).
  assert (forall s1 n x,
             calls (world s1) = calls (world s) ++ n -> hasRejected x n ->
             exists pre p o,
               calls (world (snd ((finish jobId failed ;; @throw Run unit x) s1))) =
                 calls (world s) ++ pre ++ [{| call := JobUpdate jobId p; outcome := o |}] /\
               match fst ((finish jobId failed ;; @throw Run unit x) s1) with
               | Normal _ => False
               | ContinueLoop => False
               | Thrown y =>
                   terminalUpdate failed p /\
                   hasRejected y (pre ++ [{| call := JobUpdate jobId p; outcome := o |}])
               end) as Handler.
  { intros s1 n x C Hx. destruct (finish_cases jobId failed s1) as (o & Cf & _ & _ & Rf).
    exists n, (finalPatch failed s1 (clock (world s1))), o.
    rewrite bind_cases.
    destruct (finish jobId failed s1) as [[[]| |y] s2];
      cbn beta iota delta [fst snd throw] in *.
    - split; [now rewrite Cf, C, app_assoc|].
      split; [apply finalPatch_terminal | now apply hasRejected_app_l].
    - destruct o; discriminate.
    - split; [now rewrite Cf, C, app_assoc|].
      split; [apply finalPatch_terminal|]. destruct o; try discriminate.
      injection Rf as ->. apply hasRejected_app_r. eexists [], _, []. reflexivity. }
  assert (forall r0 : Result unit * Run,
             (exists pre p o,
                calls (world (snd r0)) =
                  calls (world s) ++ pre ++ [{| call := JobUpdate jobId p; outcome := o |}] /\
                match fst r0 with
                | Normal _ => False
                | ContinueLoop => False
                | Thrown y =>
                    terminalUpdate failed p /\
                    hasRejected y (pre ++ [{| call := JobUpdate jobId p; outcome := o |}])
                end) ->
             exists pre p o,
               calls (world (snd r0)) =
                 calls (world s) ++ pre ++ [{| call := JobUpdate jobId p; outcome := o |}] /\
               match fst r0 with
               | Normal _ =>
                   answers o /\
                   let s1 := snd (importRows dateParses ilike jobId rows s) in
                   p = finalPatch completed s1 (clock (world s1))
               | ContinueLoop => False
               | Thrown y =>
                   terminalUpdate failed p /\
                   hasRejected y (pre ++ [{| call := JobUpdate jobId p; outcome := o |}])
               end) as Weak.
  { intros r0 (pre & p & o & C & H). exists pre, p, o. split; [exact C|].
    destruct (fst r0); [contradiction | exact H | exact H]. }
  destruct (importRows dateParses ilike jobId rows s) as [[[]| |x] s1]; cbn [fst snd] in *.
  - destruct (finish_cases jobId completed s1) as (o & Cf & _ & _ & Rf).
    destruct (finish jobId completed s1) as [[[]| |y] s2] eqn:Fin; cbn [fst snd] in *.
    + exists n1, (finalPatch completed s1 (clock (world s1))), o.
      split; [now rewrite Cf, C1, app_assoc|].
      split; [now destruct o | reflexivity].
    + destruct o; discriminate.
    + apply Weak. apply (Handler s2 (n1 ++ [{| call := JobUpdate jobId (finalPatch completed s1
                                                               (clock (world s1)));
                                   outcome := o |}])).
      * now rewrite Cf, C1, app_assoc.
      * destruct o; try discriminate. injection Rf as ->.
        apply hasRejected_app_r. eexists [], _, []. reflexivity.
  - contradiction.
  - apply Weak. apply (Handler s1 n1); [exact C1|].
    destruct H1 as (pre & c & ->). now exists pre, c, [].
Qed.

(** X9: the last call of [processImport] is a terminal update of its job,
    one that sets the counters, the error log and the time of completion:
    with the status completed, and not rejected, when the run returns;
    with the status failed when the run throws, and then what it throws is
    the exception with which one of its calls was rejected. *)
Theorem run_ends_with_terminal_update (jobId createdBy : string) (rows : list ExcelRow)
  (w : World) :
  let out := processImport dateParses ilike jobId rows createdBy w in
  exists pre p o,
    calls (snd out) = calls w ++ pre ++ [{| call := JobUpdate jobId p; outcome := o |}] /\
    match fst out with
    | Normal _ => terminalUpdate completed p /\ answers o
    | ContinueLoop => False
    | Thrown x =>
        terminalUpdate failed p /\
        hasRejected x (pre ++ [{| call := JobUpdate jobId p; outcome := o |}])
    end.
Proof.
  intros out. subst out.
  destruct (processImportBody_end jobId rows (initialRun w)) as (pre & p & o & C & H).
  exists pre, p, o. split; [exact C|]. unfold processImport. cbn [fst].
  destruct (fst (processImportBody dateParses ilike jobId rows (initialRun w)));
    [|exact H | exact H].
  destruct H as [Ho ->]. split; [apply finalPatch_terminal | exact Ho].
Qed.

Lemma preserves_await_fault {A : Type} (I : Run -> Prop) (c : Call)
  (run : World -> Answer A * Store) :
  (forall r, I r -> I (setWorld (snd (request c run (world r))) r)) ->
  preserves I (await (request c run)).
Proof. intros H r Hr. unfold await. simpl. apply H, Hr. Qed.

Lemma calm_request {A : Type} (w0 : World) (c : Call) (run : World -> Answer A * Store)
  (r : Run) :
  calm w0 r -> calm w0 (setWorld (snd (request c run (world r))) r).
Proof.
  intros [Hf He]. unfold request, nextFault.
  destruct (faults (world r)) as [|f fs] eqn:F; simpl.
  - split; [simpl; rewrite F; constructor|].
    apply emits_advance; [exact He | exact I].
  - inversion Hf; subst.
    destruct f; simpl; try contradiction;
      (split; [simpl; rewrite F; assumption | apply emits_advance; [exact He | exact I]]).
Qed.

Lemma calm_world (w0 : World) (s s' : Run) : world s' = world s -> calm w0 s -> calm w0 s'.
Proof.
  intros E [Hf (new & Hc & Hn)]. unfold calm, emits. rewrite E. split; [exact Hf|].
  now exists new.
Qed.

Ltac calm_side :=
  intros; simpl;
  first [ assumption
        | eapply calm_world; [|eassumption]; reflexivity ].

Lemma loop_calm (w0 : World) (jobId : string) (rows : list ExcelRow) (i : nat) :
  preserves (calm w0) (loop dateParses ilike jobId rows i).
Proof.
  revert i. induction rows as [|r rows IH]; intros i; simpl.
  - apply preserves_ret.
  - apply preserves_bind; [|intros _; apply IH].
    repeat first [apply preserves_await_fault; intros; apply calm_request; assumption
                 | pres_step]; calm_side.
Qed.

Lemma processImportBody_calm (w0 : World) (jobId : string) (rows : list ExcelRow) :
  preserves (calm w0) (processImportBody dateParses ilike jobId rows).
Proof.
  unfold processImportBody, importRows.
  repeat first [apply loop_calm
               | apply preserves_await_fault; intros; apply calm_request; assumption
               | pres_step]; calm_side.
Qed.

Lemma importRows_calm (w0 : World) (jobId : string) (rows : list ExcelRow) :
  preserves (calm w0) (importRows dateParses ilike jobId rows).
Proof.
  unfold importRows.
  repeat first [apply loop_calm
               | apply preserves_await_fault; intros; apply calm_request; assumption
               | pres_step]; calm_side.
Qed.

Lemma calm_start (s : Run) : Forall answers (faults (world s)) -> calm (world s) s.
Proof. intros H. split; [exact H | apply emits_start]. Qed.

Lemma calm_no_rejection (s s' : Run) (new : list Event) (x : Exception) :
  calm (world s) s' -> calls (world s') = calls (world s) ++ new -> ~ hasRejected x new.
Proof.
  intros [_ (new' & C & H)] C' (pre & c & post & ->). rewrite C in C'.
  apply app_inv_head in C'. subst new'.
  apply List.Forall_app in H as [_ H]. inversion H; subst. contradiction.
Qed.

Lemma iteration_calm_counts (jobId : string) (r : ExcelRow) (i : nat) (s : Run) :
  Forall answers (faults (world s)) ->
  processedCount s = successCount s ->
  processedCount (snd (iteration dateParses ilike jobId r i s)) =
  successCount (snd (iteration dateParses ilike jobId r i s)).
Proof.
  intros Hf E.
  destruct (iteration_outcome dateParses ilike jobId r i s) as (new & C & T & _).
  pose proof (loop_calm (world s) jobId [r] i s (calm_start s Hf)) as Hc.
  simpl in Hc. rewrite bind_cases in Hc.
  assert (calm (world s) (snd (iteration dateParses ilike jobId r i s))) as Hc'.
  { destruct (iteration dateParses ilike jobId r i s) as [[[]| |y] s1]; exact Hc. }
  destruct T as [_ Sc Pc | e _ _ Sc Pc | x _ _ _ Hx]; [lia | lia |].
  exfalso. exact (calm_no_rejection s _ new x Hc' C Hx).
Qed.

Lemma loop_calm_counts (jobId : string) (rows : list ExcelRow) (i : nat) (s : Run) :
  Forall answers (faults (world s)) ->
  processedCount s = successCount s ->
  processedCount (snd (loop dateParses ilike jobId rows i s)) =
  successCount (snd (loop dateParses ilike jobId rows i s)).
Proof.
  revert i s. induction rows as [|r rows IH]; intros i s Hf E; simpl; [exact E|].
  pose proof (iteration_calm_counts jobId r i s Hf E) as E1.
  pose proof (loop_calm (world s) jobId [r] i s (calm_start s Hf)) as Hc.
  simpl in Hc. rewrite bind_cases in Hc. rewrite bind_cases.
  destruct (iteration dateParses ilike jobId r i s) as [[[]| |y] s1]; cbn [fst snd] in *;
    try exact E1.
  apply IH; [apply Hc | exact E1].
Qed.

(** X10: when the service rejects no call, though it may refuse some,
    [processImport] returns normally; its last call is the update that
    completes the job; in that update processed equals successful; and no
    call of the run was rejected. *)
Theorem run_without_rejection_completes (jobId createdBy : string)
  (rows : list ExcelRow) (w : World) :
  Forall answers (faults w) ->
  let out := processImport dateParses ilike jobId rows createdBy w in
  fst out = Normal tt /\
  exists pre p o,
    calls (snd out) = calls w ++ pre ++ [{| call := JobUpdate jobId p; outcome := o |}] /\
    terminalUpdate completed p /\
    set_processed_records p = set_successful_records p /\
    Forall (fun e => answers (outcome e)) (pre ++ [{| call := JobUpdate jobId p; outcome := o |}]).
Proof.
  intros Hf out. subst out. unfold processImport. cbn [fst snd].
  destruct (processImportBody_end jobId rows (initialRun w)) as (pre & p & o & C & H).
  pose proof (processImportBody_calm w jobId rows (initialRun w) (calm_start (initialRun w) Hf))
    as Hc.
  destruct (fst (processImportBody dateParses ilike jobId rows (initialRun w))) as [[]| |x].
  - split; [reflexivity|]. exists pre, p, o. split; [exact C|]. destruct H as [Ho Hp].
    cbv zeta in Hp. split; [rewrite Hp; apply finalPatch_terminal|]. split.
    + rewrite Hp. simpl. f_equal. unfold importRows.
      rewrite <- (bind_assoc (markProcessing jobId rows) (fun _ => loadGroups)
                    (fun _ => loop dateParses ilike jobId rows 0) (initialRun w)).
      rewrite bind_cases.
      destruct (plain_bind (markProcessing jobId rows) (fun _ => loadGroups)
                  (markProcessing_plain jobId rows) (fun _ => loadGroups_plain) (initialRun w))
        as (n1 & C1 & T1 & _).
      assert (calm w (snd (bind (markProcessing jobId rows) (fun _ => loadGroups)
                             (initialRun w)))) as Hc1.
      { apply (preserves_bind (calm w)); [| |apply (calm_start (initialRun w) Hf)].
        - unfold markProcessing.
          repeat first [apply preserves_await_fault; intros; apply calm_request; assumption
                       | pres_step]; calm_side.
        - intros _. unfold loadGroups.
          repeat first [apply preserves_await_fault; intros; apply calm_request; assumption
                       | pres_step]; calm_side. }
      unfold tally in T1. injection T1 as _ Sc Pc.
      destruct (bind (markProcessing jobId rows) (fun _ => loadGroups) (initialRun w))
        as [[[]| |y] s1]; cbn [fst snd] in *; try (simpl in Sc, Pc; congruence).
      apply loop_calm_counts; [apply Hc1 | simpl in Sc, Pc; congruence].
    + destruct Hc as [_ (new & Cn & Hn)]. simpl in Cn. rewrite C in Cn.
      apply app_inv_head in Cn. now subst new.
  - contradiction.
  - destruct H as [_ Hx]. exfalso.
    apply (calm_no_rejection (initialRun w) _ _ x Hc C Hx).
Qed.

End RunEnds.

(** ** Groups, members and links *)

Lemma fold_groups_lookup (l : list Group) (m : gmap string string) (k : string) :
  fold_left (fun m g => <[toLowerCase (group_name g) := group_id g]> m) l m !! k =
  match last (groupsNamed k l) with
  | Some g => Some (group_id g)
  | None => m !! k
  end.
Proof.
  induction l as [|g l IH] using rev_ind; [reflexivity|].
  rewrite fold_left_app. simpl. unfold groupsNamed in *. rewrite List.filter_app, last_app.
  simpl. destruct (String.eqb_spec (toLowerCase (group_name g)) k) as [E|E]; simpl.
  - rewrite E. now rewrite lookup_insert_eq.
  - rewrite lookup_insert_ne by exact E. exact IH.
Qed.

(** X12: when the service applies its select, [loadGroups] ends normally
    and leaves the store as it is, and the map of groups then gives for a
    key the id of the last group of the table whose lower-cased name is
    that key, and what it gave before when there is no such group. *)
Theorem loadGroups_keeps_last_group_of_a_name (s : Run) (k : string) :
  nextFault (world s) = Applied ->
  fst (loadGroups s) = Normal tt /\
  groupMap (snd (loadGroups s)) !! k =
    match last (groupsNamed k (groups (store (world s)))) with
    | Some g => Some (group_id g)
    | None => groupMap s !! k
    end /\
  store (world (snd (loadGroups s))) = store (world s).
Proof.
  intros F. unfold loadGroups, selectGroups, bind, await, request. rewrite F. simpl.
  split; [reflexivity|]. split; [apply fold_groups_lookup | reflexivity].
Qed.

Lemma loadGroups_keeps_last_group_of_a_name_witness :
  groupMap (snd (loadGroups (initialRun (freshWorld storeWithChoir [])))) !! "choir"
  = Some "g-choir".
Proof.
  exact (proj1 (proj2 (loadGroups_keeps_last_group_of_a_name
                         (initialRun (freshWorld storeWithChoir [])) "choir" eq_refl))).
Defined.

Section MemberCreation.

Variable r : ExcelRow.

(** X13: when the look-up is applied and the stored profiles that match
    the email or the phone of the row are none, or more than one, the row
    creates a member: the calls are the look-up and an insert of the
    profile object of the row, in which there is no email.  When the
    insert is applied the new profile is appended and its id is the
    result; when it is not, the table of profiles is unchanged. *)
Theorem resolveMember_creates_unless_one_match (n : nat) (s : Run) :
  nextFault (world s) = Applied ->
  length (matchesOf r (user_profiles (store (world s)))) <> 1 ->
  let out := resolveMember r n s in
  let created := newUserRow (genId (S (clock (world s)))) (profilePatch r) in
  exists o,
    drop (length (calls (world s))) (calls (world (snd out))) =
      [ {| call := UserSelect (email r) (phone r); outcome := Applied |};
        {| call := UserInsert (profilePatch r); outcome := o |} ] /\
    user_email created = None /\
    (o = Applied ->
     fst out = Normal (user_id created) /\
     user_profiles (store (world (snd out))) =
       user_profiles (store (world s)) ++ [created]) /\
    (o <> Applied ->
     user_profiles (store (world (snd out))) = user_profiles (store (world s))).
Proof.
  intros F Hm out created. subst out.
  unfold resolveMember, selectUser. rewrite bind_cases, await_request_eq, F.
  cbn [fst snd]. fold (matchesOf r (user_profiles (store (world s)))).
  rewrite (single_not_one _ Hm). unfold insertUser. rewrite bind_cases, await_request_eq.
  cbn [world setWorld].
  match goal with
  | |- context [nextFault ?w] => destruct (nextFault w) as [|msg|x] eqn:F2
  end;
    cbn [fst snd ans_error ans_data answered failedWith pushError modify bind continue ret
         world setWorld setErrors advance calls store user_profiles setUsers clock];
    eexists; (split; [rewrite <- app_assoc, drop_app_length; reflexivity|]);
    (split; [reflexivity|]);
    split; intros H; try discriminate; try contradiction; try (now split); reflexivity.
Qed.

Lemma resolveMember_create_eq (n : nat) (s : Run) :
  nextFault (world s) = Applied ->
  nextFault (advance (UserSelect (email r) (phone r)) Applied (store (world s)) (world s))
  = Applied ->
  length (matchesOf r (user_profiles (store (world s)))) <> 1 ->
  resolveMember r n s =
  (Normal (genId (S (clock (world s)))),
   setWorld
     (advance (UserInsert (profilePatch r)) Applied
        (setUsers (user_profiles (store (world s)) ++
                   [newUserRow (genId (S (clock (world s)))) (profilePatch r)])
           (store (world s)))
        (advance (UserSelect (email r) (phone r)) Applied (store (world s)) (world s)))
     s).
Proof.
  intros F F2 Hm.
  unfold resolveMember, selectUser. rewrite bind_cases, await_request_eq, F.
  cbn [fst snd]. fold (matchesOf r (user_profiles (store (world s)))).
  rewrite (single_not_one _ Hm). unfold insertUser. rewrite bind_cases, await_request_eq.
  cbn [world setWorld]. rewrite F2. reflexivity.
Qed.

Lemma resolveMember_update_eq (n : nat) (s : Run) (u : UserProfile) :
  nextFault (world s) = Applied ->
  nextFault (advance (UserSelect (email r) (phone r)) Applied (store (world s)) (world s))
  = Applied ->
  matchesOf r (user_profiles (store (world s))) = [u] ->
  List.filter (fun v => String.eqb (user_id v) (user_id u)) (user_profiles (store (world s)))
  = [u] ->
  resolveMember r n s =
  (Normal (user_id u),
   setWorld
     (advance (UserUpdate (user_id u) (profilePatch r)) Applied
        (setUsers (patchUsers (user_id u) (profilePatch r) (user_profiles (store (world s))))
           (store (world s)))
        (advance (UserSelect (email r) (phone r)) Applied (store (world s)) (world s)))
     s).
Proof.
  intros F F2 Hm Hid.
  unfold resolveMember, selectUser. rewrite bind_cases, await_request_eq, F.
  cbn [fst snd]. fold (matchesOf r (user_profiles (store (world s)))).
  rewrite Hm. cbn [single ans_data answered]. unfold updateUserSingle.
  rewrite bind_cases, await_request_eq. cbn [world setWorld]. rewrite F2.
  cbn [advance store]. rewrite Hid. reflexivity.
Qed.

Lemma filter_none {A : Type} (f : A -> bool) (l : list A) :
  Forall (fun x => f x = false) l -> List.filter f l = [].
Proof.
  induction 1 as [|x l Hx _ IH]; simpl; [reflexivity|]. now rewrite Hx.
Qed.

Lemma patchUsers_other (id : string) (p : UserPatch) (l : list UserProfile) :
  Forall (fun u => user_id u <> id) l -> patchUsers id p l = l.
Proof.
  induction 1 as [|x l Hx _ IH]; simpl; [reflexivity|].
  rewrite IH. destruct (String.eqb_spec (user_id x) id); [contradiction | reflexivity].
Qed.

(** X14: a row that matches no stored profile creates its member once: on
    a service that applies the next four calls, resolving the same row
    again finds the member just created and updates it.  Both resolutions
    give the id of that member, the second one makes a look-up and an
    update, and it leaves the table of profiles as the first left it. *)
Theorem resolveMember_again_updates_the_created (n n' : nat) (s : Run) :
  appliesNext 4 (world s) ->
  matchesOf r (user_profiles (store (world s))) = [] ->
  Forall (fun u => user_id u <> genId (S (clock (world s))))
    (user_profiles (store (world s))) ->
  let id := genId (S (clock (world s))) in
  let s1 := snd (resolveMember r n s) in
  let s2 := snd (resolveMember r n' s1) in
  fst (resolveMember r n s) = Normal id /\
  fst (resolveMember r n' s1) = Normal id /\
  user_profiles (store (world s1)) =
    user_profiles (store (world s)) ++ [newUserRow id (profilePatch r)] /\
  user_profiles (store (world s2)) = user_profiles (store (world s1)) /\
  map call (drop (length (calls (world s1))) (calls (world s2))) =
    [UserSelect (email r) (phone r); UserUpdate id (profilePatch r)].
Proof.
  intros Ha Hm Hid id s1 s2.
  apply appliesNext_S in Ha as [F1 Ha].
  specialize (Ha (UserSelect (email r) (phone r)) (store (world s))).
  apply appliesNext_S in Ha as [F2 Ha].
  pose proof (resolveMember_create_eq n s F1 F2 ltac:(rewrite Hm; simpl; lia)) as E1.
  fold id in E1.
  set (new := newUserRow id (profilePatch r)) in *.
  set (w1 := advance (UserSelect (email r) (phone r)) Applied (store (world s)) (world s))
    in *.
  set (st1 := setUsers (user_profiles (store (world s)) ++ [new]) (store (world s))) in *.
  specialize (Ha (UserInsert (profilePatch r)) st1).
  apply appliesNext_S in Ha as [F3 Ha].
  specialize (Ha (UserSelect (email r) (phone r))
                (store (advance (UserInsert (profilePatch r)) Applied st1 w1))).
  apply appliesNext_S in Ha as [F4 _].
  assert (s1 = setWorld (advance (UserInsert (profilePatch r)) Applied st1 w1) s) as Hs1
    by (unfold s1; now rewrite E1).
  assert (matchesOf r (user_profiles (store (world s1))) = [new]) as Hm1.
  { rewrite Hs1. simpl. unfold matchesOf in *. rewrite List.filter_app, Hm. simpl.
    rewrite String.eqb_refl, ?orb_true_r. reflexivity. }
  assert (List.filter (fun v => String.eqb (user_id v) (user_id new))
            (user_profiles (store (world s1))) = [new]) as Hid1.
  { rewrite Hs1. simpl. rewrite List.filter_app. rewrite filter_none.
    - simpl. now rewrite String.eqb_refl.
    - eapply List.Forall_impl; [|exact Hid]. intros u Hu. simpl in Hu.
      now apply String.eqb_neq. }
  assert (nextFault (world s1) = Applied) as F3' by (rewrite Hs1; exact F3).
  assert (nextFault (advance (UserSelect (email r) (phone r)) Applied (store (world s1))
                       (world s1)) = Applied) as F4' by (rewrite Hs1; exact F4).
  pose proof (resolveMember_update_eq n' s1 new F3' F4' Hm1 Hid1) as E2.
  split; [now rewrite E1|]. split; [now rewrite E2|].
  split; [rewrite Hs1; reflexivity|]. unfold s2. rewrite E2. cbn [fst snd]. split.
  - rewrite Hs1. cbn [world setWorld advance store setUsers user_profiles st1].
    change (user_id new) with id. unfold patchUsers. rewrite map_app.
    fold (patchUsers id (profilePatch r) (user_profiles (store (world s)))).
    rewrite (patchUsers_other id _ _ Hid). simpl. now rewrite String.eqb_refl.
  - cbn [world setWorld advance calls]. rewrite <- app_assoc, drop_app_length. reflexivity.
Qed.

End MemberCreation.

Lemma plain_get : plain (@get Run).
Proof. intros s. exists []. simpl. rewrite app_nil_r. repeat split. constructor. Qed.

Lemma plain_forOf {A : Type} (l : list A) (body : A -> M Run unit) :
  (forall x, plain (body x)) -> plain (forOf l body).
Proof.
  intros H. induction l as [|x l IH]; simpl.
  - apply plain_ret.
  - apply plain_bind; [apply H | intros _; exact IH].
Qed.

Lemma linkFamily_plain (r : ExcelRow) (u : string) (f : option string) :
  plain (linkFamily r u f).
Proof.
  unfold linkFamily. destruct (_ && _); [|apply plain_ret].
  unfold updateUser. apply plain_call. intros _.
  destruct (_ && _); [|apply plain_ret].
  unfold setFamilyHead. apply plain_call. intros _. apply plain_ret.
Qed.

Lemma assignGroups_plain (r : ExcelRow) (u : string) : plain (assignGroups r u).
Proof.
  unfold assignGroups. destruct (_ && _); [|apply plain_ret].
  apply plain_forOf. intros nm. unfold joinGroup.
  apply plain_bind; [apply plain_get|]. intros f.
  destruct (truthyOpt _); [|apply plain_ret].
  unfold upsertMembership. apply plain_call. intros _. apply plain_ret.
Qed.

(** X15: the writes of lines 302-338, the family link, the head of the
    family and the group memberships, never add an error entry, never
    change a counter and never leave the row by [continue]: the block ends
    normally, none of its calls having been rejected, or it throws the
    exception with which its last call was rejected. *)
Theorem link_failures_are_not_reported (r : ExcelRow) (u : string) (f : option string)
  (s : Run) :
  let out := (linkFamily r u f ;; assignGroups r u) s in
  exists new,
    calls (world (snd out)) = calls (world s) ++ new /\
    errors (snd out) = errors s /\
    successCount (snd out) = successCount s /\
    processedCount (snd out) = processedCount s /\
    match fst out with
    | Normal _ => Forall (fun e => answers (outcome e)) new
    | ContinueLoop => False
    | Thrown x => endsRejected x new
    end.
Proof.
  intros out. subst out.
  destruct (plain_bind (linkFamily r u f) (fun _ => assignGroups r u)
              (linkFamily_plain r u f) (fun _ => assignGroups_plain r u) s)
    as (new & C & T & H).
  exists new. unfold tally in T. injection T as E Sc Pc. auto.
Qed.

(** ** The routes on import jobs *)

Lemma query_eq {A : Type} (run : World -> Answer A * Store) (w : World) :
  query run w =
  match nextFault w with
  | Applied => (Normal (fst (run w)), answerTo (snd (run w)) w)
  | Refused msg => (Normal (failedWith msg), answerTo (store w) w)
  | Rejected e => (Thrown e, answerTo (store w) w)
  end.
Proof. reflexivity. Qed.

Lemma filter_hasId_removed (jobId : string) (l : list ImportJob) :
  List.filter (hasId jobId) (List.filter (fun j => negb (hasId jobId j)) l) = [].
Proof.
  induction l as [|j l IH]; simpl; [reflexivity|].
  destruct (hasId jobId j) eqn:H; simpl; [exact IH | now rewrite H].
Qed.

Lemma filter_single_In {A : Type} (f : A -> bool) (l : list A) (x : A) :
  List.filter f l = [x] -> forall y, In y l -> f y = true -> y = x.
Proof.
  intros H y Hy Fy.
  assert (In y (List.filter f l)) as Hin by (apply List.filter_In; now split).
  rewrite H in Hin. destruct Hin as [->|[]]. reflexivity.
Qed.

Lemma deleteJob_cases (jobId : string) (w : World) :
  let out := deleteJob jobId w in
  exists rep,
    fst out = Normal rep /\
    ((reply_status rep <> 200 /\ import_jobs (store (snd out)) = import_jobs (store w)) \/
     (reply_status rep = 200 /\
      import_jobs (store (snd out)) =
        List.filter (fun j => negb (hasId jobId j)) (import_jobs (store w)) /\
      exists j, List.filter (hasId jobId) (import_jobs (store w)) = [j] /\
                job_status j <> processing)) /\
    (forall j, In j (import_jobs (store w)) ->
               job_id j <> jobId \/ job_status j = processing ->
               In j (import_jobs (store (snd out)))).
Proof.
  intros out. subst out. unfold deleteJob, tryCatch, selectJob.
  rewrite bind_cases, query_eq.
  destruct (nextFault w) as [|msg|x] eqn:F1; cbn [fst snd];
    [|eexists; (split; [reflexivity|]); (split; [left; split; [discriminate | reflexivity]|]);
      intros j Hj _; exact Hj ..].
  destruct (List.filter (hasId jobId) (import_jobs (store w))) as [|j0 [|j1 l]] eqn:Fl;
    cbn [single ans_error ans_data answered failedWith ret fst snd];
    [eexists; (split; [reflexivity|]); (split; [left; split; [discriminate | reflexivity]|]);
     intros j Hj _; exact Hj
    | |
     eexists; (split; [reflexivity|]); (split; [left; split; [discriminate | reflexivity]|]);
     intros j Hj _; exact Hj].
  destruct (job_status j0) eqn:St; cbn [isProcessing];
    try (unfold deleteJobRows; rewrite bind_cases, query_eq;
         destruct (nextFault (answerTo (store w) w)) as [|msg|x] eqn:F2;
         cbn [fst snd ans_error answered failedWith ret answerTo store setJobs import_jobs]);
    eexists; (split; [reflexivity|]);
    try (split; [left; split; [discriminate | reflexivity] | intros j Hj _; exact Hj]);
    (split; [right; split; [reflexivity|]; split; [reflexivity|];
             exists j0; split; [reflexivity | congruence]|]);
    intros j Hj [Hn|Hp]; apply List.filter_In; (split; [exact Hj|]);
    unfold hasId; try (apply negb_true_iff, String.eqb_neq; exact Hn);
    apply negb_true_iff; destruct (String.eqb_spec (job_id j) jobId) as [E|E]; try reflexivity;
    exfalso; assert (j = j0) as -> by
      (apply (filter_single_In (hasId jobId) (import_jobs (store w)) j0 Fl j Hj);
       unfold hasId; now apply String.eqb_eq);
    congruence.
Qed.

Lemma getStatus_eq (jobId : string) (w : World) :
  fst (getStatus jobId w) =
  Normal match nextFault w with
         | Applied =>
             match List.filter (hasId jobId) (import_jobs (store w)) with
             | [j] => accept (Some j) None
             | _ => refuse 404 "Import job not found"
             end
         | Refused _ => refuse 404 "Import job not found"
         | Rejected _ => refuse 500 "Internal server error"
         end /\
  store (snd (getStatus jobId w)) = store w.
Proof.
  unfold getStatus, tryCatch, selectJob. rewrite bind_cases, query_eq.
  destruct (nextFault w); cbn [fst snd]; [|now split..].
  destruct (List.filter (hasId jobId) (import_jobs (store w))) as [|j [|j' l]];
    now split.
Qed.


(** X17: after [DELETE /:jobId] has answered 200, [GET /status/:jobId] for
    the same id answers 404 or 500, without data. *)
Theorem deleted_job_is_not_found (jobId : string) (w : World) (rep : Reply unit) :
  fst (deleteJob jobId w) = Normal rep ->
  reply_status rep = 200 ->
  exists rep',
    fst (getStatus jobId (snd (deleteJob jobId w))) = Normal rep' /\
    (reply_status rep' = 404 \/ reply_status rep' = 500) /\
    api_data (reply_body rep') = None.
Proof.
  intros Hr H200.
  destruct (deleteJob_cases jobId w) as (rep0 & Hr0 & Hcase & _).
  cbv zeta in Hr0, Hcase. rewrite Hr in Hr0. injection Hr0 as <-.
  destruct Hcase as [[Hn _]|(_ & Hj & _)]; [contradiction|].
  destruct (getStatus_eq jobId (snd (deleteJob jobId w))) as [E _].
  rewrite Hj, filter_hasId_removed in E. eexists. split; [exact E|].
  destruct (nextFault _); simpl; auto.
Qed.

Lemma filter_fresh (jobId : string) (l : list ImportJob) :
  Forall (fun j => job_id j <> jobId) l -> List.filter (hasId jobId) l = [].
Proof.
  intros H. apply filter_none. eapply List.Forall_impl; [|exact H].
  intros j Hj. now apply String.eqb_neq.
Qed.

Lemma getErrors_eq (jobId : string) (w : World) (j : ImportJob) :
  nextFault w = Applied ->
  List.filter (hasId jobId) (import_jobs (store w)) = [j] ->
  fst (getErrors jobId w) =
  Normal (accept (Some {| report_filename := job_filename j;
                          report_failedRecords := job_failed_records j;
                          report_errors := match job_error_log j with
                                           | Some l => l
                                           | None => []
                                           end |})
            None).
Proof.
  intros F Hj. unfold getErrors, tryCatch, selectJob. rewrite bind_cases, query_eq, F.
  cbn [fst snd]. rewrite Hj. reflexivity.
Qed.

Lemma filter_frame (jobId : string) (l l' : list ImportJob) :
  map jobFrame l = map jobFrame l' ->
  map jobFrame (List.filter (hasId jobId) l) = map jobFrame (List.filter (hasId jobId) l').
Proof.
  revert l'. induction l as [|j l IH]; intros [|j' l'] H; try discriminate; [reflexivity|].
  cbn [map] in H.
  pose proof (f_equal (List.hd (jobFrame j)) H) as Hj.
  pose proof (f_equal (@List.tl _) H) as Hl. cbn [List.hd List.tl] in Hj, Hl. simpl.
  assert (hasId jobId j = hasId jobId j') as ->.
  { unfold hasId. assert (job_id j = job_id j') as -> by (unfold jobFrame in Hj; congruence).
    reflexivity. }
  destruct (hasId jobId j'); simpl; [f_equal; [exact Hj|]|]; now apply IH.
Qed.

Section AfterSubmission.

Variable dateParses : string -> bool.
Variable ilike : string -> string -> bool.
Variable req : Request.
Variable w : World.
Variable file : UploadedFile.
Variable rows : list ExcelRow.

Hypothesis Hfile : req_file req = Some file.
Hypothesis Huser : truthyOpt (req_user_id req) = true.
Hypothesis Hparse : parseExcelFile (content file) = inr rows.
Hypothesis Hfresh : Forall (fun j => job_id j <> genId (clock w)) (import_jobs (store w)).

(** An accepted submission: the response, the run it starts, and the
    world in which the run makes its first call. *)
Lemma postExcel_accepts :
  nextFault w = Applied ->
  1 <= length rows <= 5000 ->
  postExcel req w =
  (Normal ({| res_status := 201;
              res_body := Started (genId (clock w)) (length rows)
                            "Import job started successfully" |},
           Some {| launch_job := genId (clock w); launch_rows := rows;
                   launch_by := orEmpty (req_user_id req) |}),
   advance (JobInsert (originalname file) (path file) pending (orEmpty (req_user_id req)))
     Applied
     (setJobs (import_jobs (store w) ++ [newJob w file (orEmpty (req_user_id req))])
        (store w)) w).
Proof.
  intros F1 Hlen.
  rewrite (postExcel_created req w file rows Hfile Huser F1 Hparse).
  destruct (Nat.eqb_spec (length rows) 0) as [E|_]; [lia|].
  destruct (Nat.ltb_spec 5000 (length rows)) as [E|_]; [lia|].
  reflexivity.
Qed.

Lemma started_jobs (t : nat) :
  List.filter (hasId (genId (clock w)))
    (map (fun j => if String.eqb (job_id j) (genId (clock w))
                   then applyJobPatch (startPatch t (length rows)) j else j)
       (import_jobs (store w) ++ [newJob w file (orEmpty (req_user_id req))]))
  = [startedJob w file (orEmpty (req_user_id req)) t (length rows)].
Proof.
  rewrite map_app, List.filter_app.
  assert (map (fun j => if String.eqb (job_id j) (genId (clock w))
                        then applyJobPatch (startPatch t (length rows)) j else j)
            (import_jobs (store w)) = import_jobs (store w)) as ->.
  { rewrite <- (map_id (import_jobs (store w))) at 2. apply map_ext_in. intros j Hj.
    rewrite List.Forall_forall in Hfresh. specialize (Hfresh j Hj).
    apply String.eqb_neq in Hfresh. now rewrite Hfresh. }
  rewrite (filter_fresh _ _ Hfresh). cbn [map app].
  replace (job_id (newJob w file (orEmpty (req_user_id req)))) with (genId (clock w))
    by reflexivity.
  rewrite String.eqb_refl. cbn [List.filter]. unfold hasId.
  replace (job_id (applyJobPatch (startPatch t (length rows))
                     (newJob w file (orEmpty (req_user_id req)))))
    with (genId (clock w)) by reflexivity.
  now rewrite String.eqb_refl.
Qed.

Lemma loadGroups_jobFrame (L : list _) :
  preserves (fun s => map jobFrame (import_jobs (store (world s))) = L) loadGroups.
Proof. pres; intros; simpl; auto. Qed.

(** X18: [POST /excel] starts the run before it answers, and the first
    call of the run is the update of the job to processing.  Let
    [POST /excel] accept a file of 1 to 5,000 rows under an id that no
    stored job has, the service applying the insert of the job and that
    first update.  Then [GET /status/:jobId] for the new job, served right
    after that update with its select applied, answers 200 with the job in
    processing, with [total_records] the number of rows, the start time
    set and every counter at 0.  Served later, when the run has loaded the
    groups and gone through the first [k] rows (all of them or not,
    whatever happened to them), it still answers 200 with the job under
    the same file name and author, in processing, with the same
    [total_records] and start time, no error log and no completion
    time. *)
Theorem accepted_job_is_shown_processing (k : nat) :
  nextFault w = Applied ->
  1 <= length rows <= 5000 ->
  nextFault (snd (postExcel req w)) = Applied ->
  let jobId := genId (clock w) in
  let userId := orEmpty (req_user_id req) in
  let w1 := snd (postExcel req w) in
  let s1 := snd (markProcessing jobId rows (initialRun w1)) in
  let sk := snd ((loadGroups ;; loop dateParses ilike jobId (take k rows) 0) s1) in
  (nextFault (world s1) = Applied ->
   exists j,
     fst (getStatus jobId (world s1)) = Normal (accept (Some j) None) /\
     job_id j = jobId /\
     job_status j = processing /\
     job_total_records j = length rows /\
     job_started_at j = Some (clock w1) /\
     job_processed_records j = 0 /\
     job_successful_records j = 0 /\
     job_failed_records j = 0) /\
  (nextFault (world sk) = Applied ->
   exists j,
     fst (getStatus jobId (world sk)) = Normal (accept (Some j) None) /\
     job_id j = jobId /\
     job_filename j = originalname file /\
     job_created_by j = userId /\
     job_status j = processing /\
     job_total_records j = length rows /\
     job_started_at j = Some (clock w1) /\
     job_error_log j = None /\
     job_completed_at j = None).
Proof.
  intros F1 Hlen F2 jobId userId w1 s1 sk.
  assert (List.filter (hasId jobId) (import_jobs (store (world s1))) =
          [startedJob w file userId (clock w1) (length rows)]) as Hs1.
  { subst s1. unfold markProcessing. rewrite bind_cases. unfold await at 1. unfold now.
    cbn [fst snd]. rewrite bind_cases. unfold updateJob. rewrite await_request_eq.
    cbn [world setWorld initialRun]. fold w1 in F2. rewrite F2.
    cbn [fst snd ret world setWorld store advance import_jobs setJobs].
    subst w1. rewrite (postExcel_accepts F1 Hlen). cbn [snd store advance import_jobs setJobs].
    apply started_jobs. }
  split.
  - intros F3. destruct (getStatus_eq jobId (world s1)) as [E _].
    exists (startedJob w file userId (clock w1) (length rows)).
    rewrite E, F3, Hs1. repeat split; reflexivity.
  - intros F3.
    assert (map jobFrame (import_jobs (store (world sk))) =
            map jobFrame (import_jobs (store (world s1)))) as Hframe.
    { subst sk.
      apply (preserves_bind
               (fun s => map jobFrame (import_jobs (store (world s))) =
                         map jobFrame (import_jobs (store (world s1))))).
      - apply loadGroups_jobFrame.
      - intros _. apply loop_jobFrame.
      - reflexivity. }
    apply (filter_frame jobId) in Hframe. rewrite Hs1 in Hframe.
    destruct (List.filter (hasId jobId) (import_jobs (store (world sk)))) as [|j [|j' l]] eqn:Ek;
      try discriminate.
    simpl in Hframe.
    injection Hframe as Hid Hname Hurl Hst Htot Hlog Hby Hstart Hend.
    exists j. destruct (getStatus_eq jobId (world sk)) as [E _].
    rewrite E, F3, Ek. repeat split; first [reflexivity | assumption].
Qed.

Lemma reject_report (msg answer : string) (d : ErrorData) (w1 : World) (j : ImportJob)
  (before : list ImportJob) :
  appliesNext 2 w1 ->
  import_jobs (store w1) = before ++ [j] ->
  Forall (fun x => job_id x <> job_id j) before ->
  job_failed_records j = 0 ->
  fst (getErrors (job_id j)
         (snd (tryCatch
                 (let* t := now in
                  updateJob (job_id j) (rejectPatch msg d t) ;;
                  respond 400 answer)
                 (fun _ => respond 500 "Internal server error") w1))) =
  Normal (accept (Some {| report_filename := job_filename j;
                          report_failedRecords := 0;
                          report_errors := [{| row := 0; error := msg; data := d |}] |})
            None).
Proof.
  intros Ha Hj Hb H0.
  apply appliesNext_S in Ha as [F1 Ha].
  pose proof (reject_run (job_id j) msg answer d w1) as (_ & _ & Hs). cbv zeta in Hs.
  rewrite F1 in Hs.
  set (w2 := snd (tryCatch _ _ w1)) in *.
  assert (nextFault w2 = Applied) as F2.
  { specialize (Ha (JobUpdate (job_id j) (rejectPatch msg d (clock w1)))
                  (store w2)).
    apply appliesNext_S in Ha as [F2 _]. subst w2.
    unfold tryCatch, bind, now, updateJob, request in *. rewrite F1 in *. exact F2. }
  rewrite (getErrors_eq (job_id j) w2 (applyJobPatch (rejectPatch msg d (clock w1)) j) F2).
  - simpl. now rewrite H0.
  - rewrite Hs. cbn [import_jobs setJobs]. rewrite Hj, map_app, List.filter_app.
    rewrite filter_none.
    + simpl. rewrite String.eqb_refl. unfold hasId. simpl. now rewrite String.eqb_refl.
    + clear -Hb. induction Hb as [|x l Hx _ IH]; simpl; constructor; [|exact IH].
      destruct (String.eqb_spec (job_id x) (job_id j)) as [E|E]; [contradiction|].
      unfold hasId. now apply String.eqb_neq.
Qed.

(** X19: after [POST /excel] has rejected a file for its number of rows, 0
    or more than 5,000, on a service that applies the calls, [GET
    /:jobId/errors] for the new job answers 200 with one error entry, at
    row 0, and with [failedRecords] 0: the rejection writes the error log
    and not the counter. *)
Theorem rejected_submission_is_reported_with_no_failed_record :
  appliesNext 3 w ->
  length rows = 0 \/ 5000 < length rows ->
  fst (getErrors (genId (clock w)) (snd (postExcel req w))) =
  Normal (accept
            (Some {| report_filename := originalname file;
                     report_failedRecords := 0;
                     report_errors :=
                       [ if Nat.eqb (length rows) 0
                         then {| row := 0;
                                 error := "No valid data rows found in Excel file";
                                 data := DataEmpty |}
                         else {| row := 0;
                                 error := "File contains too many records. Maximum allowed: 5,000";
                                 data := DataTotalRows (length rows) |} ] |})
            None).
Proof.
  intros Ha Hlen. apply appliesNext_S in Ha as [F1 Ha].
  rewrite (postExcel_created req w file rows Hfile Huser F1 Hparse).
  set (j := newJob w file (orEmpty (req_user_id req))).
  specialize (Ha (JobInsert (originalname file) (path file) pending
                    (orEmpty (req_user_id req)))
                (setJobs (import_jobs (store w) ++ [j]) (store w))).
  change (genId (clock w)) with (job_id j).
  destruct (Nat.eqb_spec (length rows) 0) as [E|N0].
  - apply (reject_report _ _ _ _ j (import_jobs (store w)));
      [exact Ha | reflexivity | exact Hfresh | reflexivity].
  - destruct (Nat.ltb_spec 5000 (length rows)) as [Hbig|Hok]; [|lia].
    apply (reject_report _ _ _ _ j (import_jobs (store w)));
      [exact Ha | reflexivity | exact Hfresh | reflexivity].
Qed.

End AfterSubmission.

Section DeletedJob.

Variable dateParses : string -> bool.
Variable ilike : string -> string -> bool.

Lemma patch_absent (jobId : string) (p : JobPatch) (l : list ImportJob) :
  Forall (fun j => job_id j <> jobId) l ->
  map (fun j => if String.eqb (job_id j) jobId then applyJobPatch p j else j) l = l.
Proof.
  induction 1 as [|x l Hx _ IH]; simpl; [reflexivity|]. rewrite IH.
  destruct (String.eqb_spec (job_id x) jobId); [contradiction | reflexivity].
Qed.

Lemma processImportBody_absent (L : list ImportJob) (jobId : string)
  (rows : list ExcelRow) :
  Forall (fun j => job_id j <> jobId) L ->
  preserves (fun s => import_jobs (store (world s)) = L)
    (processImportBody dateParses ilike jobId rows).
Proof.
  intros HL.
  assert (forall i, preserves (fun s => import_jobs (store (world s)) = L)
                      (loop dateParses ilike jobId rows i)) as Hloop.
  { induction rows as [|r rs IH]; intros i; simpl; [apply preserves_ret|].
    apply preserves_bind; [|intros _; apply IH].
    pres; intros; simpl; try assumption;
      try match goal with
          | |- context [List.filter ?f ?l] => destruct (List.filter f l) as [|? [|? ?]]; simpl
          end;
      try assumption;
      match goal with H : import_jobs _ = L |- _ => rewrite H end; now apply patch_absent. }
  unfold processImportBody, importRows.
  repeat first [apply Hloop | pres_step]; intros; simpl; try assumption;
    match goal with H : import_jobs _ = L |- _ => rewrite H end; now apply patch_absent.
Qed.

(** X20: after [DELETE /:jobId] has answered 200 no stored job has that id,
    and a run of [processImport] for that job still goes to its end, its
    last call being its terminal update, while it writes no job: the table
    of jobs stays as the deletion left it. *)
Theorem deleting_a_job_does_not_stop_its_run (jobId createdBy : string)
  (rows : list ExcelRow) (w : World) (rep : Reply unit) :
  fst (deleteJob jobId w) = Normal rep ->
  reply_status rep = 200 ->
  let w1 := snd (deleteJob jobId w) in
  let out := processImport dateParses ilike jobId rows createdBy w1 in
  Forall (fun j => job_id j <> jobId) (import_jobs (store w1)) /\
  import_jobs (store (snd out)) = import_jobs (store w1) /\
  exists pre p o,
    calls (snd out) = calls w1 ++ pre ++ [{| call := JobUpdate jobId p; outcome := o |}] /\
    set_error_log p <> None.
Proof.
  intros Hr H200 w1 out.
  assert (Forall (fun j => job_id j <> jobId) (import_jobs (store w1))) as Hfresh.
  { destruct (deleteJob_cases jobId w) as (rep0 & Hr0 & Hcase & _).
    cbv zeta in Hr0, Hcase. rewrite Hr in Hr0. injection Hr0 as <-.
    destruct Hcase as [[Hn _]|(_ & Hj & _)]; [contradiction|].
    subst w1. rewrite Hj. apply List.Forall_forall. intros j Hin.
    apply List.filter_In in Hin as [_ Hin]. apply negb_true_iff in Hin.
    now apply String.eqb_neq. }
  split; [exact Hfresh|]. split.
  - subst out. unfold processImport. cbn [snd].
    apply (processImportBody_absent _ jobId rows Hfresh (initialRun w1)). reflexivity.
  - destruct (processImportBody_end dateParses ilike jobId rows (initialRun w1))
      as (pre & p & o & C & H).
    exists pre, p, o. split; [exact C|].
    destruct (fst (processImportBody dateParses ilike jobId rows (initialRun w1)));
      [destruct H as [_ ->]; discriminate | contradiction | destruct H as [(_ & _ & H & _) _]; exact H].
Qed.

End DeletedJob.

(** ** A run on an obliging service *)

Lemma append_inj_l (p a b : string) : p +:+ a = p +:+ b -> a = b.
Proof.
  induction p as [|c p IH]; [auto|]. intros H. injection H as H. now apply IH.
Qed.

Lemma genId_inj (n m : nat) : genId n = genId m -> n = m.
Proof.
  unfold genId. intros H. apply append_inj_l in H. apply Unsigned.to_uint_inj.
  pose proof (NilEmpty.usu (Nat.to_uint n)) as H1.
  pose proof (NilEmpty.usu (Nat.to_uint m)) as H2. congruence.
Qed.

Lemma soundUsers_S (c : nat) (l : list UserProfile) :
  soundUsers c l -> soundUsers (S c) l.
Proof.
  intros [Hn Ho]. split; [exact Hn|]. eapply List.Forall_impl; [|exact Ho].
  intros u H n Hle. apply H. lia.
Qed.

Lemma soundUsers_ids (c : nat) (l l' : list UserProfile) :
  map user_id l' = map user_id l -> soundUsers c l -> soundUsers c l'.
Proof.
  intros E [Hn Ho]. split; [now rewrite E|].
  apply List.Forall_forall. intros u Hu n Hle.
  assert (In (user_id u) (map user_id l)) as Hin by (rewrite <- E; now apply in_map).
  apply in_map_iff in Hin as (v & Ev & Hv). rewrite <- Ev.
  exact (proj1 (List.Forall_forall _ _) Ho v Hv n Hle).
Qed.

Lemma soundUsers_insert (c : nat) (l : list UserProfile) (p : UserPatch) :
  soundUsers c l -> soundUsers (S c) (l ++ [newUserRow (genId c) p]).
Proof.
  intros [Hn Ho]. split.
  - rewrite map_app. simpl. apply NoDup_app. split; [exact Hn|]. split.
    + intros x Hx. apply list_elem_of_In in Hx. rewrite list_elem_of_In.
      intros [<-|[]]. apply in_map_iff in Hx as (v & Ev & Hv).
      exact (proj1 (List.Forall_forall _ _) Ho v Hv c (le_n c) Ev).
    + apply NoDup_singleton.
  - apply List.Forall_app. split.
    + eapply List.Forall_impl; [|exact Ho]. intros u H n Hle. apply H. lia.
    + constructor; [|constructor]. simpl. intros n Hle E. apply genId_inj in E. lia.
Qed.

Lemma obliging_next (w : World) : obliging w -> nextFault w = Applied.
Proof.
  unfold obliging, nextFault. destruct (faults w); [reflexivity|]. now inversion 1.
Qed.

Lemma obliging_advance (w : World) (c : Call) (o : Fault) (st : Store) :
  obliging w -> obliging (advance c o st w).
Proof.
  unfold obliging, advance. simpl. destruct (faults w); simpl; [constructor|].
  now inversion 1.
Qed.

Lemma obliging_answers (w : World) : obliging w -> Forall answers (faults w).
Proof. apply List.Forall_impl. now intros f ->. Qed.

Ltac good_side :=
  intros; simpl;
  try match goal with
      | |- context [List.filter ?f ?l] => destruct (List.filter f l) as [|? [|? ?]]; simpl
      end;
  repeat match goal with H : goodState _ |- _ => destruct H as [? ?] end;
  first
    [ assumption
    | split; [ first [assumption | now apply obliging_advance] | ];
      simpl;
      first
        [ assumption
        | apply soundUsers_insert; assumption
        | apply soundUsers_S;
          first [ assumption
                | eapply soundUsers_ids; [|eassumption]; apply patchUsers_id ] ] ].

Section CleanRun.

Variable dateParses : string -> bool.
Variable ilike : string -> string -> bool.

Lemma iteration_good (jobId : string) (r : ExcelRow) (i : nat) :
  preserves goodState (iteration dateParses ilike jobId r i).
Proof. pres; good_side. Qed.

Lemma loop_good (jobId : string) (rows : list ExcelRow) (i : nat) :
  preserves goodState (loop dateParses ilike jobId rows i).
Proof.
  revert i. induction rows as [|r rows IH]; intros i; simpl.
  - apply preserves_ret.
  - apply preserves_bind; [apply iteration_good | intros _; apply IH].
Qed.

Lemma filter_id_unique (l : list UserProfile) (u : UserProfile) :
  NoDup (map user_id l) -> In u l ->
  List.filter (fun v => String.eqb (user_id v) (user_id u)) l = [u].
Proof.
  induction l as [|x l IH]; simpl; [now intros _ []|].
  intros Hn Hin. apply NoDup_cons in Hn as [Hx Hn].
  destruct Hin as [->|Hin].
  - rewrite String.eqb_refl. f_equal. apply filter_none.
    apply List.Forall_forall. intros v Hv. apply String.eqb_neq. intros E.
    apply Hx. rewrite <- E. apply list_elem_of_In. now apply in_map.
  - destruct (String.eqb_spec (user_id x) (user_id u)) as [E|E].
    + exfalso. apply Hx. rewrite E. apply list_elem_of_In. now apply in_map.
    + now apply IH.
Qed.

Lemma resolveMember_normal (r : ExcelRow) (k : nat) (s : Run) :
  goodState s -> exists u, fst (resolveMember r k s) = Normal u.
Proof.
  intros [Ho [Hn _]].
  pose proof (obliging_next _ Ho) as F1.
  pose proof (obliging_next _ (obliging_advance _ (UserSelect (email r) (phone r)) Applied
                                 (store (world s)) Ho)) as F2.
  destruct (matchesOf r (user_profiles (store (world s)))) as [|u [|v l]] eqn:Hm.
  - rewrite (resolveMember_create_eq r k s F1 F2); [eauto | rewrite Hm; simpl; lia].
  - rewrite (resolveMember_update_eq r k s u F1 F2 Hm); [eauto|].
    apply filter_id_unique; [exact Hn|].
    assert (In u (matchesOf r (user_profiles (store (world s))))) as Hin
      by (rewrite Hm; now left).
    unfold matchesOf in Hin. now apply List.filter_In in Hin.
  - rewrite (resolveMember_create_eq r k s F1 F2); [eauto | rewrite Hm; simpl; lia].
Qed.

Lemma resolveFamily_normal (r : ExcelRow) (k : nat) (s : Run) :
  obliging (world s) -> exists f, fst (resolveFamily ilike r k s) = Normal f.
Proof.
  intros Ho. pose proof (obliging_next _ Ho) as F1.
  unfold resolveFamily. rewrite bind_cases. cbn [get fst snd].
  destruct (negb _); [|eexists; reflexivity].
  unfold selectFamily. rewrite bind_cases, await_request_eq, F1. cbn [fst snd].
  rewrite bind_cases.
  destruct (ans_data (single _)) as [fam|].
  - cbn [ret]. rewrite bind_cases.
    destruct (truthy (family_id fam)); cbn [modify ret fst snd]; eexists; reflexivity.
  - unfold insertFamily. rewrite bind_cases, await_request_eq.
    cbn [world setWorld].
    rewrite (obliging_next _ (obliging_advance _ _ _ _ Ho)).
    cbn [fst snd ans_error ans_data answered ret]. rewrite bind_cases.
    match goal with
    | |- context [truthy ?x] => destruct (truthy x)
    end; cbn [modify ret fst snd]; eexists; reflexivity.
Qed.

Lemma plain_normal {A : Type} (m : M Run A) (s : Run) :
  plain m -> obliging (world s) -> preserves (calm (world s)) m ->
  exists a, fst (m s) = Normal a.
Proof.
  intros Hp Ho Hc. destruct (Hp s) as (new & C & _ & H).
  specialize (Hc s (calm_start s (obliging_answers _ Ho))).
  destruct (fst (m s)) as [a| |x]; [eauto | contradiction|].
  exfalso. destruct H as (pre & c & ->).
  apply (calm_no_rejection s _ _ x Hc C). now exists pre, c, [].
Qed.

Lemma linkFamily_normal (r : ExcelRow) (u : string) (f : option string) (s : Run) :
  obliging (world s) -> fst (linkFamily r u f s) = Normal tt.
Proof.
  intros Ho. destruct (plain_normal (linkFamily r u f) s) as ([] & H); auto.
  - apply linkFamily_plain.
  - unfold linkFamily.
    repeat first [apply preserves_await_fault; intros; apply calm_request; assumption
                 | pres_step]; intros; simpl; assumption.
Qed.

Lemma assignGroups_normal (r : ExcelRow) (u : string) (s : Run) :
  obliging (world s) -> fst (assignGroups r u s) = Normal tt.
Proof.
  intros Ho. destruct (plain_normal (assignGroups r u) s) as ([] & H); auto.
  - apply assignGroups_plain.
  - unfold assignGroups.
    repeat first [apply preserves_await_fault; intros; apply calm_request; assumption
                 | pres_step]; intros; simpl; assumption.
Qed.

Lemma tryBlock_good (r : ExcelRow) (k : nat) :
  preserves goodState (tryBlock dateParses ilike r k).
Proof. pres; good_side. Qed.

Lemma preserves_good_member (r : ExcelRow) (k : nat) : preserves goodState (resolveMember r k).
Proof. pres; good_side. Qed.

Lemma preserves_good_family (r : ExcelRow) (k : nat) :
  preserves goodState (resolveFamily ilike r k).
Proof. pres; good_side. Qed.

Lemma preserves_good_link (r : ExcelRow) (u : string) (f : option string) :
  preserves goodState (linkFamily r u f).
Proof. pres; good_side. Qed.

Lemma tryBlock_valid (r : ExcelRow) (k : nat) (s : Run) :
  validateRow dateParses r k = None -> goodState s ->
  exists v, fst (tryBlock dateParses ilike r k s) = Normal v.
Proof.
  intros V G. unfold tryBlock. rewrite V.
  destruct (resolveMember_normal r k s G) as (u & E1).
  pose proof (preserves_good_member r k s G) as G1.
  rewrite bind_cases. destruct (resolveMember r k s) as [r1 s1]. cbn [fst snd] in *. subst r1.
  destruct (resolveFamily_normal r k s1 (proj1 G1)) as (f & E2).
  pose proof (preserves_good_family r k s1 G1) as G2.
  rewrite bind_cases. destruct (resolveFamily ilike r k s1) as [r2 s2]. cbn [fst snd] in *.
  subst r2.
  pose proof (linkFamily_normal r u f s2 (proj1 G2)) as E3.
  pose proof (preserves_good_link r u f s2 G2) as G3.
  rewrite bind_cases. destruct (linkFamily r u f s2) as [r3 s3]. cbn [fst snd] in *. subst r3.
  pose proof (assignGroups_normal r u s3 (proj1 G3)) as E4.
  rewrite bind_cases. destruct (assignGroups r u s3) as [r4 s4]. cbn [fst snd] in *. subst r4.
  eexists. reflexivity.
Qed.

Lemma flushProgress_good (jobId : string) (s : Run) :
  obliging (world s) -> fst (flushProgress jobId s) = Normal tt.
Proof.
  intros Ho. unfold flushProgress. rewrite bind_cases. cbn [get fst snd].
  destruct (Nat.eqb _ 0); [|reflexivity]. unfold updateJob.
  rewrite bind_cases, await_request_eq, (obliging_next _ Ho). reflexivity.
Qed.

Lemma iteration_clean (jobId : string) (r : ExcelRow) (i : nat) (s : Run) :
  goodState s ->
  let out := iteration dateParses ilike jobId r i s in
  fst out = Normal tt /\
  match validateRow dateParses r (i + 2) with
  | Some e =>
      errors (snd out) = errors s ++ [e] /\
      successCount (snd out) = successCount s /\
      processedCount (snd out) = processedCount s
  | None =>
      errors (snd out) = errors s /\
      successCount (snd out) = S (successCount s) /\
      processedCount (snd out) = S (processedCount s)
  end.
Proof.
  intros G out. subst out.
  destruct (validateRow dateParses r (i + 2)) as [e|] eqn:V.
  - destruct (iteration_invalid_row dateParses ilike jobId r i s e V) as [-> _].
    repeat split.
  - destruct (tryBlock_valid r (i + 2) s V G) as (v & E).
    destruct (tryBlock_rowSpec dateParses ilike r (i + 2) s) as (n1 & _ & T).
    pose proof (tryBlock_good r (i + 2) s G) as G1.
    rewrite iteration_eq.
    destruct (tryBlock dateParses ilike r (i + 2) s) as [r1 s1]. cbn [fst snd] in *.
    subst r1. destruct T as (Er & Sc & Pc). rewrite loopBody_flush.
    destruct (flushProgress_outcome jobId (setProcessedCount (S (processedCount s1)) s1))
      as (n2 & _ & F & _).
    unfold tally in F. injection F as F1 F2 F3. simpl in F1, F2, F3.
    split; [apply flushProgress_good; exact (proj1 G1)|].
    split; [congruence|]. split; lia.
Qed.

Lemma loop_clean (jobId : string) (rows : list ExcelRow) (i : nat) (s : Run) :
  goodState s ->
  let out := loop dateParses ilike jobId rows i s in
  let errs := validationErrors dateParses rows i in
  fst out = Normal tt /\
  errors (snd out) = errors s ++ errs /\
  successCount (snd out) + length errs = successCount s + length rows /\
  processedCount (snd out) + length errs = processedCount s + length rows.
Proof.
  revert i s. induction rows as [|r rows IH]; intros i s G; simpl.
  - rewrite app_nil_r. repeat split; lia.
  - destruct (iteration_clean jobId r i s G) as (E & H).
    pose proof (iteration_good jobId r i s G) as G1.
    rewrite bind_cases.
    destruct (iteration dateParses ilike jobId r i s) as [r1 s1]. cbn [fst snd] in *.
    subst r1. destruct (IH (S i) s1 G1) as (E' & He & Hs & Hp). cbv zeta in *.
    split; [exact E'|].
    destruct (validateRow dateParses r (i + 2)) as [e|]; destruct H as (H1 & H2 & H3);
      rewrite He, H1; simpl; rewrite <- ?app_assoc; (split; [reflexivity|]); split; lia.
Qed.

Lemma prelude_good (jobId : string) (rows : list ExcelRow) :
  preserves goodState (bind (markProcessing jobId rows) (fun _ => loadGroups)).
Proof. pres; good_side. Qed.

Lemma importRows_clean (jobId : string) (rows : list ExcelRow) (s : Run) :
  goodState s ->
  let out := importRows dateParses ilike jobId rows s in
  let errs := validationErrors dateParses rows 0 in
  errors (snd out) = errors s ++ errs /\
  successCount (snd out) + length errs = successCount s + length rows /\
  processedCount (snd out) + length errs = processedCount s + length rows.
Proof.
  intros G out errs. subst out. unfold importRows.
  rewrite <- (bind_assoc (markProcessing jobId rows) (fun _ => loadGroups)
                (fun _ => loop dateParses ilike jobId rows 0) s).
  rewrite bind_cases.
  destruct (plain_bind (markProcessing jobId rows) (fun _ => loadGroups)
              (markProcessing_plain jobId rows) (fun _ => loadGroups_plain) s)
    as (n1 & C1 & T1 & H1).
  pose proof (prelude_good jobId rows s G) as G1.
  assert (exists a, fst (bind (markProcessing jobId rows) (fun _ => loadGroups) s) = Normal a)
    as (a & E).
  { apply plain_normal; [|exact (proj1 G)|].
    - apply plain_bind; [apply markProcessing_plain | intros _; apply loadGroups_plain].
    - unfold markProcessing, loadGroups.
      repeat first [apply preserves_await_fault; intros; apply calm_request; assumption
                   | pres_step]; intros; simpl;
        first [assumption | eapply calm_world; [|eassumption]; reflexivity]. }
  unfold tally in T1. injection T1 as Er Sc Pc.
  destruct (bind (markProcessing jobId rows) (fun _ => loadGroups) s) as [r1 s1].
  cbn [fst snd] in *. subst r1.
  destruct (loop_clean jobId rows 0 s1 G1) as (_ & He & Hs & Hp). cbv zeta in *.
  rewrite He, Er. split; [reflexivity|]. subst errs. split; lia.
Qed.

(** X11: on a service that applies every call, with member ids that are
    distinct and none of which the service will generate, [processImport]
    returns normally and its final update completes the job with, as error
    log, the validation errors of the rows in their order, as failed their
    number, and as successful and as processed the number of the rows
    that pass validation. *)
Theorem clean_run_imports_every_valid_row (jobId createdBy : string)
  (rows : list ExcelRow) (w : World) :
  obliging w ->
  soundUsers (clock w) (user_profiles (store w)) ->
  let out := processImport dateParses ilike jobId rows createdBy w in
  let errs := validationErrors dateParses rows 0 in
  fst out = Normal tt /\
  exists pre p o,
    calls (snd out) = calls w ++ pre ++ [{| call := JobUpdate jobId p; outcome := o |}] /\
    set_status p = Some completed /\
    set_error_log p = Some errs /\
    set_failed_records p = Some (length errs) /\
    set_successful_records p = Some (length rows - length errs) /\
    set_processed_records p = Some (length rows - length errs).
Proof.
  intros Ho Hu out errs. subst out. unfold processImport. cbn [fst snd].
  assert (goodState (initialRun w)) as G by (split; assumption).
  destruct (processImportBody_end dateParses ilike jobId rows (initialRun w))
    as (pre & p & o & C & H).
  pose proof (processImportBody_calm dateParses ilike w jobId rows (initialRun w)
                (calm_start (initialRun w) (obliging_answers _ Ho))) as Hc.
  destruct (importRows_clean jobId rows (initialRun w) G) as (He & Hs & Hp).
  cbv zeta in He, Hs, Hp. simpl in He, Hs, Hp.
  destruct (fst (processImportBody dateParses ilike jobId rows (initialRun w))) as [[]| |x].
  - split; [reflexivity|]. exists pre, p, o. split; [exact C|]. destruct H as [_ ->].
    cbn [finalPatch set_status set_error_log set_failed_records set_successful_records
           set_processed_records].
    rewrite He. fold errs. split; [reflexivity|]. split; [reflexivity|].
    split; [reflexivity|]. fold errs in Hs, Hp. split; f_equal; lia.
  - contradiction.
  - destruct H as [_ Hx]. exfalso.
    apply (calm_no_rejection (initialRun w) _ _ x Hc C Hx).
Qed.

End CleanRun.

(** ** The further theorems with hypotheses, at sample inputs *)

Lemma parsed_rows_fail_on_format_only_witness :
  In "Invalid email format" formatMessages.
Proof.
  assert (In (mapRow (dataCells "John" "Doe" "not-an-email" "+1234567890" "Doe Family"))
            (eachRow sheetBadEmail)) as Hin by (left; reflexivity).
  exact (proj1 (parsed_rows_fail_on_format_only isoDate (Workbook (Some sheetBadEmail))
                  (eachRow sheetBadEmail) _ 2 eq_refl Hin)
           _ eq_refl).
Defined.

Lemma row_exception_is_contained_witness :
  processedCount
    (snd (iteration isoDate ilikePlain "job-1" johnRow 0 (initialRun rejectingWorld))) = 1.
Proof.
  exact (proj1 (proj2 (proj2
    (row_exception_is_contained isoDate ilikePlain "job-1" johnRow 0
       (initialRun rejectingWorld)
       (snd (tryBlock isoDate ilikePlain johnRow 2 (initialRun rejectingWorld)))
       (JsError "timeout") eq_refl)))).
Defined.

Lemma run_without_rejection_completes_witness :
  fst (processImport isoDate ilikePlain "job-1" [johnRow; janeRow] "admin-1"
         (freshWorld storeWithJob [Refused "busy"])) = Normal tt.
Proof.
  apply (run_without_rejection_completes isoDate ilikePlain "job-1" "admin-1"
           [johnRow; janeRow] (freshWorld storeWithJob [Refused "busy"])).
  repeat constructor.
Defined.

Lemma clean_run_imports_every_valid_row_witness :
  fst (processImport isoDate ilikePlain "job-1" [johnRow; janeRow] "admin-1"
         (freshWorld storeWithJob [])) = Normal tt.
Proof.
  apply (clean_run_imports_every_valid_row isoDate ilikePlain "job-1" "admin-1"
           [johnRow; janeRow] (freshWorld storeWithJob [])).
  - constructor.
  - split; constructor.
Defined.

Lemma resolveMember_creates_unless_one_match_witness :
  exists o,
    drop 0 (calls (world (snd (resolveMember johnRow 2 startOfRun)))) =
    [ {| call := UserSelect (email johnRow) (phone johnRow); outcome := Applied |};
      {| call := UserInsert (profilePatch johnRow); outcome := o |} ].
Proof.
  destruct (resolveMember_creates_unless_one_match johnRow 2 startOfRun eq_refl
              ltac:(simpl; lia)) as (o & H & _).
  exists o. exact H.
Defined.

Lemma resolveMember_again_updates_the_created_witness :
  fst (resolveMember johnRow 3 (snd (resolveMember johnRow 2 startOfRun))) = Normal "id-1".
Proof.
  apply (resolveMember_again_updates_the_created johnRow 2 3 startOfRun).
  - constructor.
  - reflexivity.
  - constructor.
Defined.

Lemma deleted_job_is_not_found_witness :
  exists rep',
    fst (getStatus "job-1" (snd (deleteJob "job-1" (freshWorld storeWithJob [])))) =
    Normal rep' /\
    (reply_status rep' = 404 \/ reply_status rep' = 500) /\
    api_data (reply_body rep') = None.
Proof.
  apply (deleted_job_is_not_found "job-1" (freshWorld storeWithJob [])
           (accept None (Some "Import job deleted successfully")));
    reflexivity.
Defined.

Lemma accepted_job_is_shown_processing_witness :
  exists j,
    fst (getStatus "id-0"
           (world (snd (markProcessing "id-0" (eachRow (sheetOf 1))
                          (initialRun (snd (postExcel (upload (sheetOf 1))
                                              (freshWorld emptyStore []))))))))
    = Normal (accept (Some j) None) /\
    job_status j = processing /\ job_total_records j = 1.
Proof.
  assert (1 <= length (eachRow (sheetOf 1)) <= 5000) as Hlen by (vm_compute; lia).
  destruct (accepted_job_is_shown_processing isoDate ilikePlain
              (upload (sheetOf 1)) (freshWorld emptyStore [])
              {| originalname := "members.xlsx"; path := "uploads/members.xlsx";
                 content := Workbook (Some (sheetOf 1)) |}
              (eachRow (sheetOf 1)) eq_refl eq_refl eq_refl (List.Forall_nil _) 1
              eq_refl Hlen eq_refl)
    as [H _].
  destruct (H eq_refl) as (j & E & _ & Hst & Htot & _).
  exists j. split; [exact E|]. split; [exact Hst | exact Htot].
Defined.

Lemma rejected_submission_is_reported_with_no_failed_record_witness :
  exists rep,
    fst (getErrors "id-0"
           (snd (postExcel (upload sheetEmpty) (freshWorld emptyStore [])))) =
    Normal (accept (Some rep) None) /\
    report_failedRecords rep = 0 /\ length (report_errors rep) = 1.
Proof.
  eexists. split.
  - apply (rejected_submission_is_reported_with_no_failed_record
             (upload sheetEmpty) (freshWorld emptyStore [])
             {| originalname := "members.xlsx"; path := "uploads/members.xlsx";
                content := Workbook (Some sheetEmpty) |}
             (eachRow sheetEmpty));
      try reflexivity; [constructor | constructor | left; reflexivity].
  - split; reflexivity.
Defined.

Lemma deleting_a_job_does_not_stop_its_run_witness :
  import_jobs
    (store (snd (processImport isoDate ilikePlain "job-1" [johnRow] "admin-1"
                   (snd (deleteJob "job-1" (freshWorld storeWithJob [])))))) = [].
Proof.
  exact (proj1 (proj2
    (deleting_a_job_does_not_stop_its_run isoDate ilikePlain "job-1" "admin-1" [johnRow]
       (freshWorld storeWithJob [])
       (accept None (Some "Import job deleted successfully")) eq_refl eq_refl))).
Defined.
